(** * key-sign: the keyboard-signature core of [KeyboardSignature.tsx]

    A shallow embedding of the algorithmic part of the component: the
    FNV-1a hash, the pair classifier, the seeded xorshift stream, the dash
    alphabet, the segment builder with its direction and length features,
    the Catmull-Rom control points, the codec record and its two
    serialisations.

    Conventions.
    - A JavaScript string is a Rocq [string]; each [ascii] is one UTF-16 code
      unit below 256 (the Latin-1 part of the BMP), so [String.length] is
      [s.length] and [s.split('')] is the list of its characters.
    - 32-bit integer arithmetic is carried on [Z] by the unsigned
      representative of the 32 bits ([ToUint32]); the signed intermediate
      values of [^], [<<] and [Math.imul] have the same bits.
    - The numbers of the geometry (key centres, lengths, angles, control
      points) are real numbers: [Math.hypot], [Math.atan2] and [Math.pow]
      are the mathematical functions they approximate. The key centres of
      the layout are integers, and a comparison of a double with 40, 80 or
      120 is the comparison of the real number it stands for.
    - A draw of the stream is the exact rational [x / 0xffffffff].
    - A call that would dereference [undefined] returns [TypeError]; the
      value [null] of the codec memo is [None].
    - [JSON.stringify] is modelled on the codec record, whose numbers are
      integers; the readers of the two serialised forms (a lexer and a
      parser of JSON text, the decoder of the XML entities) are not part of
      the component and are defined here to state the round trips. *)

From Stdlib Require Import ZArith List String Ascii Bool Lia.
From Stdlib Require Import QArith Qround.
From Stdlib Require Import Reals Lra Machin.
Import ListNotations.

Open Scope string_scope.
Open Scope Z_scope.

(* ================================================================= *)
(** ** Characters and strings *)

Definition charCodeAt (c : ascii) : Z := Z.of_N (N_of_ascii c).

Definition inRange (lo hi : Z) (c : ascii) : bool :=
  (lo <=? charCodeAt c) && (charCodeAt c <=? hi).

(** [split('')]: the characters of a string, each as a one-character string. *)
Definition split (s : string) : list string :=
  map (fun c => String c EmptyString) (list_ascii_of_string s).

(** [String.prototype.toLowerCase] on code units below 256: the ASCII
    capitals and the Latin-1 capitals U+00C0..U+00DE (U+00D7, the
    multiplication sign, excepted) move up by 32; every other code unit
    below 256 is its own lower case. *)
Definition lowerChar (c : ascii) : ascii :=
  if inRange 65 90 c
     || (inRange 192 222 c && negb (charCodeAt c =? 215))
  then ascii_of_N (N_of_ascii c + 32) else c.

Fixpoint toLowerCase (s : string) : string :=
  match s with
  | EmptyString => EmptyString
  | String c r => String (lowerChar c) (toLowerCase r)
  end.

(** [toUpperCase] is only ever applied to a string that matched
    [/[a-zA-Z]/]; in the pipeline that is a single ASCII letter. The two
    Latin-1 characters whose upper case is not a single code unit below 256
    (U+00DF, U+00FF) and the micro sign U+00B5 are left alone: nothing
    below depends on them and none of them is a key of the layout. *)
Definition upperChar (c : ascii) : ascii :=
  if inRange 97 122 c
     || (inRange 224 254 c && negb (charCodeAt c =? 247))
  then ascii_of_N (N_of_ascii c - 32) else c.

Fixpoint toUpperCase (s : string) : string :=
  match s with
  | EmptyString => EmptyString
  | String c r => String (upperChar c) (toUpperCase r)
  end.

(* ================================================================= *)
(** ** Small helpers: the three regular-expression tests *)

(** [/[0-9_]/.test(c)]: not anchored, some character is a digit or [_]. *)
Definition isNumOrUnd (c : string) : bool :=
  existsb (fun a => inRange 48 57 a || (charCodeAt a =? 95))
          (list_ascii_of_string c).

(** [/^[A-Z]$/.test(c)]: exactly one character, a capital. *)
Definition isUpper (c : string) : bool :=
  match c with
  | String a EmptyString => inRange 65 90 a
  | _ => false
  end.

(** [/^[a-z]$/.test(c)]. *)
Definition isLower (c : string) : bool :=
  match c with
  | String a EmptyString => inRange 97 122 a
  | _ => false
  end.

(* ================================================================= *)
(** ** hash32: FNV-1a on 32 bits *)

Definition u32 (z : Z) : Z := z mod 2 ^ 32.

(** [Math.imul(a, b)], as the unsigned value of its 32 result bits. *)
Definition imul (a b : Z) : Z := u32 (a * b).

Definition FNV_OFFSET : Z := 0x811c9dc5.
Definition FNV_PRIME : Z := 0x01000193.

(** One turn of the loop body: [h ^= s.charCodeAt(i); h = Math.imul(h, prime)]. *)
Definition hash32_step (h : Z) (c : ascii) : Z :=
  imul (Z.lxor h (charCodeAt c)) FNV_PRIME.

Definition hash32 (s : string) : Z :=
  u32 (fold_left hash32_step (list_ascii_of_string s) (u32 FNV_OFFSET)).

(* ================================================================= *)
(** ** classifyPair *)

Inductive PairClass : Set := UU | UL | LU | LL | NUM.

Definition classifyPair (a b : string) : PairClass :=
  if isNumOrUnd a || isNumOrUnd b then NUM
  else if isUpper a && isUpper b then UU
  else if isLower a && isLower b then LL
  else if isUpper a && isLower b then UL else LU.

(** The label of a class, as the string of the TypeScript union. *)
Definition classLabel (k : PairClass) : string :=
  match k with
  | UU => "UU" | UL => "UL" | LU => "LU" | LL => "LL" | NUM => "NUM"
  end.

(* ================================================================= *)
(** ** Number to string: [n.toString(radix)] and [padStart] *)

Definition digitChar (d : Z) : ascii :=
  nth (Z.to_nat d)
      (list_ascii_of_string "0123456789abcdefghijklmnopqrstuvwxyz") "0"%char.

(** The digits of a non-negative integer in the given radix, most
    significant first, no leading zero; [fuel] bounds the digit count. *)
Fixpoint digitsAux (radix : Z) (fuel : nat) (n : Z) (acc : string) : string :=
  match fuel with
  | O => acc
  | S f =>
      let acc' := String (digitChar (n mod radix)) acc in
      if n / radix =? 0 then acc' else digitsAux radix f (n / radix) acc'
  end.

(** [Number.prototype.toString(radix)] on an integer. *)
Definition numberToString (radix n : Z) : string :=
  let m := Z.abs n in
  let ds := digitsAux radix (S (Z.to_nat (Z.log2 m))) m EmptyString in
  if n <? 0 then String "-" ds else ds.

Definition toString16 (n : Z) : string := numberToString 16 n.

(** The decimal form used by template literals and by [JSON.stringify]. *)
Definition toString10 (n : Z) : string := numberToString 10 n.

Fixpoint repeatChar (k : nat) (c : ascii) : string :=
  match k with
  | O => EmptyString
  | S k' => String c (repeatChar k' c)
  end.

(** [s.padStart(n, c)] with a one-character filler. *)
Definition padStart (n : nat) (c : ascii) (s : string) : string :=
  repeatChar (n - String.length s) c ++ s.

(* ================================================================= *)
(** ** Errors: a dereference of [undefined] throws *)

Inductive result (A : Type) : Type :=
| Ok (a : A)
| TypeError.
Arguments Ok {A} a.
Arguments TypeError {A}.

Definition bind {A B} (r : result A) (k : A -> result B) : result B :=
  match r with
  | Ok a => k a
  | TypeError => TypeError
  end.

Notation "x <- r ;; k" := (bind r (fun x => k))
  (at level 61, r at next level, right associativity).

(** [arr[i]] followed by a property access: throws when out of range. *)
Definition at_ {A} (arr : list A) (i : nat) : result A :=
  match nth_error arr i with
  | Some a => Ok a
  | None => TypeError
  end.

(** [for (let i = i0; i < i0 + n; i++) s = body(i, s)]. *)
Fixpoint forLoop {St} (body : nat -> St -> result St) (i n : nat) (s : St)
  : result St :=
  match n with
  | O => Ok s
  | S n' => s' <- body i s ;; forLoop body (S i) n' s'
  end.

(* ================================================================= *)
(** ** makeRng: the seeded xorshift stream *)

Definition MAX_U32 : Z := 0xffffffff.

(** The three updates of the closure body, on the 32 bits of [x]:
    [x ^= x << 13; x ^= x >>> 17; x ^= x << 5]. *)
Definition xorshift (x : Z) : Z :=
  let x1 := Z.lxor x (u32 (Z.shiftl x 13)) in
  let x2 := Z.lxor x1 (Z.shiftr x1 17) in
  Z.lxor x2 (u32 (Z.shiftl x2 5)).

(** The state captured by the closure that [makeRng] returns:
    [const h = hash32(seedStr) || 1; let x = h >>> 0]. *)
Definition makeRng (seedStr : string) : Z :=
  let h := if hash32 seedStr =? 0 then 1 else hash32 seedStr in
  u32 h.

(** One call of the returned function: the value [(x >>> 0) / 0xffffffff]
    and the updated state. *)
Definition rngNext (x : Z) : Q * Z :=
  let x' := xorshift x in
  (Qmake (u32 x') (Z.to_pos MAX_U32), x').

(** The value of the [n]-th call (counting from 0) on the stream of a seed. *)
Fixpoint rngNth (n : nat) (x : Z) : Q :=
  match n with
  | O => fst (rngNext x)
  | S n' => rngNth n' (snd (rngNext x))
  end.

(* ================================================================= *)
(** ** The dash alphabet *)

Definition DASH_ALPHABET (k : PairClass) : list (list Z) :=
  match k with
  | UU => [ [] ]
  | UL => [ [8; 6]; [12; 4; 2; 4] ]
  | LU => [ [8; 6]; [3; 3; 1; 3] ]
  | LL => [ [2; 6]; [3; 3; 1; 3] ]
  | NUM => [ [1; 8]; [2; 8] ]
  end.

Definition legacyDash (a b : string) : option (list Z) :=
  if isNumOrUnd a || isNumOrUnd b then Some [1; 8]
  else if isUpper a && isUpper b then Some []
  else Some [8; 6].

(** [Math.floor(draw * n) % n]: [%] is the truncating remainder. *)
Definition dashIndex (draw : Q) (n : Z) : Z :=
  Z.rem (Qfloor (draw * inject_Z n)) n.

(** [choices[idx]]: [undefined] ([None]) outside the array. *)
Definition elemAt {A} (arr : list A) (idx : Z) : option A :=
  if idx <? 0 then None else nth_error arr (Z.to_nat idx).

(** [dashForPair(a, b, rng)]: [rng] is any nullary function with a state
    of its own, here a state transformer; one call is made. *)
Definition dashForPair {St} (a b : string) (rng : St -> Q * St) (st : St)
  : option (list Z) * St :=
  let klass := classifyPair a b in
  let choices := DASH_ALPHABET klass in
  let (draw, st') := rng st in
  let idx := dashIndex draw (Z.of_nat (List.length choices)) in
  (elemAt choices idx, st').

(* ================================================================= *)
(** ** Numbers of the geometry *)

(** [v || 1]: the fallback taken when [v] is [0]. *)
Definition orOne (v : R) : R := if Req_dec_T v 0 then 1%R else v.

(** [Math.round]: the nearest integer, a tie going up. *)
Definition jsRound (v : R) : Z := Zfloor (v + / 2).

Definition hypot (dx dy : R) : R := sqrt (dx * dx + dy * dy).

(** [Math.pow(b, e)] for a base [b >= 0] and an exponent [e >= 0]:
    [pow(b, 0) = 1] for every [b], and [pow(0, e) = 0] for [e > 0]. *)
Definition pow (b e : R) : R :=
  if Req_dec_T e 0 then 1%R
  else if Rlt_dec 0 b then Rpower b e else 0%R.

(** [Math.atan2(y, x)] on finite arguments, in [-PI, PI]. *)
Definition atan2 (y x : R) : R :=
  if Rlt_dec 0 x then atan (y / x)
  else if Rlt_dec x 0 then
    (if Rle_dec 0 y then atan (y / x) + PI else atan (y / x) - PI)%R
  else if Rlt_dec 0 y then (PI / 2)%R
  else if Rlt_dec y 0 then (- (PI / 2))%R
  else 0%R.

(** [Math.max(lo, Math.min(hi, v))]; the source applies the one [clamp] to
    pixel lengths and to integer percentages alike. *)
Definition clamp (v lo hi : R) : R := Rmax lo (Rmin hi v).
Definition clampZ (v lo hi : Z) : Z := Z.max lo (Z.min hi v).

(* ================================================================= *)
(** ** Features of a segment *)

Definition direction8 (dx dy : R) : Z :=
  let theta := atan2 dy dx in
  let dir := Z.rem (jsRound (theta / (PI / 4)) + 8) 8 in
  dir.

Definition lengthBin (len : R) : Z :=
  if Rlt_dec len 40 then 0
  else if Rlt_dec len 80 then 1
  else if Rlt_dec len 120 then 2
  else 3.

(* ================================================================= *)
(** ** colorForPair *)

Definition colorBase (k : PairClass) : Z * Z :=
  match k with
  | UU => (45, 58)
  | UL => (60, 52)
  | LU => (60, 52)
  | LL => (55, 48)
  | NUM => (35, 64)
  end.

Definition colorForPair (prev curr : string) (pxLen : R) : string :=
  let klass := classifyPair prev curr in
  let seed := prev ++ curr ++ "|" ++ classLabel klass in
  let hue := Z.rem (hash32 seed) 360 in
  let base := colorBase klass in
  let lenClamped := clamp pxLen 0 120 in
  let deltaL := jsRound (lenClamped / 120 * 12) - 6 in
  let s := clampZ (fst base) 30 80 in
  let l := clampZ (snd base + deltaL) 20 80 in
  "hsl(" ++ toString10 hue ++ "deg " ++ toString10 s ++ "% "
         ++ toString10 l ++ "%)".

(* ================================================================= *)
(** ** Points, keys and the Catmull-Rom controls *)

Module Key.
Record t : Type := mk { x : R; y : R }.
End Key.

(** [ch] is optional in the TypeScript type; every point the component
    builds carries it. *)
Module Pt.
Record t : Type := mk { x : R; y : R; ch : string }.
End Pt.

Module Controls.
Record t : Type := mk { c1x : R; c1y : R; c2x : R; c2y : R }.
End Controls.

Definition DEFAULT_ALPHA : R := 0.2%R.

(** [catmullRomCubicForSegment(p0, p1, p2, p3, alpha = 0.2)]; an omitted
    [alpha] is [None]. *)
Definition catmullRomCubicForSegment (p0 p1 p2 p3 : Pt.t) (alpha : option R)
  : Controls.t :=
  let alpha := match alpha with Some a => a | None => DEFAULT_ALPHA end in
  (let d01 := orOne (pow (hypot (Pt.x p1 - Pt.x p0) (Pt.y p1 - Pt.y p0)) alpha) in
   let d12 := orOne (pow (hypot (Pt.x p2 - Pt.x p1) (Pt.y p2 - Pt.y p1)) alpha) in
   let d23 := orOne (pow (hypot (Pt.x p3 - Pt.x p2) (Pt.y p3 - Pt.y p2)) alpha) in
   let t1 := d01 + d12 in
   let t2 := d12 + d23 in
   let m1x := (Pt.x p2 - Pt.x p1) / d12 - (Pt.x p1 - Pt.x p0) / d01 in
   let m1y := (Pt.y p2 - Pt.y p1) / d12 - (Pt.y p1 - Pt.y p0) / d01 in
   let m2x := (Pt.x p3 - Pt.x p2) / d23 - (Pt.x p2 - Pt.x p1) / d12 in
   let m2y := (Pt.y p3 - Pt.y p2) / d23 - (Pt.y p2 - Pt.y p1) / d12 in
   let tx1 := (m1x * d12) / orOne t1 in
   let ty1 := (m1y * d12) / orOne t1 in
   let tx2 := (m2x * d12) / orOne t2 in
   let ty2 := (m2y * d12) / orOne t2 in
   let c1x := Pt.x p1 + tx1 / 3 in
   let c1y := Pt.y p1 + ty1 / 3 in
   let c2x := Pt.x p2 - tx2 / 3 in
   let c2y := Pt.y p2 - ty2 / 3 in
   Controls.mk c1x c1y c2x c2y)%R.

(* ================================================================= *)
(** ** The layout table *)

Inductive KeyboardLayout : Set := qwerty.

(** The layout id as it appears in template literals. *)
Definition layoutId (l : KeyboardLayout) : string :=
  match l with qwerty => "qwerty" end.

Definition keyboardLayouts (l : KeyboardLayout) : list (string * Key.t) :=
  match l with
  | qwerty =>
      [ ("1", Key.mk 0 (-1)); ("2", Key.mk 1 (-1)); ("3", Key.mk 2 (-1));
        ("4", Key.mk 3 (-1)); ("5", Key.mk 4 (-1)); ("6", Key.mk 5 (-1));
        ("7", Key.mk 6 (-1)); ("8", Key.mk 7 (-1)); ("9", Key.mk 8 (-1));
        ("0", Key.mk 9 (-1)); ("_", Key.mk 10 (-1));

        ("Q", Key.mk 0.5 0); ("W", Key.mk 1.5 0); ("E", Key.mk 2.5 0);
        ("R", Key.mk 3.5 0); ("T", Key.mk 4.5 0); ("Y", Key.mk 5.5 0);
        ("U", Key.mk 6.5 0); ("I", Key.mk 7.5 0); ("O", Key.mk 8.5 0);
        ("P", Key.mk 9.5 0);

        ("A", Key.mk 0.75 1); ("S", Key.mk 1.75 1); ("D", Key.mk 2.75 1);
        ("F", Key.mk 3.75 1); ("G", Key.mk 4.75 1); ("H", Key.mk 5.75 1);
        ("J", Key.mk 6.75 1); ("K", Key.mk 7.75 1); ("L", Key.mk 8.75 1);

        ("Z", Key.mk 1.25 2); ("X", Key.mk 2.25 2); ("C", Key.mk 3.25 2);
        ("V", Key.mk 4.25 2); ("B", Key.mk 5.25 2); ("N", Key.mk 6.25 2);
        ("M", Key.mk 7.25 2) ]%R
  end.

(** [layout[key]] with the [key in layout] test: the entry of a key. *)
Fixpoint lookup {A} (key : string) (tbl : list (string * A)) : option A :=
  match tbl with
  | [] => None
  | (k, v) :: r => if String.eqb k key then Some v else lookup key r
  end.

(** [Math.min(...xs)] on a non-empty list, as the component applies it to
    the coordinates of the keys of a layout. *)
Definition minOf (xs : list R) : R :=
  match xs with
  | [] => 0%R
  | a :: r => fold_left Rmin r a
  end.

(* ================================================================= *)
(** ** The codec record *)

Module CodecSeg.
Record t : Type :=
  mk { a : string; b : string; cls : PairClass; dir : Z; lb : Z }.
End CodecSeg.

(** The literal types of the record: ["ks1"], ["abc" | "legacy"] and
    ["bigram-hsl-v1"]. *)
Inductive Version : Set := ks1.
Inductive DashTag : Set := abc | legacy.
Inductive ColorTag : Set := bigram_hsl_v1.

Module Codec.
Record t : Type :=
  mk { v : Version;
       layout : KeyboardLayout;
       dash : DashTag;
       color : ColorTag;
       len : Z;
       hash : string;
       seg : list CodecSeg.t }.
End Codec.

Definition buildCodec (name : string) (layout : KeyboardLayout)
           (useDashAlphabet : bool) (segs : list CodecSeg.t) : Codec.t :=
  let lower := toLowerCase name in
  let h := padStart 8 "0"%char
             (toString16 (hash32 (layoutId layout ++ "|" ++ lower))) in
  Codec.mk ks1
           layout
           (if useDashAlphabet then abc else legacy)
           bigram_hsl_v1
           (Z.of_nat (String.length name))
           h
           segs.

(* ================================================================= *)
(** ** The component: key centres, segments, codec *)

Definition KEY_SPACING : R := 60%R.
Definition KEY_W : R := 56%R.
Definition KEY_H : R := 48%R.
Definition PAD_X : R := 18%R.
Definition PAD_Y : R := 18%R.

(** [Object.values(layout)]. *)
Definition allKeys (l : KeyboardLayout) : list Key.t :=
  map snd (keyboardLayouts l).

Definition minX l : R := minOf (map Key.x (allKeys l)).
Definition minY l : R := minOf (map Key.y (allKeys l)).
Definition SHIFT_X l : R := (- minX l * KEY_SPACING)%R.
Definition SHIFT_Y l : R := (- minY l * KEY_SPACING)%R.

Definition isLetterChar (c : ascii) : bool :=
  inRange 97 122 c || inRange 65 90 c.

(** [getKeyCenter(ch)], applied by the component to the one-character
    strings of [name.split('')]. The test [key in layout] also holds of the
    property names that an object inherits; none of them has one
    character, so that on these strings it is the look-up in the table. *)
Definition getKeyCenter (l : KeyboardLayout) (ch : string) : option Pt.t :=
  match ch with
  | EmptyString => None
  | _ =>
      let isLetter := existsb isLetterChar (list_ascii_of_string ch) in
      let key := if isLetter then toUpperCase ch else ch in
      match lookup key (keyboardLayouts l) with
      | None => None
      | Some k =>
          Some (Pt.mk
                  (Key.x k * KEY_SPACING + SHIFT_X l + PAD_X + KEY_W / 2)
                  (Key.y k * KEY_SPACING + SHIFT_Y l + PAD_Y + KEY_H / 2)
                  ch)%R
      end
  end.

(** [xs.filter(Boolean)] on the results of [getKeyCenter]. *)
Fixpoint filterBoolean {A} (xs : list (option A)) : list A :=
  match xs with
  | [] => []
  | Some a :: r => a :: filterBoolean r
  | None :: r => filterBoolean r
  end.

(** [name.split('').map(getKeyCenter).filter(Boolean)]. *)
Definition resolve (l : KeyboardLayout) (name : string) : list Pt.t :=
  filterBoolean (map (getKeyCenter l) (split name)).

(** The path data of a segment. The source prints these numbers into the
    string [M x1 y1 L x2 y2] or [M x1 y1 C c1x c1y c2x c2y x2 y2]. *)
Inductive PathD : Type :=
| MoveLine (x1 y1 x2 y2 : R)
| MoveCubic (x1 y1 c1x c1y c2x c2y x2 y2 : R).

Module RenderSeg.
Record t : Type :=
  mk { d : PathD;
       dash : option (list Z);
       color : string;
       feat : CodecSeg.t }.
End RenderSeg.

(** [arr.push(x)]. *)
Definition push {A} (arr : list A) (x : A) : list A := (arr ++ [x])%list.

(** A property access on a value that may be [undefined]. *)
Definition deref {A} (o : option A) : result A :=
  match o with
  | Some a => Ok a
  | None => TypeError
  end.

Section Segments.

(** The colour of a segment. The component calls [colorForPair]; it is a
    variable here so that what does not depend on it can be said. *)
Variable colorOf : string -> string -> R -> string.

Variable currentKeyboardLayout : KeyboardLayout.

(** The body of the [for] loop of [segments]; the state is the array
    [segs] and the state of [rng]. *)
Definition segmentBody (pts : list Pt.t)
           (useDashAlphabet useCatmullRom : bool)
           (i : nat) (st : list RenderSeg.t * Z)
  : result (list RenderSeg.t * Z) :=
  let (segs, rng) := st in
  let p1o := nth_error pts i in
  let p2o := nth_error pts (i + 1) in
  let p0o := if 0 <=? Z.of_nat i - 1 then nth_error pts (i - 1) else p1o in
  let p3o := if (i + 2 <? List.length pts)%nat
             then nth_error pts (i + 2) else p2o in
  p2 <- deref p2o ;;
  p1 <- deref p1o ;;
  let dx := (Pt.x p2 - Pt.x p1)%R in
  let dy := (Pt.y p2 - Pt.y p1)%R in
  let segLen := hypot dx dy in
  let dir := direction8 dx dy in
  let lb := lengthBin segLen in
  let (dash, rng') :=
    if useDashAlphabet
    then dashForPair (Pt.ch p1) (Pt.ch p2) rngNext rng
    else (legacyDash (Pt.ch p1) (Pt.ch p2), rng) in
  let color := colorOf (Pt.ch p1) (Pt.ch p2) segLen in
  let feat :=
    CodecSeg.mk (Pt.ch p1) (Pt.ch p2)
                (classifyPair (Pt.ch p1) (Pt.ch p2)) dir lb in
  if negb useCatmullRom then
    Ok (push segs (RenderSeg.mk
                     (MoveLine (Pt.x p1) (Pt.y p1) (Pt.x p2) (Pt.y p2))
                     dash color feat),
        rng')
  else
    p0 <- deref p0o ;;
    p3 <- deref p3o ;;
    let c := catmullRomCubicForSegment p0 p1 p2 p3 (Some 0%R) in
    Ok (push segs (RenderSeg.mk
                     (MoveCubic (Pt.x p1) (Pt.y p1)
                                (Controls.c1x c) (Controls.c1y c)
                                (Controls.c2x c) (Controls.c2y c)
                                (Pt.x p2) (Pt.y p2))
                     dash color feat),
        rng').

Definition segmentsWith (name : string)
           (useDashAlphabet useCatmullRom : bool)
  : result (list RenderSeg.t) :=
  match name with
  | EmptyString => Ok []
  | _ =>
      let rng := makeRng ("key-sign:" ++ name ++ ":"
                                      ++ layoutId currentKeyboardLayout) in
      let pts := resolve currentKeyboardLayout name in
      if (List.length pts <? 2)%nat then Ok []
      else
        st <- forLoop (segmentBody pts useDashAlphabet useCatmullRom)
                      0 (List.length pts - 1) ([], rng) ;;
        Ok (fst st)
  end.

(** The [codec] memo: [null] is [None]. *)
Definition codecWith (name : string)
           (useDashAlphabet useCatmullRom : bool)
  : result (option Codec.t) :=
  segments <- segmentsWith name useDashAlphabet useCatmullRom ;;
  match name, segments with
  | EmptyString, _ => Ok None
  | _, [] => Ok None
  | _, _ =>
      let feats := map RenderSeg.feat segments in
      Ok (Some (buildCodec name currentKeyboardLayout useDashAlphabet feats))
  end.

End Segments.

(** The component's own instances. *)
Definition segments : KeyboardLayout -> string -> bool -> bool
                      -> result (list RenderSeg.t) :=
  segmentsWith colorForPair.

Definition codec : KeyboardLayout -> string -> bool -> bool
                   -> result (option Codec.t) :=
  codecWith colorForPair.

(* ================================================================= *)
(** ** escapeXml and the metadata document *)

Definition dquote : ascii := Eval cbv in ascii_of_nat 34.
Definition backslash : ascii := Eval cbv in ascii_of_nat 92.
Definition newline : ascii := Eval cbv in ascii_of_nat 10.

(** The replacement function of [escapeXml]: the entity of each of the five
    characters of the class, less-than, greater-than, ampersand, apostrophe
    and double quote. *)
Definition entityOf (c : ascii) : option string :=
  let n := charCodeAt c in
  if n =? 60 then Some "&lt;"
  else if n =? 62 then Some "&gt;"
  else if n =? 38 then Some "&amp;"
  else if n =? 39 then Some "&apos;"
  else if n =? 34 then Some "&quot;"
  else None.

(** [s.replace] with the global class of the five characters: one pass
    over the string, each match replaced by its entity. *)
Fixpoint escapeXml (s : string) : string :=
  match s with
  | EmptyString => EmptyString
  | String c r =>
      match entityOf c with
      | Some e => e ++ escapeXml r
      | None => String c (escapeXml r)
      end
  end.

(** The document of [exportCODECsvg] around an already serialised codec. *)
Definition svgOpen : string :=
  "<svg xmlns=" ++ String dquote "http://www.w3.org/2000/svg"
    ++ String dquote " width=" ++ String dquote "0" ++ String dquote " height="
    ++ String dquote "0" ++ String dquote ">" ++ String newline "  ".

Definition metadataOpen : string :=
  "<metadata id=" ++ String dquote "key-sign-codec" ++ String dquote ">".

Definition metadataClose : string :=
  "</metadata>" ++ String newline "</svg>".

Definition codecSvg (json : string) : string :=
  svgOpen ++ metadataOpen ++ escapeXml json ++ metadataClose.

(* ================================================================= *)
(** ** JSON.stringify on a codec *)

(** [QuoteJSONString] on code units below 256. *)
Definition quoteChar (c : ascii) : string :=
  let n := charCodeAt c in
  if n =? 34 then String backslash (String dquote EmptyString)
  else if n =? 92 then String backslash (String backslash EmptyString)
  else if n =? 8 then String backslash "b"
  else if n =? 12 then String backslash "f"
  else if n =? 10 then String backslash "n"
  else if n =? 13 then String backslash "r"
  else if n =? 9 then String backslash "t"
  else if n <? 32 then String backslash ("u" ++ padStart 4 "0"%char (toString16 n))
  else String c EmptyString.

Fixpoint quoteBody (s : string) : string :=
  match s with
  | EmptyString => EmptyString
  | String c r => quoteChar c ++ quoteBody r
  end.

Definition QuoteJSONString (s : string) : string :=
  String dquote (quoteBody s ++ String dquote EmptyString).

(** [Array.prototype.join] on strings. *)
Fixpoint join (sep : string) (xs : list string) : string :=
  match xs with
  | [] => EmptyString
  | [x] => x
  | x :: r => x ++ sep ++ join sep r
  end.

(** [SerializeJSONObject]: the members are the keys in property order, each
    with its value already serialised at the indentation [stepback ++ gap];
    an empty [gap] gives the compact form. *)
Definition SerializeJSONObject (gap stepback : string)
           (members : list (string * string)) : string :=
  let indent := stepback ++ gap in
  match members, gap with
  | [], _ => "{}"
  | _, EmptyString =>
      "{" ++ join "," (map (fun m => QuoteJSONString (fst m) ++ ":" ++ snd m)
                           members) ++ "}"
  | _, _ =>
      "{" ++ String newline indent
          ++ join ("," ++ String newline indent)
                  (map (fun m => QuoteJSONString (fst m) ++ ": " ++ snd m)
                       members)
          ++ String newline stepback ++ "}"
  end.

(** [SerializeJSONArray], the items already serialised likewise. *)
Definition SerializeJSONArray (gap stepback : string) (items : list string)
  : string :=
  let indent := stepback ++ gap in
  match items, gap with
  | [], _ => "[]"
  | _, EmptyString => "[" ++ join "," items ++ "]"
  | _, _ =>
      "[" ++ String newline indent
          ++ join ("," ++ String newline indent) items
          ++ String newline stepback ++ "]"
  end.

(** The strings of the literal types. *)
Definition versionLabel (v : Version) : string :=
  match v with ks1 => "ks1" end.
Definition dashLabel (d : DashTag) : string :=
  match d with abc => "abc" | legacy => "legacy" end.
Definition colorLabel (c : ColorTag) : string :=
  match c with bigram_hsl_v1 => "bigram-hsl-v1" end.

Definition stringifySeg (gap stepback : string) (s : CodecSeg.t) : string :=
  SerializeJSONObject gap stepback
    [ ("a", QuoteJSONString (CodecSeg.a s));
      ("b", QuoteJSONString (CodecSeg.b s));
      ("cls", QuoteJSONString (classLabel (CodecSeg.cls s)));
      ("dir", toString10 (CodecSeg.dir s));
      ("lb", toString10 (CodecSeg.lb s)) ].

(** [JSON.stringify(codec, null, gap)] for a gap of spaces, the codec's
    numbers being integers. *)
Definition JSON_stringify (gap : string) (c : Codec.t) : string :=
  SerializeJSONObject gap EmptyString
    [ ("v", QuoteJSONString (versionLabel (Codec.v c)));
      ("layout", QuoteJSONString (layoutId (Codec.layout c)));
      ("dash", QuoteJSONString (dashLabel (Codec.dash c)));
      ("color", QuoteJSONString (colorLabel (Codec.color c)));
      ("len", toString10 (Codec.len c));
      ("hash", QuoteJSONString (Codec.hash c));
      ("seg", SerializeJSONArray gap gap
                (map (stringifySeg gap (gap ++ gap)) (Codec.seg c))) ].

(** The text of [exportCODECtxt] and the document of [exportCODECsvg]. *)
Definition exportCODECtxt (c : Codec.t) : string := JSON_stringify "  " c.
Definition exportCODECsvg (c : Codec.t) : string :=
  codecSvg (JSON_stringify EmptyString c).

(* ================================================================= *)
(** ** Reading digits back: the reference decoders of the statements *)

(** The value of a digit character, [0-9] then [a-z]. *)
Definition digitVal (c : ascii) : option Z :=
  let n := charCodeAt c in
  if inRange 48 57 c then Some (n - 48)
  else if inRange 97 122 c then Some (n - 87)
  else None.

(** Reads a whole string as a numeral of the given radix, most
    significant digit first, starting from the value [v]. *)
Fixpoint parseDigits (radix : Z) (s : string) (v : Z) : option Z :=
  match s with
  | EmptyString => Some v
  | String c r =>
      match digitVal c with
      | Some d => if d <? radix then parseDigits radix r (v * radix + d)
                  else None
      | None => None
      end
  end.

(** A string of lower-case hexadecimal digits read as a number. *)
Definition hexValue (s : string) : option Z := parseDigits 16 s 0.

(** The numeral of [n] on exactly [k] digits. *)
Fixpoint fixedDigits (radix : Z) (k : nat) (n : Z) (acc : string) : string :=
  match k with
  | O => acc
  | S k' =>
      fixedDigits radix k' (n / radix) (String (digitChar (n mod radix)) acc)
  end.

(** FNV-1a on 32 bits as it is usually stated: start from the offset basis
    2166136261; for each input value, xor it in, then multiply by the prime
    16777619 modulo [2^32]. *)
Definition fnv1a32 (codes : list Z) : Z :=
  fold_left (fun h c => (Z.lxor h c * 16777619) mod 2 ^ 32) codes 2166136261.

(** The character classes of the classifier, by enumeration. *)
Definition digitOrUnderscore (c : ascii) : Prop :=
  In c (list_ascii_of_string "0123456789_").
Definition upperCase (c : ascii) : Prop :=
  In c (list_ascii_of_string "ABCDEFGHIJKLMNOPQRSTUVWXYZ").
Definition lowerCase (c : ascii) : Prop :=
  In c (list_ascii_of_string "abcdefghijklmnopqrstuvwxyz").

(** A one-character string. *)
Definition str1 (c : ascii) : string := String c EmptyString.

(** The features of the segment between two points, and the consecutive
    pairs of a list: what the [for] loop of [segments] walks through. *)
Definition featAt (p1 p2 : Pt.t) : CodecSeg.t :=
  let dx := (Pt.x p2 - Pt.x p1)%R in
  let dy := (Pt.y p2 - Pt.y p1)%R in
  CodecSeg.mk (Pt.ch p1) (Pt.ch p2)
              (classifyPair (Pt.ch p1) (Pt.ch p2))
              (direction8 dx dy)
              (lengthBin (hypot dx dy)).

Fixpoint adjacent {A} (l : list A) : list (A * A) :=
  match l with
  | a :: ((b :: _) as r) => (a, b) :: adjacent r
  | _ => []
  end.

Definition featsOf (pts : list Pt.t) : list CodecSeg.t :=
  map (fun p => featAt (fst p) (snd p)) (adjacent pts).

(** Whether a character of the name resolves to a key of the layout. *)
Definition resolves (l : KeyboardLayout) (ch : string) : bool :=
  match getKeyCenter l ch with Some _ => true | None => false end.

(** The state of the stream after [n] calls. *)
Fixpoint rngState (n : nat) (x : Z) : Z :=
  match n with
  | O => x
  | S n' => rngState n' (snd (rngNext x))
  end.

(** The xorshift step in arithmetic: a left shift kept on 32 bits is a
    product modulo [2^32], a logical right shift is a quotient. *)
Definition xorshift32 (x : Z) : Z :=
  let x1 := Z.lxor x ((x * 2 ^ 13) mod 2 ^ 32) in
  let x2 := Z.lxor x1 (x1 / 2 ^ 17) in
  Z.lxor x2 ((x2 * 2 ^ 5) mod 2 ^ 32).

(** Membership of a character in a string, as a test. *)
Definition inb (c : ascii) (s : string) : bool :=
  existsb (Ascii.eqb c) (list_ascii_of_string s).

(** A fact about one character, checked on each of the 256 code units. *)
Ltac each_char a :=
  destruct a as [[] [] [] [] [] [] [] []]; vm_compute; reflexivity.

(** The centres of three keys of the qwerty layout. *)
Definition ptA : Pt.t := Pt.mk 91 162 "a".
Definition ptQ : Pt.t := Pt.mk 76 102 "q".
Definition ptP : Pt.t := Pt.mk 616 102 "p".

(** The neighbours that the loop of [segments] hands to the Catmull-Rom
    function at index [i]: the previous point, or [p1] itself at the start;
    the point after next, or [p2] itself at the end. *)
Definition clampedNeighbours (pts : list Pt.t) (i : nat) (p1 p2 : Pt.t)
  : Pt.t * Pt.t :=
  (match i with O => p1 | S j => nth j pts p1 end, nth (i + 2) pts p2).

(** The path of the segment at index [i] in Catmull-Rom mode. *)
Definition cubicAt (pts : list Pt.t) (i : nat) : option PathD :=
  match nth_error pts i, nth_error pts (i + 1) with
  | Some p1, Some p2 =>
      let n := clampedNeighbours pts i p1 p2 in
      let c := catmullRomCubicForSegment (fst n) p1 p2 (snd n) (Some 0%R) in
      Some (MoveCubic (Pt.x p1) (Pt.y p1)
                      (Controls.c1x c) (Controls.c1y c)
                      (Controls.c2x c) (Controls.c2y c)
                      (Pt.x p2) (Pt.y p2))
  | _, _ => None
  end.

(** The controls of a uniform parametrisation: every distance weight 1. *)
Definition uniformControls (p0 p1 p2 p3 : Pt.t) : Controls.t :=
  Controls.mk
    (Pt.x p1 + ((Pt.x p2 - Pt.x p1) - (Pt.x p1 - Pt.x p0)) / 6)%R
    (Pt.y p1 + ((Pt.y p2 - Pt.y p1) - (Pt.y p1 - Pt.y p0)) / 6)%R
    (Pt.x p2 - ((Pt.x p3 - Pt.x p2) - (Pt.x p2 - Pt.x p1)) / 6)%R
    (Pt.y p2 - ((Pt.y p3 - Pt.y p2) - (Pt.y p2 - Pt.y p1)) / 6)%R.

(* ================================================================= *)
(** ** Reading the two forms back: the reference decoders *)

(** The option monad of the decoders. *)
Definition obind {A B} (o : option A) (k : A -> option B) : option B :=
  match o with
  | Some a => k a
  | None => None
  end.

Notation "x <-? o ;; k" := (obind o (fun x => k))
  (at level 61, o at next level, right associativity).

(** [s] without the prefix [p], when it starts with it. *)
Fixpoint stripPrefix (p s : string) : option string :=
  match p, s with
  | EmptyString, _ => Some s
  | String a p', String b s' =>
      if Ascii.eqb a b then stripPrefix p' s' else None
  | _, EmptyString => None
  end.

(** The five predefined entities of XML and the character of each. *)
Definition entities : list (string * ascii) :=
  [ ("&lt;", "<"%char); ("&gt;", ">"%char); ("&amp;", "&"%char);
    ("&apos;", "'"%char); ("&quot;", dquote) ].

Fixpoint decodeEntity (es : list (string * ascii)) (s : string)
  : option (ascii * string) :=
  match es with
  | [] => None
  | (name, c) :: r =>
      match stripPrefix name s with
      | Some rest => Some (c, rest)
      | None => decodeEntity r s
      end
  end.

(** Entity unescaping: each entity reference becomes its character, every
    other character stands for itself. *)
Fixpoint unescapeAux (fuel : nat) (s : string) : string :=
  match fuel, s with
  | S f, String c r =>
      match decodeEntity entities s with
      | Some (ch, rest) => String ch (unescapeAux f rest)
      | None => String c (unescapeAux f r)
      end
  | _, _ => EmptyString
  end.

Definition unescapeXml (s : string) : string :=
  unescapeAux (String.length s) s.

(** The characters of [s] before the first [<]. *)
Fixpoint textUntilTag (s : string) : string * string :=
  match s with
  | EmptyString => (EmptyString, EmptyString)
  | String c r =>
      if Ascii.eqb c "<" then (EmptyString, s)
      else let (t, rest) := textUntilTag r in (String c t, rest)
  end.

(** The character data of the [metadata] element of a codec document. *)
Definition metadataText (svg : string) : option string :=
  r <-? stripPrefix svgOpen svg ;;
  r <-? stripPrefix metadataOpen r ;;
  let (text, rest) := textUntilTag r in
  _ <-? stripPrefix metadataClose rest ;;
  Some (unescapeXml text).

(** *** A lexer of JSON text *)

Inductive token : Type :=
| TLBrace | TRBrace | TLBracket | TRBracket | TColon | TComma
| TString (s : string)
| TNumber (n : Z).

Definition isWs (c : ascii) : bool :=
  let n := charCodeAt c in
  (n =? 32) || (n =? 9) || (n =? 10) || (n =? 13).

Definition isDigit (c : ascii) : bool := inRange 48 57 c.

Definition punct (c : ascii) : option token :=
  let n := charCodeAt c in
  if n =? 123 then Some TLBrace
  else if n =? 125 then Some TRBrace
  else if n =? 91 then Some TLBracket
  else if n =? 93 then Some TRBracket
  else if n =? 58 then Some TColon
  else if n =? 44 then Some TComma
  else None.

(** The character of a two-character escape. *)
Definition unescapeChar (e : ascii) : option ascii :=
  let n := charCodeAt e in
  if n =? 34 then Some dquote
  else if n =? 92 then Some backslash
  else if n =? 47 then Some "/"%char
  else if n =? 98 then Some (ascii_of_nat 8)
  else if n =? 102 then Some (ascii_of_nat 12)
  else if n =? 110 then Some (ascii_of_nat 10)
  else if n =? 114 then Some (ascii_of_nat 13)
  else if n =? 116 then Some (ascii_of_nat 9)
  else None.

Definition consFst {A} (c : ascii) (o : option (string * A))
  : option (string * A) :=
  match o with
  | Some (s, a) => Some (String c s, a)
  | None => None
  end.

(** A string literal after its opening quote: the string it denotes and
    the text after the closing quote. *)
Fixpoint lexString (s : string) : option (string * string) :=
  match s with
  | EmptyString => None
  | String c r =>
      if Ascii.eqb c dquote then Some (EmptyString, r)
      else if Ascii.eqb c backslash then
        match r with
        | EmptyString => None
        | String e r1 =>
            if Ascii.eqb e "u" then
              match r1 with
              | String h1 (String h2 (String h3 (String h4 r2))) =>
                  match hexValue (String h1 (String h2
                                   (String h3 (String h4 EmptyString)))) with
                  | Some v =>
                      if v <? 256
                      then consFst (ascii_of_N (Z.to_N v)) (lexString r2)
                      else None
                  | None => None
                  end
              | _ => None
              end
            else
              match unescapeChar e with
              | Some ch => consFst ch (lexString r1)
              | None => None
              end
        end
      else if charCodeAt c <? 32 then None
      else consFst c (lexString r)
  end.

(** A run of decimal digits, read from the value [v]. *)
Fixpoint lexDigits (s : string) (v : Z) : Z * string :=
  match s with
  | EmptyString => (v, EmptyString)
  | String c r =>
      if isDigit c then lexDigits r (v * 10 + (charCodeAt c - 48))
      else (v, s)
  end.

(** An integer numeral, with an optional minus sign. *)
Definition lexNumber (s : string) : option (Z * string) :=
  match s with
  | EmptyString => None
  | String c r =>
      if Ascii.eqb c "-" then
        match r with
        | String d _ =>
            if isDigit d then
              let (v, rest) := lexDigits r 0 in Some (- v, rest)
            else None
        | EmptyString => None
        end
      else if isDigit c then Some (lexDigits s 0)
      else None
  end.

Definition lexToken (s : string) : option (token * string) :=
  match s with
  | EmptyString => None
  | String c r =>
      match punct c with
      | Some t => Some (t, r)
      | None =>
          if Ascii.eqb c dquote then
            match lexString r with
            | Some (str, rest) => Some (TString str, rest)
            | None => None
            end
          else
            match lexNumber s with
            | Some (n, rest) => Some (TNumber n, rest)
            | None => None
            end
      end
  end.

(** The tokens of a text. [skip] counts the characters still to pass over,
    those of the token read last. *)
Fixpoint lex (skip : nat) (s : string) : option (list token) :=
  match s with
  | EmptyString => Some []
  | String c r =>
      match skip with
      | S k => lex k r
      | O =>
          if isWs c then lex 0 r
          else
            match lexToken s with
            | Some (t, rest) =>
                match lex (String.length r - String.length rest) r with
                | Some ts => Some (t :: ts)
                | None => None
                end
            | None => None
            end
      end
  end.

(** *** A parser of the tokens of a codec *)

Definition token_eqb (a b : token) : bool :=
  match a, b with
  | TLBrace, TLBrace | TRBrace, TRBrace | TLBracket, TLBracket
  | TRBracket, TRBracket | TColon, TColon | TComma, TComma => true
  | TString s, TString t => String.eqb s t
  | TNumber n, TNumber m => n =? m
  | _, _ => false
  end.

Definition expect (t : token) (ts : list token) : option (list token) :=
  match ts with
  | t' :: r => if token_eqb t t' then Some r else None
  | [] => None
  end.

(** A member key and its colon. *)
Definition expectKey (k : string) (ts : list token) : option (list token) :=
  r <-? expect (TString k) ts ;; expect TColon r.

Definition getString (ts : list token) : option (string * list token) :=
  match ts with
  | TString s :: r => Some (s, r)
  | _ => None
  end.

Definition getNumber (ts : list token) : option (Z * list token) :=
  match ts with
  | TNumber n :: r => Some (n, r)
  | _ => None
  end.

Definition parseClass (s : string) : option PairClass :=
  if String.eqb s "UU" then Some UU
  else if String.eqb s "UL" then Some UL
  else if String.eqb s "LU" then Some LU
  else if String.eqb s "LL" then Some LL
  else if String.eqb s "NUM" then Some NUM
  else None.

Definition parseVersion (s : string) : option Version :=
  if String.eqb s "ks1" then Some ks1 else None.

Definition parseLayout (s : string) : option KeyboardLayout :=
  if String.eqb s "qwerty" then Some qwerty else None.

Definition parseDash (s : string) : option DashTag :=
  if String.eqb s "abc" then Some abc
  else if String.eqb s "legacy" then Some legacy
  else None.

Definition parseColor (s : string) : option ColorTag :=
  if String.eqb s "bigram-hsl-v1" then Some bigram_hsl_v1 else None.

Definition parseSeg (ts : list token) : option (CodecSeg.t * list token) :=
  r <-? expect TLBrace ts ;;
  r <-? expectKey "a" r ;; a <-? getString r ;;
  r <-? expect TComma (snd a) ;;
  r <-? expectKey "b" r ;; b <-? getString r ;;
  r <-? expect TComma (snd b) ;;
  r <-? expectKey "cls" r ;; k <-? getString r ;;
  cls <-? parseClass (fst k) ;;
  r <-? expect TComma (snd k) ;;
  r <-? expectKey "dir" r ;; dir <-? getNumber r ;;
  r <-? expect TComma (snd dir) ;;
  r <-? expectKey "lb" r ;; lb <-? getNumber r ;;
  r <-? expect TRBrace (snd lb) ;;
  Some (CodecSeg.mk (fst a) (fst b) cls (fst dir) (fst lb), r).

(** The items of the [seg] array after its opening bracket, up to and
    including the closing one. *)
Fixpoint parseSegs (fuel : nat) (first : bool) (ts : list token)
  : option (list CodecSeg.t * list token) :=
  match fuel with
  | O => None
  | S f =>
      match ts with
      | TRBracket :: r => if first then Some ([], r) else None
      | _ =>
          s <-? parseSeg ts ;;
          match snd s with
          | TComma :: r =>
              more <-? parseSegs f false r ;;
              Some (fst s :: fst more, snd more)
          | TRBracket :: r => Some ([fst s], r)
          | _ => None
          end
      end
  end.

Definition parseCodec (ts : list token) : option Codec.t :=
  r <-? expect TLBrace ts ;;
  r <-? expectKey "v" r ;; v <-? getString r ;;
  ver <-? parseVersion (fst v) ;;
  r <-? expect TComma (snd v) ;;
  r <-? expectKey "layout" r ;; l <-? getString r ;;
  lay <-? parseLayout (fst l) ;;
  r <-? expect TComma (snd l) ;;
  r <-? expectKey "dash" r ;; d <-? getString r ;;
  dsh <-? parseDash (fst d) ;;
  r <-? expect TComma (snd d) ;;
  r <-? expectKey "color" r ;; c <-? getString r ;;
  col <-? parseColor (fst c) ;;
  r <-? expect TComma (snd c) ;;
  r <-? expectKey "len" r ;; len <-? getNumber r ;;
  r <-? expect TComma (snd len) ;;
  r <-? expectKey "hash" r ;; h <-? getString r ;;
  r <-? expect TComma (snd h) ;;
  r <-? expectKey "seg" r ;;
  r <-? expect TLBracket r ;;
  segs <-? parseSegs (S (List.length r)) true r ;;
  r <-? expect TRBrace (snd segs) ;;
  match r with
  | [] => Some (Codec.mk ver lay dsh col (fst len) (fst h) (fst segs))
  | _ => None
  end.

(** [JSON.parse] on the text of a codec, as a codec. *)
Definition JSON_parse (text : string) : option Codec.t :=
  ts <-? lex 0 text ;; parseCodec ts.

(** The tokens of a codec. *)
Definition segTokens (s : CodecSeg.t) : list token :=
  [ TLBrace;
    TString "a"; TColon; TString (CodecSeg.a s); TComma;
    TString "b"; TColon; TString (CodecSeg.b s); TComma;
    TString "cls"; TColon; TString (classLabel (CodecSeg.cls s)); TComma;
    TString "dir"; TColon; TNumber (CodecSeg.dir s); TComma;
    TString "lb"; TColon; TNumber (CodecSeg.lb s);
    TRBrace ].

Fixpoint segsTokens (segs : list CodecSeg.t) : list token :=
  match segs with
  | [] => []
  | [s] => segTokens s
  | s :: r => (segTokens s ++ TComma :: segsTokens r)%list
  end.

Definition codecTokens (c : Codec.t) : list token :=
  ([ TLBrace;
     TString "v"; TColon; TString (versionLabel (Codec.v c)); TComma;
     TString "layout"; TColon; TString (layoutId (Codec.layout c)); TComma;
     TString "dash"; TColon; TString (dashLabel (Codec.dash c)); TComma;
     TString "color"; TColon; TString (colorLabel (Codec.color c)); TComma;
     TString "len"; TColon; TNumber (Codec.len c); TComma;
     TString "hash"; TColon; TString (Codec.hash c); TComma;
     TString "seg"; TColon; TLBracket ]
     ++ segsTokens (Codec.seg c) ++ [TRBracket; TRBrace])%list.

(** *** What the lexer needs of a text *)

(** A text before which a numeral ends: it does not start with a digit. *)
Definition safe (s : string) : Prop :=
  match s with
  | EmptyString => True
  | String c _ => isDigit c = false
  end.

(** A text of white space only. *)
Fixpoint allWs (s : string) : bool :=
  match s with
  | EmptyString => true
  | String c r => isWs c && allWs r
  end.

(** The text [v] lexes to the tokens [tv], whatever follows it. *)
Definition LexV (v : string) (tv : list token) : Prop :=
  forall rest, safe rest ->
    lex 0 (v ++ rest) = option_map (app tv) (lex 0 rest).

(** The tokens of a list of members, and of a list of items. *)
Fixpoint memberTokens (ms : list (string * list token)) : list token :=
  match ms with
  | [] => []
  | [m] => TString (fst m) :: TColon :: snd m
  | m :: r => (TString (fst m) :: TColon :: snd m ++ TComma :: memberTokens r)%list
  end.

Fixpoint itemTokens (its : list (list token)) : list token :=
  match its with
  | [] => []
  | [i] => i
  | i :: r => (i ++ TComma :: itemTokens r)%list
  end.

(** A text without the character [<]. *)
Fixpoint noTag (s : string) : bool :=
  match s with
  | EmptyString => true
  | String c r => negb (Ascii.eqb c "<") && noTag r
  end.

(* ================================================================= *)
(** ** The rest of the component: canvas, active keys, key clicks *)

(** [Math.max(...xs)] on a non-empty list. *)
Definition maxOf (xs : list R) : R :=
  match xs with
  | [] => 0%R
  | a :: r => fold_left Rmax r a
  end.

Definition maxX l : R := maxOf (map Key.x (allKeys l)).
Definition maxY l : R := maxOf (map Key.y (allKeys l)).

Definition WIDTH l : R :=
  ((maxX l - minX l) * KEY_SPACING + KEY_W + PAD_X * 2)%R.
Definition HEIGHT l : R :=
  ((maxY l - minY l) * KEY_SPACING + KEY_H + PAD_Y * 2)%R.

(** The mapping of [activeKeys]: a letter goes to its capital. *)
Definition keyOf (c : string) : string :=
  if existsb isLetterChar (list_ascii_of_string c) then toUpperCase c else c.

(** [c in layout], on a one-character string. *)
Definition inLayout (l : KeyboardLayout) (c : string) : bool :=
  match lookup c (keyboardLayouts l) with
  | Some _ => true
  | None => false
  end.

(** [new Set(xs)]: the distinct elements, in the order of their first
    occurrence. *)
Fixpoint newSet (xs : list string) : list string :=
  match xs with
  | [] => []
  | x :: r =>
      x :: filter (fun y => negb (String.eqb x y)) (newSet r)
  end.

Definition activeKeys (l : KeyboardLayout) (name : string) : list string :=
  newSet (filter (inLayout l) (map keyOf (split name))).

(** [renderKeyLabel] and [clickCharToAppend]: a capital key shows, and
    types, its small letter unless Caps is on. *)
Definition renderKeyLabel (capsOn : bool) (char : string) : string :=
  if isUpper char then (if capsOn then char else toLowerCase char) else char.

Definition clickCharToAppend (capsOn : bool) (char : string) : string :=
  if isUpper char then (if capsOn then char else toLowerCase char) else char.

(** The click handler of a key: [setName(p => p + clickCharToAppend(char))]. *)
Definition clickKey (capsOn : bool) (char : string) (name : string) : string :=
  name ++ clickCharToAppend capsOn char.

(** The end points of a path. *)
Definition pathStart (d : PathD) : R * R :=
  match d with
  | MoveLine x1 y1 _ _ => (x1, y1)
  | MoveCubic x1 y1 _ _ _ _ _ _ => (x1, y1)
  end.

Definition pathEnd (d : PathD) : R * R :=
  match d with
  | MoveLine _ _ x2 y2 => (x2, y2)
  | MoveCubic _ _ _ _ _ _ x2 y2 => (x2, y2)
  end.

(** The characters that name a key of the qwerty layout, in either case. *)
Definition keyboardChars : string :=
  "abcdefghijklmnopqrstuvwxyzABCDEFGHIJKLMNOPQRSTUVWXYZ0123456789_".

(** The class with its two letter cases exchanged. *)
Definition mirror (k : PairClass) : PairClass :=
  match k with
  | UL => LU
  | LU => UL
  | k => k
  end.


(** The segment that the loop of [segments] pushes at index [i], in closed
    form: [seed] is the state of the stream before the loop, and the draw
    of index [i] is the [i]-th of the stream. *)
Definition pathAt (useCatmullRom : bool) (pts : list Pt.t) (i : nat)
           (p1 p2 : Pt.t) : PathD :=
  if useCatmullRom then
    let n := clampedNeighbours pts i p1 p2 in
    let c := catmullRomCubicForSegment (fst n) p1 p2 (snd n) (Some 0%R) in
    MoveCubic (Pt.x p1) (Pt.y p1)
              (Controls.c1x c) (Controls.c1y c)
              (Controls.c2x c) (Controls.c2y c)
              (Pt.x p2) (Pt.y p2)
  else MoveLine (Pt.x p1) (Pt.y p1) (Pt.x p2) (Pt.y p2).

Definition dashAt (useDashAlphabet : bool) (seed : Z) (i : nat)
           (a b : string) : option (list Z) :=
  if useDashAlphabet then
    let choices := DASH_ALPHABET (classifyPair a b) in
    elemAt choices
           (dashIndex (rngNth i seed) (Z.of_nat (List.length choices)))
  else legacyDash a b.

Definition segmentAt (colorOf : string -> string -> R -> string)
           (pts : list Pt.t) (useDashAlphabet useCatmullRom : bool)
           (seed : Z) (i : nat) : option RenderSeg.t :=
  match nth_error pts i, nth_error pts (i + 1) with
  | Some p1, Some p2 =>
      Some (RenderSeg.mk
              (pathAt useCatmullRom pts i p1 p2)
              (dashAt useDashAlphabet seed i (Pt.ch p1) (Pt.ch p2))
              (colorOf (Pt.ch p1) (Pt.ch p2)
                       (hypot (Pt.x p2 - Pt.x p1) (Pt.y p2 - Pt.y p1)))
              (featAt p1 p2))
  | _, _ => None
  end.

(** The state of the stream when the loop reaches index [i]. *)
Definition streamAt (useDashAlphabet : bool) (seed : Z) (i : nat) : Z :=
  if useDashAlphabet then rngState i seed else seed.

(** The seed string of a name on a layout. *)
Definition seedOf (l : KeyboardLayout) (name : string) : Z :=
  makeRng ("key-sign:" ++ name ++ ":" ++ layoutId l).

(** The five characters that [escapeXml] replaces. *)
Definition special (c : ascii) : bool :=
  match entityOf c with Some _ => true | None => false end.

(** Whether a character occurs in a string. *)
Fixpoint occurs (c : ascii) (s : string) : bool :=
  match s with
  | EmptyString => false
  | String a r => Ascii.eqb c a || occurs c r
  end.

(** Whether some character of a string is one of the five. *)
Fixpoint anySpecial (s : string) : bool :=
  match s with
  | EmptyString => false
  | String a r => special a || anySpecial r
  end.

(** The qwerty table on a grid of quarter key widths: a key at column
    [x] and row [y] of the table stands at [(4 * x, y)]. *)
Definition layoutGrid (l : KeyboardLayout) : list (string * (Z * Z)) :=
  match l with
  | qwerty =>
      [ ("1", (0, -1)); ("2", (4, -1)); ("3", (8, -1)); ("4", (12, -1));
        ("5", (16, -1)); ("6", (20, -1)); ("7", (24, -1)); ("8", (28, -1));
        ("9", (32, -1)); ("0", (36, -1)); ("_", (40, -1));
        ("Q", (2, 0)); ("W", (6, 0)); ("E", (10, 0)); ("R", (14, 0));
        ("T", (18, 0)); ("Y", (22, 0)); ("U", (26, 0)); ("I", (30, 0));
        ("O", (34, 0)); ("P", (38, 0));
        ("A", (3, 1)); ("S", (7, 1)); ("D", (11, 1)); ("F", (15, 1));
        ("G", (19, 1)); ("H", (23, 1)); ("J", (27, 1)); ("K", (31, 1));
        ("L", (35, 1));
        ("Z", (5, 2)); ("X", (9, 2)); ("C", (13, 2)); ("V", (17, 2));
        ("B", (21, 2)); ("N", (25, 2)); ("M", (29, 2)) ]
  end.

Definition gridKey (g : Z * Z) : Key.t :=
  Key.mk (IZR (fst g) / 4) (IZR (snd g)).

(** Two entries of the grid are the same key, or a full key width apart in
    their row, or in different rows. *)
Definition apart (e1 e2 : string * (Z * Z)) : bool :=
  String.eqb (fst e1) (fst e2)
  || (4 <=? Z.abs (fst (snd e2) - fst (snd e1)))
  || (1 <=? Z.abs (snd (snd e2) - snd (snd e1))).

(** The centre of a key of the table, with the character to show. *)
Definition centreOf (l : KeyboardLayout) (k : Key.t) (ch : string) : Pt.t :=
  Pt.mk (Key.x k * KEY_SPACING + SHIFT_X l + PAD_X + KEY_W / 2)
        (Key.y k * KEY_SPACING + SHIFT_Y l + PAD_Y + KEY_H / 2)
        ch.

(** What holds of each key of the grid: the key is found under its own
    name, and the character that a click on it types, Caps on or off, is
    one character whose key is that key. *)
Definition clickable (l : KeyboardLayout) (e : string * (Z * Z)) : bool :=
  match lookup (fst e) (layoutGrid l) with
  | Some g => (fst g =? fst (snd e)) && (snd g =? snd (snd e))
  | None => false
  end
  && forallb (fun capsOn =>
                let typed := clickCharToAppend capsOn (fst e) in
                String.eqb (keyOf typed) (fst e)
                && (String.length typed =? 1)%nat
                && String.eqb typed
                     (if capsOn then fst e else toLowerCase (fst e)))
             [true; false].



(** [name.slice(-1)]: the last character, or the empty string. *)
Fixpoint lastChar (name : string) : string :=
  match name with
  | EmptyString => EmptyString
  | String c EmptyString => String c EmptyString
  | String _ r => lastChar r
  end.

(** [isCurrentKey] of the key [char]: the last character of the name is on
    this key. The empty string is falsy. *)
Definition isCurrentKey (name char : string) : bool :=
  match lastChar name with
  | EmptyString => false
  | lc => String.eqb (keyOf lc) char
  end.

(** [isActive] of the key [char]: [activeKeys.has(char)]. *)
Definition isActive (l : KeyboardLayout) (name char : string) : bool :=
  existsb (String.eqb char) (activeKeys l name).

(** The [left] and [top] of the box of a key, in pixels. *)
Definition keyLeft (l : KeyboardLayout) (pos : Key.t) : R :=
  (Key.x pos * KEY_SPACING + SHIFT_X l + PAD_X)%R.
Definition keyTop (l : KeyboardLayout) (pos : Key.t) : R :=
  (Key.y pos * KEY_SPACING + SHIFT_Y l + PAD_Y)%R.

(* ================================================================= *)
(** ** The earlier component: three line styles *)

Inductive SegmentStyle : Set := solid | dashed | dotted.

Definition isLetter (c : string) : bool := isUpper c || isLower c.

Definition classifyStyle (a b : string) : SegmentStyle :=
  if isNumOrUnd a || isNumOrUnd b then dotted
  else if isLetter a && isLetter b then
         (if isUpper a && isUpper b then solid else dashed)
  else solid.

(** The dash array that the earlier component sets for a style. *)
Definition lineDash (s : SegmentStyle) : list Z :=
  match s with
  | solid => []
  | dashed => [8; 6]
  | dotted => [1; 8]
  end.



(* ################################################################# *)
(** * Properties *)

(* ================================================================= *)
(** ** Strings *)

Lemma append_assoc (s t u : string) : (s ++ t) ++ u = s ++ (t ++ u).
Proof. induction s as [|c s IH]; simpl; [reflexivity|now rewrite IH]. Qed.

Lemma append_nil_r (s : string) : s ++ EmptyString = s.
Proof. induction s as [|c s IH]; simpl; [reflexivity|now rewrite IH]. Qed.

Lemma append_length (s t : string) :
  String.length (s ++ t) = (String.length s + String.length t)%nat.
Proof. induction s as [|c s IH]; simpl; [reflexivity|now rewrite IH]. Qed.

(* ================================================================= *)
(** ** Numerals *)

Lemma digitVal_digitChar d :
  0 <= d < 36 -> digitVal (digitChar d) = Some d.
Proof.
  intros Hd.
  rewrite <- (Z2Nat.id d) by lia.
  assert (Hn : (Z.to_nat d < 36)%nat) by lia.
  revert Hn. generalize (Z.to_nat d). clear.
  intros n Hn.
  do 36 (destruct n as [|n]; [reflexivity|]).
  lia.
Qed.

Lemma fixedDigits_length radix k : forall n acc,
  String.length (fixedDigits radix k n acc) = (k + String.length acc)%nat.
Proof.
  induction k as [|k IH]; intros n acc; simpl.
  - reflexivity.
  - rewrite IH. simpl. lia.
Qed.

Lemma fixedDigits_app radix k : forall n acc,
  fixedDigits radix k n acc = fixedDigits radix k n EmptyString ++ acc.
Proof.
  induction k as [|k IH]; intros n acc; simpl.
  - reflexivity.
  - rewrite IH. rewrite (IH _ (String _ EmptyString)).
    rewrite append_assoc. reflexivity.
Qed.

Lemma fixedDigits_zero radix k : forall acc,
  0 < radix ->
  fixedDigits radix k 0 acc = repeatChar k "0"%char ++ acc.
Proof.
  induction k as [|k IH]; intros acc Hr; simpl.
  - reflexivity.
  - rewrite Z.div_0_l by lia. rewrite Z.mod_0_l by lia.
    rewrite IH by assumption.
    change (digitChar 0) with "0"%char.
    clear IH. induction k as [|k IHk]; simpl.
    + reflexivity.
    + f_equal. exact IHk.
Qed.

(** The loop of [toString] stops at the first quotient that is zero: it
    writes the numeral on some [k] digits, [k] the least that holds [n]. *)
Lemma digitsAux_fixed radix (Hr : 1 < radix) fuel : forall n acc,
  0 <= n < radix ^ Z.of_nat (S fuel) ->
  exists k, (k <= fuel)%nat /\
            digitsAux radix (S fuel) n acc = fixedDigits radix (S k) n acc /\
            n < radix ^ Z.of_nat (S k) /\
            (k = 0%nat \/ radix ^ Z.of_nat k <= n).
Proof.
  induction fuel as [|fuel IH]; intros n acc Hn.
  - exists 0%nat. split; [lia|]. split; [|split; [exact (proj2 Hn)|now left]].
    simpl. destruct (n / radix =? 0); reflexivity.
  - assert (Hstep : digitsAux radix (S (S fuel)) n acc
                    = if n / radix =? 0
                      then String (digitChar (n mod radix)) acc
                      else digitsAux radix (S fuel) (n / radix)
                                     (String (digitChar (n mod radix)) acc))
      by reflexivity.
    rewrite Hstep. clear Hstep.
    destruct (n / radix =? 0) eqn:E.
    + exists 0%nat. split; [lia|]. split; [reflexivity|].
      split; [|now left].
      apply Z.eqb_eq in E.
      apply Z.div_small_iff in E; [|lia].
      change (Z.of_nat 1) with 1. rewrite Z.pow_1_r. lia.
    + apply Z.eqb_neq in E.
      assert (Hq : 0 <= n / radix) by (apply Z.div_pos; lia).
      destruct (IH (n / radix) (String (digitChar (n mod radix)) acc))
        as (k & Hk & Heq & Hlt & Hmin).
      * split; [assumption|].
        apply Z.div_lt_upper_bound; [lia|].
        rewrite <- Z.pow_succ_r by lia.
        rewrite <- Nat2Z.inj_succ. exact (proj2 Hn).
      * pose proof (Z.mul_succ_div_gt n radix ltac:(lia)) as Hup.
        pose proof (Z.mul_div_le n radix ltac:(lia)) as Hlo.
        exists (S k). split; [lia|]. split; [|split].
        -- rewrite Heq. reflexivity.
        -- rewrite (Nat2Z.inj_succ (S k)). rewrite Z.pow_succ_r by lia. nia.
        -- right. rewrite Nat2Z.inj_succ. rewrite Z.pow_succ_r by lia.
           destruct Hmin as [->|Hmin].
           ++ change (Z.of_nat 0) with 0. rewrite Z.pow_0_r. nia.
           ++ nia.
Qed.

Lemma log2_fuel radix n :
  1 < radix -> 0 <= n ->
  n < radix ^ Z.of_nat (S (Z.to_nat (Z.log2 n))).
Proof.
  intros Hr Hn.
  destruct (Z.eq_dec n 0) as [->|Hz].
  - apply Z.pow_pos_nonneg; lia.
  - assert (Hpos : 0 < n) by lia.
    pose proof (Z.log2_spec n Hpos) as [_ Hup].
    pose proof (Z.log2_nonneg n) as Hl.
    rewrite Nat2Z.inj_succ, Z2Nat.id by lia.
    eapply Z.lt_le_trans; [exact Hup|].
    apply Z.pow_le_mono_l. lia.
Qed.

(** A non-negative number below [radix^width], printed and padded to
    [width], is its numeral on exactly [width] digits. *)
Lemma padStart_numberToString radix width n :
  1 < radix -> 0 <= n < radix ^ Z.of_nat width -> (0 < width)%nat ->
  padStart width "0"%char (numberToString radix n)
  = fixedDigits radix width n EmptyString.
Proof.
  intros Hr Hn Hw.
  unfold numberToString.
  replace (n <? 0) with false by (symmetry; apply Z.ltb_ge; lia).
  rewrite Z.abs_eq by lia.
  destruct (digitsAux_fixed radix Hr (Z.to_nat (Z.log2 n)) n EmptyString)
    as (k & _ & Heq & Hlt & Hmin).
  { split; [lia|]. apply log2_fuel; lia. }
  rewrite Heq. clear Heq.
  unfold padStart. rewrite fixedDigits_length. simpl String.length.
  (* the digits above the [S k]-th are zero *)
  assert (Hgen : forall j m acc, 0 <= m < radix ^ Z.of_nat j ->
            forall e, fixedDigits radix (j + e) m acc
                      = repeatChar e "0"%char ++ fixedDigits radix j m acc).
  { induction j as [|j IHj]; intros m acc Hm e.
    - simpl in Hm. assert (m = 0) by lia. subst m.
      simpl. apply fixedDigits_zero. lia.
    - simpl. apply IHj.
      split; [apply Z.div_pos; lia|].
      apply Z.div_lt_upper_bound; [lia|].
      rewrite <- Z.pow_succ_r by lia. rewrite <- Nat2Z.inj_succ. lia. }
  destruct (le_lt_dec width (S k)) as [Hle|Hgt].
  - (* the numeral already fills the width: then it has exactly that size *)
    replace (width - (S k + 0))%nat with 0%nat by lia. simpl repeatChar.
    cbn [append].
    assert (S k = width); [|congruence].
    destruct (Nat.eq_dec (S k) width) as [|Hne]; [assumption|exfalso].
    assert (Hkw : (width <= k)%nat) by lia.
    destruct Hmin as [->|Hmin]; [lia|].
    assert (radix ^ Z.of_nat width <= radix ^ Z.of_nat k)
      by (apply Z.pow_le_mono_r; lia).
    lia.
  - replace width with (S k + (width - (S k + 0)))%nat at 2 by lia.
    rewrite (Hgen (S k) n EmptyString); [reflexivity|lia].
Qed.

Lemma parseDigits_fixedDigits radix k :
  1 < radix <= 36 ->
  forall n acc v,
    parseDigits radix (fixedDigits radix k n acc) v
    = parseDigits radix acc (v * radix ^ Z.of_nat k + n mod radix ^ Z.of_nat k).
Proof.
  intros Hr. induction k as [|k IH]; intros n acc v.
  - simpl. rewrite Z.mod_1_r. f_equal. lia.
  - cbn [fixedDigits]. rewrite IH. cbn [parseDigits].
    assert (Hd : 0 <= n mod radix < radix) by (apply Z.mod_pos_bound; lia).
    rewrite digitVal_digitChar by lia.
    replace (n mod radix <? radix) with true
      by (symmetry; apply Z.ltb_lt; lia).
    f_equal.
    rewrite Nat2Z.inj_succ, Z.pow_succ_r by lia.
    rewrite (Z.rem_mul_r n radix (radix ^ Z.of_nat k)) by lia.
    ring.
Qed.

(* ================================================================= *)
(** ** hash32 *)

Lemma u32_range z : 0 <= u32 z < 2 ^ 32.
Proof. unfold u32. apply Z.mod_pos_bound. reflexivity. Qed.

Lemma u32_small z : 0 <= z < 2 ^ 32 -> u32 z = z.
Proof. intros H. unfold u32. apply Z.mod_small. exact H. Qed.

Lemma hash32_range s : 0 <= hash32 s < 2 ^ 32.
Proof. unfold hash32. apply u32_range. Qed.

Lemma hash32_fold_range l : forall h,
  0 <= h < 2 ^ 32 -> 0 <= fold_left hash32_step l h < 2 ^ 32.
Proof.
  induction l as [|c l IH]; intros h Hh; simpl.
  - exact Hh.
  - apply IH. unfold hash32_step, imul. apply u32_range.
Qed.

Lemma hash32_fold_fnv l : forall h,
  fold_left hash32_step l h
  = fold_left (fun h c => (Z.lxor h c * 16777619) mod 2 ^ 32)
              (map charCodeAt l) h.
Proof.
  induction l as [|c l IH]; intros h; simpl.
  - reflexivity.
  - rewrite IH. reflexivity.
Qed.

Lemma hash32_fnv1a32 s :
  hash32 s = fnv1a32 (map charCodeAt (list_ascii_of_string s)).
Proof.
  unfold hash32, fnv1a32.
  rewrite u32_small by (apply hash32_fold_range; apply u32_range).
  rewrite hash32_fold_fnv. reflexivity.
Qed.

(** The padded hexadecimal rendering of a 32-bit value: eight digits that
    read back as the value. *)
Lemma hex8_fixed n :
  0 <= n < 2 ^ 32 ->
  padStart 8 "0"%char (toString16 n) = fixedDigits 16 8 n EmptyString.
Proof.
  intros Hn. unfold toString16.
  apply padStart_numberToString; [lia| |lia].
  change (16 ^ Z.of_nat 8) with (2 ^ 32). exact Hn.
Qed.

Lemma hexValue_fixed n :
  0 <= n < 2 ^ 32 ->
  hexValue (fixedDigits 16 8 n EmptyString) = Some n.
Proof.
  intros Hn. unfold hexValue.
  rewrite parseDigits_fixedDigits by lia.
  simpl parseDigits. f_equal.
  change (16 ^ Z.of_nat 8) with (2 ^ 32).
  rewrite Z.mod_small by exact Hn. lia.
Qed.

(* ================================================================= *)
(** ** The segment loop *)

Lemma adjacent_length {A} (l : list A) :
  List.length (adjacent l) = (List.length l - 1)%nat.
Proof.
  induction l as [|a [|b r] IH]; simpl in *; try reflexivity.
  rewrite IH. lia.
Qed.

Lemma adjacent_nth {A} (l : list A) : forall i p1 p2,
  nth_error l i = Some p1 -> nth_error l (i + 1) = Some p2 ->
  nth_error (adjacent l) i = Some (p1, p2).
Proof.
  induction l as [|a [|b r] IH]; intros i p1 p2 H1 H2.
  - destruct i; discriminate.
  - destruct i as [|[|i]]; simpl in *; discriminate.
  - destruct i as [|i].
    + simpl in *. congruence.
    + cbn [adjacent nth_error]. apply IH; assumption.
Qed.

Lemma segmentBody_step colorOf pts uda ucr i segs rng p1 p2 :
  nth_error pts i = Some p1 ->
  nth_error pts (i + 1) = Some p2 ->
  exists s,
    segmentBody colorOf pts uda ucr i (segs, rng)
    = Ok (push segs s, if uda then snd (rngNext rng) else rng)
    /\ RenderSeg.feat s = featAt p1 p2.
Proof.
  intros H1 H2. unfold segmentBody.
  rewrite H1, H2. cbn [deref bind].
  assert (H0 : exists p0,
             (if 0 <=? Z.of_nat i - 1 then nth_error pts (i - 1) else Some p1)
             = Some p0).
  { destruct (0 <=? Z.of_nat i - 1) eqn:E; [|eauto].
    apply Z.leb_le in E.
    destruct (nth_error pts (i - 1)) eqn:E1; [eauto|].
    apply nth_error_None in E1.
    assert (nth_error pts i <> None) by congruence.
    apply nth_error_Some in H. lia. }
  assert (H3 : exists p3,
             (if (i + 2 <? List.length pts)%nat
              then nth_error pts (i + 2) else Some p2) = Some p3).
  { destruct (i + 2 <? List.length pts)%nat eqn:E; [|eauto].
    apply Nat.ltb_lt in E.
    destruct (nth_error pts (i + 2)) eqn:E1; [eauto|].
    apply nth_error_None in E1. lia. }
  destruct H0 as [p0 ->]. destruct H3 as [p3 ->].
  unfold dashForPair. cbn [rngNext].
  destruct uda, ucr; cbn [negb deref bind fst snd]; eexists; split;
    try reflexivity; reflexivity.
Qed.

(** The loop run from index [i] for [n] turns appends the features of the
    [n] consecutive pairs starting at [i], whatever the colour function and
    the curve mode. *)
Lemma forLoop_segments colorOf pts uda ucr n : forall i segs rng,
  (i + n + 1 <= List.length pts)%nat ->
  exists segs' rng',
    forLoop (segmentBody colorOf pts uda ucr) i n (segs, rng)
    = Ok (segs', rng')
    /\ map RenderSeg.feat segs'
       = (map RenderSeg.feat segs
            ++ firstn n (skipn i (featsOf pts)))%list.
Proof.
  induction n as [|n IH]; intros i segs rng Hlen.
  - exists segs, rng. split; [reflexivity|].
    simpl. now rewrite app_nil_r.
  - destruct (nth_error pts i) as [p1|] eqn:E1;
      [|apply nth_error_None in E1; lia].
    destruct (nth_error pts (i + 1)) as [p2|] eqn:E2;
      [|apply nth_error_None in E2; lia].
    destruct (segmentBody_step colorOf pts uda ucr i segs rng p1 p2 E1 E2)
      as (s & Hs & Hf).
    cbn [forLoop]. rewrite Hs. cbn [bind].
    destruct (IH (S i) (push segs s) (if uda then snd (rngNext rng) else rng))
      as (segs' & rng' & Hloop & Hmap); [lia|].
    exists segs', rng'. split; [exact Hloop|].
    rewrite Hmap. unfold push. rewrite map_app. cbn [map].
    rewrite Hf. rewrite <- app_assoc. f_equal.
    assert (Hn : nth_error (featsOf pts) i = Some (featAt p1 p2)).
    { unfold featsOf. rewrite nth_error_map.
      rewrite (adjacent_nth pts i p1 p2 E1 E2). reflexivity. }
    clear - Hn. revert i Hn.
    induction (featsOf pts) as [|f l IHl]; intros i Hn.
    + destruct i; discriminate.
    + destruct i as [|i].
      * simpl in Hn. injection Hn as ->. reflexivity.
      * simpl in Hn. simpl skipn. apply IHl. exact Hn.
Qed.

Lemma featsOf_length pts :
  List.length (featsOf pts) = (List.length pts - 1)%nat.
Proof. unfold featsOf. rewrite length_map. apply adjacent_length. Qed.

(** [segments] never throws, and the features it carries are those of the
    consecutive pairs of resolved points. *)
Lemma segmentsWith_feats colorOf l name uda ucr :
  exists segs,
    segmentsWith colorOf l name uda ucr = Ok segs
    /\ map RenderSeg.feat segs = featsOf (resolve l name).
Proof.
  unfold segmentsWith.
  destruct name as [|c name].
  - exists []. split; reflexivity.
  - set (nm := String c name).
    set (pts := resolve l nm).
    destruct (List.length pts <? 2)%nat eqn:E.
    + exists []. split; [reflexivity|].
      apply Nat.ltb_lt in E.
      pose proof (featsOf_length pts) as Hl.
      destruct (featsOf pts); [reflexivity|simpl in Hl; lia].
    + apply Nat.ltb_ge in E.
      destruct (forLoop_segments colorOf pts uda ucr (List.length pts - 1) 0 []
                  (makeRng ("key-sign:" ++ nm ++ ":" ++ layoutId l)))
        as (segs & rng' & Hloop & Hmap); [lia|].
      rewrite Hloop. cbn [bind fst].
      exists segs. split; [reflexivity|].
      rewrite Hmap. cbn [map app skipn].
      rewrite <- (featsOf_length pts). apply firstn_all.
Qed.

(** The [codec] memo in closed form. *)
Lemma codecWith_closed colorOf l name uda ucr :
  codecWith colorOf l name uda ucr
  = Ok (if (String.length name =? 0)%nat
              || (List.length (featsOf (resolve l name)) =? 0)%nat
        then None
        else Some (buildCodec name l uda (featsOf (resolve l name)))).
Proof.
  unfold codecWith.
  destruct (segmentsWith_feats colorOf l name uda ucr) as (segs & -> & Hf).
  cbn [bind]. rewrite <- Hf.
  destruct name as [|c name]; [reflexivity|].
  destruct segs; reflexivity.
Qed.

Lemma resolve_chars l name :
  map Pt.ch (resolve l name) = filter (resolves l) (split name).
Proof.
  unfold resolve. induction (split name) as [|ch r IH]; [reflexivity|].
  cbn [map filterBoolean filter]. unfold resolves at 1.
  destruct (getKeyCenter l ch) as [p|] eqn:E; [|exact IH].
  cbn [map]. rewrite IH. f_equal.
  unfold getKeyCenter in E. destruct ch; [discriminate|].
  destruct (lookup _ _); [|discriminate].
  injection E as <-. reflexivity.
Qed.

Lemma resolve_length l name :
  List.length (resolve l name)
  = List.length (filter (resolves l) (split name)).
Proof. rewrite <- resolve_chars. now rewrite length_map. Qed.

Lemma featsOf_chars pts :
  map (fun f => (CodecSeg.a f, CodecSeg.b f)) (featsOf pts)
  = adjacent (map Pt.ch pts).
Proof.
  unfold featsOf.
  induction pts as [|p [|q r] IH]; try reflexivity.
  cbn [adjacent map] in *. rewrite IH. reflexivity.
Qed.

(* ================================================================= *)
(** ** The pipeline: segments and codec *)

(** C1. The codec is the same in straight and in Catmull-Rom mode and
    whatever function colours the segments: the codec and the features
    [{a, b, cls, dir, lb}] of the segments are determined by the name, the
    layout and the dash mode; the fields [v] and [color] of the record are
    the fixed tags, and no path data or colour string enters it. *)
Theorem codec_styling_independent
        (l : KeyboardLayout) (name : string) (useDashAlphabet : bool) :
  codec l name useDashAlphabet false = codec l name useDashAlphabet true
  /\ (forall colorA colorB curveA curveB,
         codecWith colorA l name useDashAlphabet curveA
         = codecWith colorB l name useDashAlphabet curveB)
  /\ (forall colorA colorB curveA curveB dashA dashB,
         exists segsA segsB,
           segmentsWith colorA l name dashA curveA = Ok segsA
           /\ segmentsWith colorB l name dashB curveB = Ok segsB
           /\ map RenderSeg.feat segsA = map RenderSeg.feat segsB)
  /\ (forall colorOf curve,
         codecWith colorOf l name useDashAlphabet curve = Ok None
         \/ codecWith colorOf l name useDashAlphabet curve
            = Ok (Some (Codec.mk ks1 l
                          (if useDashAlphabet then abc else legacy)
                          bigram_hsl_v1
                          (Z.of_nat (String.length name))
                          (padStart 8 "0"%char
                             (toString16
                                (hash32 (layoutId l ++ "|"
                                                   ++ toLowerCase name))))
                          (featsOf (resolve l name))))).
Proof.
  split; [|split; [|split]].
  - unfold codec. now rewrite !codecWith_closed.
  - intros. now rewrite !codecWith_closed.
  - intros.
    destruct (segmentsWith_feats colorA l name dashA curveA) as (sA & HA & FA).
    destruct (segmentsWith_feats colorB l name dashB curveB) as (sB & HB & FB).
    exists sA, sB. repeat split; try assumption. congruence.
  - intros. rewrite codecWith_closed.
    destruct (_ || _); [now left|now right].
Qed.

(** C6. With [k] the number of characters of the name that resolve to a
    key: for [k >= 2] the segment list has [k - 1] segments, one per pair of
    consecutive resolved characters (the characters that do not resolve
    are skipped), and a codec is built on them; for [k < 2] the list is
    empty and the codec is [null]. No call throws. *)
Theorem segments_count
        (l : KeyboardLayout) (name : string) (useDashAlphabet useCatmullRom : bool) :
  let chars := filter (resolves l) (split name) in
  let k := List.length chars in
  List.length (resolve l name) = k
  /\ (exists segs,
         segments l name useDashAlphabet useCatmullRom = Ok segs
         /\ map (fun s => (CodecSeg.a (RenderSeg.feat s),
                           CodecSeg.b (RenderSeg.feat s))) segs
            = adjacent chars)
  /\ ((2 <= k)%nat ->
      exists segs c,
        segments l name useDashAlphabet useCatmullRom = Ok segs
        /\ List.length segs = (k - 1)%nat
        /\ codec l name useDashAlphabet useCatmullRom = Ok (Some c)
        /\ Codec.seg c = map RenderSeg.feat segs)
  /\ ((k < 2)%nat ->
      segments l name useDashAlphabet useCatmullRom = Ok []
      /\ codec l name useDashAlphabet useCatmullRom = Ok None).
Proof.
  intros chars k.
  assert (Hk : List.length (resolve l name) = k).
  { unfold k, chars. rewrite <- resolve_chars. now rewrite length_map. }
  destruct (segmentsWith_feats colorForPair l name useDashAlphabet useCatmullRom)
    as (segs & Hs & Hf).
  change (segments l name useDashAlphabet useCatmullRom = Ok segs) in Hs.
  assert (Hlen : List.length segs = (k - 1)%nat).
  { rewrite <- (length_map RenderSeg.feat), Hf, featsOf_length. now rewrite Hk. }
  split; [exact Hk|]. split; [|split].
  - exists segs. split; [exact Hs|].
    rewrite <- (map_map RenderSeg.feat
                  (fun f => (CodecSeg.a f, CodecSeg.b f))).
    rewrite Hf, featsOf_chars. unfold chars. now rewrite resolve_chars.
  - intros H2. exists segs.
    eexists. split; [exact Hs|]. split; [exact Hlen|].
    unfold codec. rewrite codecWith_closed.
    rewrite featsOf_length, Hk.
    destruct name as [|c name]; [simpl in *; lia|].
    replace (k - 1 =? 0)%nat with false by (symmetry; apply Nat.eqb_neq; lia).
    cbn [String.length Nat.eqb orb]. split; [reflexivity|].
    cbn [buildCodec Codec.seg]. now rewrite Hf.
  - intros H2. split.
    + rewrite Hs. f_equal.
      destruct segs; [reflexivity|simpl in Hlen; lia].
    + unfold codec. rewrite codecWith_closed.
      rewrite featsOf_length, Hk.
      replace (k - 1 =? 0)%nat with true by (symmetry; apply Nat.eqb_eq; lia).
      now rewrite orb_true_r.
Qed.

Lemma segments_count_witness :
  exists segs c,
    segments qwerty "Ab_3" true true = Ok segs
    /\ List.length segs = 3%nat
    /\ codec qwerty "Ab_3" true true = Ok (Some c)
    /\ Codec.seg c = map RenderSeg.feat segs.
Proof.
  destruct (segments_count qwerty "Ab_3" true true) as (_ & _ & H & _).
  apply H. vm_compute. lia.
Defined.

(** C2. [buildCodec] sets [hash] to the 32-bit FNV-1a hash of the layout
    id, a bar and the lower-cased name, written on exactly eight lower-case
    hexadecimal digits (zero padded, so that the digits read back as the
    hash), and [len] to the number of characters of the name as typed, not
    to the number of resolved points; the codec of the pipeline carries
    these two fields. For [Ab_3] on qwerty the hash is that of
    [qwerty|ab_3]. *)
Theorem buildCodec_hash_len
        (name : string) (l : KeyboardLayout) (useDashAlphabet : bool)
        (segs : list CodecSeg.t) :
  let c := buildCodec name l useDashAlphabet segs in
  let text := layoutId l ++ "|" ++ toLowerCase name in
  let h := fnv1a32 (map charCodeAt (list_ascii_of_string text)) in
  hash32 text = h
  /\ Codec.hash c = padStart 8 "0"%char (toString16 h)
  /\ Codec.hash c = fixedDigits 16 8 h EmptyString
  /\ String.length (Codec.hash c) = 8%nat
  /\ hexValue (Codec.hash c) = Some h
  /\ Codec.len c = Z.of_nat (String.length name)
  /\ (forall curve c',
         codec l name useDashAlphabet curve = Ok (Some c') ->
         Codec.hash c' = Codec.hash c /\ Codec.len c' = Codec.len c)
  /\ Codec.hash (buildCodec "Ab_3" qwerty useDashAlphabet segs)
     = padStart 8 "0"%char (toString16 (hash32 "qwerty|ab_3"))
  /\ Codec.hash (buildCodec "Ab_3" qwerty useDashAlphabet segs) = "d03d7372"
  /\ (exists c',
         codec qwerty "a-b" useDashAlphabet false = Ok (Some c')
         /\ Codec.len c' = 3
         /\ List.length (resolve qwerty "a-b") = 2%nat).
Proof.
  intros c text h.
  assert (Hh : hash32 text = h) by apply hash32_fnv1a32.
  assert (Hr : 0 <= h < 2 ^ 32) by (rewrite <- Hh; apply hash32_range).
  assert (Hc : Codec.hash c = padStart 8 "0"%char (toString16 h)).
  { unfold c, buildCodec. cbn [Codec.hash]. fold text. now rewrite Hh. }
  assert (Hf : Codec.hash c = fixedDigits 16 8 h EmptyString)
    by (rewrite Hc; now apply hex8_fixed).
  repeat split.
  - exact Hh.
  - exact Hc.
  - exact Hf.
  - rewrite Hf. now rewrite fixedDigits_length.
  - rewrite Hf. now apply hexValue_fixed.
  - unfold codec in H. rewrite codecWith_closed in H.
    destruct (_ || _); [discriminate|].
    injection H as <-. reflexivity.
  - unfold codec in H. rewrite codecWith_closed in H.
    destruct (_ || _); [discriminate|].
    injection H as <-. reflexivity.
  - unfold codec. rewrite codecWith_closed.
    assert (E : List.length (featsOf (resolve qwerty "a-b")) = 1%nat)
      by (rewrite featsOf_length, resolve_length; vm_compute; reflexivity).
    rewrite E. cbn [String.length Nat.eqb orb].
    eexists. split; [reflexivity|]. split; [reflexivity|].
    rewrite resolve_length. vm_compute. reflexivity.
Qed.

Lemma buildCodec_hash_len_witness :
  exists c',
    codec qwerty "Ab_3" true false = Ok (Some c')
    /\ Codec.hash c' = "d03d7372" /\ Codec.len c' = 4.
Proof.
  assert (E : codec qwerty "Ab_3" true false
              = Ok (Some (buildCodec "Ab_3" qwerty true
                            (featsOf (resolve qwerty "Ab_3"))))).
  { unfold codec. rewrite codecWith_closed.
    rewrite featsOf_length, resolve_length. reflexivity. }
  eexists. split; [exact E|].
  destruct (buildCodec_hash_len "Ab_3" qwerty true [])
    as (_ & _ & _ & _ & _ & _ & H & _ & H' & _).
  destruct (H false _ E) as [H1 H2].
  rewrite H1, H2. split; [exact H'|reflexivity].
Defined.

(* ================================================================= *)
(** ** The classifier *)

Lemma inb_In c s : inb c s = true <-> In c (list_ascii_of_string s).
Proof.
  unfold inb. rewrite existsb_exists. split.
  - intros (x & Hx & E). apply Ascii.eqb_eq in E. now subst.
  - intros H. exists c. split; [exact H|apply Ascii.eqb_refl].
Qed.

Lemma isNumOrUnd_spec a :
  isNumOrUnd (str1 a) = true <-> digitOrUnderscore a.
Proof.
  unfold digitOrUnderscore. rewrite <- inb_In.
  replace (isNumOrUnd (str1 a)) with (inb a "0123456789_");
    [reflexivity|each_char a].
Qed.

Lemma isUpper_spec a : isUpper (str1 a) = true <-> upperCase a.
Proof.
  unfold upperCase. rewrite <- inb_In.
  replace (isUpper (str1 a)) with (inb a "ABCDEFGHIJKLMNOPQRSTUVWXYZ");
    [reflexivity|each_char a].
Qed.

Lemma isLower_spec a : isLower (str1 a) = true <-> lowerCase a.
Proof.
  unfold lowerCase. rewrite <- inb_In.
  replace (isLower (str1 a)) with (inb a "abcdefghijklmnopqrstuvwxyz");
    [reflexivity|each_char a].
Qed.

Lemma upper_lower_disjoint a :
  isUpper (str1 a) && isLower (str1 a) = false.
Proof. each_char a. Qed.

(** C3. [classifyPair] on two characters follows the five rules in order:
    NUM when either is a digit or the underscore; otherwise UU when both
    are capitals, LL when both are small letters, UL for a capital then a
    small letter, and LU in the case that remains. It is a function (the
    same class for the same pair), defined on every pair. *)
Theorem classifyPair_rules (a b : ascii) :
  let k := classifyPair (str1 a) (str1 b) in
  (digitOrUnderscore a \/ digitOrUnderscore b -> k = NUM)
  /\ (~ digitOrUnderscore a -> ~ digitOrUnderscore b ->
      (upperCase a /\ upperCase b -> k = UU)
      /\ (lowerCase a /\ lowerCase b -> k = LL)
      /\ (upperCase a /\ lowerCase b -> k = UL)
      /\ (~ (upperCase a /\ upperCase b) ->
          ~ (lowerCase a /\ lowerCase b) ->
          ~ (upperCase a /\ lowerCase b) -> k = LU))
  /\ classifyPair "A" "A" = UU
  /\ classifyPair "a" "a" = LL
  /\ classifyPair "A" "a" = UL
  /\ classifyPair "a" "A" = LU
  /\ classifyPair "1" "A" = NUM
  /\ classifyPair "_" "b" = NUM.
Proof.
  intros k. unfold k, classifyPair.
  rewrite <- !isNumOrUnd_spec, <- !isUpper_spec, <- !isLower_spec.
  pose proof (upper_lower_disjoint a) as Da.
  pose proof (upper_lower_disjoint b) as Db.
  destruct (isNumOrUnd (str1 a)), (isNumOrUnd (str1 b)),
    (isUpper (str1 a)), (isUpper (str1 b)),
    (isLower (str1 a)), (isLower (str1 b)); cbn [orb andb];
    try discriminate Da; try discriminate Db;
    repeat split; intros; try reflexivity; try tauto;
    try (exfalso; intuition congruence).
Qed.

Lemma classifyPair_rules_witness :
  classifyPair "q" "W" = LU /\ classifyPair "7" "z" = NUM.
Proof.
  split.
  - destruct (classifyPair_rules "q" "W") as (_ & H & _).
    apply H.
    + rewrite <- isNumOrUnd_spec. vm_compute. discriminate.
    + rewrite <- isNumOrUnd_spec. vm_compute. discriminate.
    + rewrite <- !isUpper_spec. vm_compute. intuition discriminate.
    + rewrite <- !isLower_spec. vm_compute. intuition discriminate.
    + rewrite <- isUpper_spec, <- isLower_spec. vm_compute.
      intuition discriminate.
  - destruct (classifyPair_rules "7" "z") as (H & _).
    apply H. left.
    rewrite <- isNumOrUnd_spec. reflexivity.
Defined.

(* ================================================================= *)
(** ** Length bins *)

(** C7. [lengthBin] is 0 below 40, 1 from 40 and below 80, 2 from 80 and
    below 120, and 3 from 120 on; the six boundary lengths fall in the bins
    0, 1, 1, 2, 2, 3. *)
Theorem lengthBin_bins (len : R) :
  ((len < 40)%R -> lengthBin len = 0)
  /\ ((40 <= len < 80)%R -> lengthBin len = 1)
  /\ ((80 <= len < 120)%R -> lengthBin len = 2)
  /\ ((120 <= len)%R -> lengthBin len = 3)
  /\ lengthBin 39.9 = 0
  /\ lengthBin 40 = 1
  /\ lengthBin 79.9 = 1
  /\ lengthBin 80 = 2
  /\ lengthBin 119.9 = 2
  /\ lengthBin 120 = 3.
Proof.
  unfold lengthBin.
  repeat split; intros;
    repeat (match goal with
            | |- context [Rlt_dec ?a ?b] => destruct (Rlt_dec a b)
            end); try reflexivity; exfalso; lra.
Qed.

Lemma lengthBin_bins_witness :
  lengthBin 15 = 0 /\ lengthBin 60 = 1 /\ lengthBin 100 = 2
  /\ lengthBin 600 = 3.
Proof.
  repeat split.
  - apply (proj1 (lengthBin_bins 15)). lra.
  - apply (proj1 (proj2 (lengthBin_bins 60))). lra.
  - apply (proj1 (proj2 (proj2 (lengthBin_bins 100)))). lra.
  - apply (proj1 (proj2 (proj2 (proj2 (lengthBin_bins 600))))). lra.
Defined.

(* ================================================================= *)
(** ** The dash alphabet *)

Lemma DASH_ALPHABET_size k :
  List.length (DASH_ALPHABET k) = 1%nat \/ List.length (DASH_ALPHABET k) = 2%nat.
Proof. destruct k; simpl; auto. Qed.

Lemma dashIndex_bounds (draw : Q) (n : Z) :
  0 < n -> (0 <= draw)%Q -> (draw <= 1)%Q ->
  0 <= dashIndex draw n < n.
Proof.
  intros Hn H0 H1. unfold dashIndex.
  assert (Hq : (0 <= draw * inject_Z n)%Q).
  { apply Qmult_le_0_compat; [exact H0|].
    change 0%Q with (inject_Z 0). rewrite <- Zle_Qle. lia. }
  pose proof (Qfloor_resp_le _ _ Hq) as Hlo.
  change (Qfloor 0) with 0 in Hlo.
  apply Z.rem_bound_pos; lia.
Qed.

(** C10. For a draw in the closed interval from 0 to 1, the value 1
    included, the index [floor(draw * n) % n] is below the number [n] of
    choices of the class: [dashForPair] returns a member of the list of the
    class, the one at that index, and never [undefined]. *)
Theorem dashForPair_in_bounds
        {St : Type} (a b : string) (rng : St -> Q * St) (st : St) :
  let draw := fst (rng st) in
  let choices := DASH_ALPHABET (classifyPair a b) in
  let n := Z.of_nat (List.length choices) in
  (0 <= draw)%Q -> (draw <= 1)%Q ->
  0 <= dashIndex draw n < n
  /\ ((draw == 1)%Q -> dashIndex draw n = 0)
  /\ exists d,
       fst (dashForPair a b rng st) = Some d
       /\ nth_error choices (Z.to_nat (dashIndex draw n)) = Some d
       /\ In d choices.
Proof.
  intros draw choices n H0 H1.
  assert (Hn : 0 < n).
  { unfold n, choices.
    destruct (DASH_ALPHABET_size (classifyPair a b)) as [-> | ->]; lia. }
  pose proof (dashIndex_bounds draw n Hn H0 H1) as Hb.
  split; [exact Hb|]. split.
  - intros E. unfold dashIndex. rewrite E.
    rewrite Qmult_1_l, Qfloor_Z. apply Z.rem_same. lia.
  - destruct (nth_error choices (Z.to_nat (dashIndex draw n))) as [d|] eqn:E.
    + exists d. split; [|split; [reflexivity|]].
      * unfold dashForPair. fold choices. fold n.
        unfold draw in *. destruct (rng st) as [dr st']. cbn [fst] in *.
        unfold elemAt.
        replace (dashIndex dr n <? 0) with false
          by (symmetry; apply Z.ltb_ge; lia).
        exact E.
      * eapply nth_error_In. exact E.
    + apply nth_error_None in E. unfold n in *. lia.
Qed.

Lemma dashForPair_in_bounds_witness :
  exists d,
    fst (dashForPair "a" "B" (fun s : unit => (1%Q, s)) tt) = Some d
    /\ In d (DASH_ALPHABET LU).
Proof.
  destruct (dashForPair_in_bounds "a" "B" (fun s : unit => (1%Q, s)) tt)
    as (_ & _ & d & Hd & _ & Hin).
  - vm_compute. discriminate.
  - vm_compute. discriminate.
  - exists d. split; [exact Hd|exact Hin].
Defined.

(* ================================================================= *)
(** ** The seeded stream *)

Lemma lxor_range a b :
  0 <= a < 2 ^ 32 -> 0 <= b < 2 ^ 32 -> 0 <= Z.lxor a b < 2 ^ 32.
Proof.
  intros Ha Hb.
  assert (H0 : 0 <= Z.lxor a b) by (apply Z.lxor_nonneg; lia).
  split; [exact H0|].
  destruct (Z.eq_dec (Z.lxor a b) 0) as [->|Hz]; [reflexivity|].
  apply Z.log2_lt_pow2; [lia|].
  pose proof (Z.log2_lxor a b ltac:(lia) ltac:(lia)) as Hl.
  assert (La : Z.log2 a < 32).
  { destruct (Z.eq_dec a 0) as [->|]; [reflexivity|].
    apply Z.log2_lt_pow2; lia. }
  assert (Lb : Z.log2 b < 32).
  { destruct (Z.eq_dec b 0) as [->|]; [reflexivity|].
    apply Z.log2_lt_pow2; lia. }
  lia.
Qed.

Lemma shiftr_range a k :
  0 <= a < 2 ^ 32 -> 0 <= k -> 0 <= Z.shiftr a k < 2 ^ 32.
Proof.
  intros Ha Hk. rewrite Z.shiftr_div_pow2 by exact Hk.
  assert (0 < 2 ^ k) by (apply Z.pow_pos_nonneg; lia).
  split; [apply Z.div_pos; lia|].
  apply Z.le_lt_trans with a; [|lia].
  apply Z.div_le_upper_bound; [lia|]. nia.
Qed.

Lemma xorshift_range x : 0 <= x < 2 ^ 32 -> 0 <= xorshift x < 2 ^ 32.
Proof.
  intros Hx. unfold xorshift.
  repeat first [apply lxor_range | apply u32_range
                | apply shiftr_range; [|lia] | exact Hx].
Qed.

Lemma xorshift_xorshift32 x : xorshift x = xorshift32 x.
Proof.
  unfold xorshift, xorshift32, u32.
  rewrite !Z.shiftl_mul_pow2, !Z.shiftr_div_pow2 by lia. reflexivity.
Qed.

(** A left-shift update keeps a non-zero state non-zero: [x = (x << k)]
    modulo [2^32] would make [2^32] divide [x * (2^k - 1)], an odd multiple
    of [x]. *)
Lemma lxor_shiftl_nonzero x k :
  0 < k < 32 -> Z.gcd (2 ^ 32) (2 ^ k - 1) = 1 ->
  0 < x < 2 ^ 32 -> Z.lxor x (u32 (Z.shiftl x k)) <> 0.
Proof.
  intros Hk Hg Hx E. apply Z.lxor_eq in E.
  unfold u32 in E. rewrite Z.shiftl_mul_pow2 in E by lia.
  assert (Hdiv : (2 ^ 32 | (2 ^ k - 1) * x)).
  { exists (x * 2 ^ k / 2 ^ 32).
    pose proof (Z.div_mod (x * 2 ^ k) (2 ^ 32) ltac:(lia)) as Hdm.
    rewrite <- E in Hdm. lia. }
  apply Z.gauss in Hdiv; [|exact Hg].
  destruct Hdiv as [q Hq]. nia.
Qed.

Lemma lxor_shiftr_nonzero x k :
  0 < k -> 0 < x -> Z.lxor x (Z.shiftr x k) <> 0.
Proof.
  intros Hk Hx E. apply Z.lxor_eq in E.
  rewrite Z.shiftr_div_pow2 in E by lia.
  assert (2 <= 2 ^ k).
  { change 2 with (2 ^ 1) at 1. apply Z.pow_le_mono_r; lia. }
  assert (x / 2 ^ k < x) by (apply Z.div_lt; lia).
  lia.
Qed.

Lemma xorshift_nonzero x : 0 < x < 2 ^ 32 -> 0 < xorshift x < 2 ^ 32.
Proof.
  intros Hx.
  pose proof (xorshift_range x ltac:(lia)) as Hr.
  enough (xorshift x <> 0) by lia.
  unfold xorshift.
  set (x1 := Z.lxor x (u32 (Z.shiftl x 13))).
  assert (H1 : 0 < x1 < 2 ^ 32).
  { assert (x1 <> 0) by (apply lxor_shiftl_nonzero; [lia|reflexivity|lia]).
    assert (0 <= x1 < 2 ^ 32)
      by (apply lxor_range; [lia|apply u32_range]).
    lia. }
  set (x2 := Z.lxor x1 (Z.shiftr x1 17)).
  assert (H2 : 0 < x2 < 2 ^ 32).
  { assert (x2 <> 0) by (apply lxor_shiftr_nonzero; lia).
    assert (0 <= x2 < 2 ^ 32)
      by (apply lxor_range; [lia|apply shiftr_range; lia]).
    lia. }
  apply lxor_shiftl_nonzero; [lia|reflexivity|lia].
Qed.

Lemma makeRng_range seedStr : 0 < makeRng seedStr < 2 ^ 32.
Proof.
  unfold makeRng. pose proof (hash32_range seedStr) as Hr.
  destruct (hash32 seedStr =? 0) eqn:E.
  - vm_compute. split; reflexivity.
  - apply Z.eqb_neq in E. rewrite u32_small by lia. lia.
Qed.

Lemma rngState_range n : forall x,
  0 < x < 2 ^ 32 -> 0 < rngState n x < 2 ^ 32.
Proof.
  induction n as [|n IH]; intros x Hx; simpl.
  - exact Hx.
  - apply IH. apply xorshift_nonzero. exact Hx.
Qed.

Lemma rngNth_rngState n : forall x,
  rngNth n x = fst (rngNext (rngState n x)).
Proof.
  induction n as [|n IH]; intros x; simpl; [reflexivity|apply IH].
Qed.

(** C5, as the code has it. The stream of a seed starts from the 32-bit
    FNV-1a hash of the seed, or from 1 when the hash is 0; each call
    replaces the state [x] by its xorshift (left 13, right 17, left 5, on
    32 bits) and returns the new state divided by [0xffffffff]. The state
    is never 0, and every value lies between 0 and 1, the bound 1
    included. *)
Theorem makeRng_stream (seedStr : string) (n : nat) :
  let h := fnv1a32 (map charCodeAt (list_ascii_of_string seedStr)) in
  let x := rngState n (makeRng seedStr) in
  let v := rngNth n (makeRng seedStr) in
  makeRng seedStr = (if h =? 0 then 1 else h)
  /\ 0 < x < 2 ^ 32
  /\ rngState (S n) (makeRng seedStr) = xorshift32 x
  /\ v = Qmake (xorshift32 x) (Z.to_pos (2 ^ 32 - 1))
  /\ (0 <= v)%Q /\ (v <= 1)%Q
  /\ (0 < v)%Q.
Proof.
  intros h x v.
  pose proof (makeRng_range seedStr) as H0.
  pose proof (rngState_range n _ H0) as Hx. fold x in Hx.
  pose proof (xorshift_nonzero x Hx) as Hx'.
  assert (Hv : v = Qmake (xorshift32 x) (Z.to_pos (2 ^ 32 - 1))).
  { unfold v. rewrite rngNth_rngState. fold x. unfold rngNext. cbn [fst].
    rewrite u32_small by lia. now rewrite xorshift_xorshift32. }
  rewrite <- xorshift_xorshift32 in Hv.
  split; [|split; [exact Hx|split; [|split]]].
  - unfold makeRng, h. rewrite <- hash32_fnv1a32.
    pose proof (hash32_range seedStr).
    destruct (hash32 seedStr =? 0); [reflexivity|]. apply u32_small. lia.
  - rewrite <- xorshift_xorshift32.
    clear. unfold x. generalize (makeRng seedStr).
    induction n as [|n IH]; intros y; [reflexivity|].
    change (rngState (S (S n)) y) with (rngState (S n) (snd (rngNext y))).
    rewrite IH. reflexivity.
  - rewrite <- xorshift_xorshift32. exact Hv.
  - rewrite Hv. unfold Qle, Qlt. cbn [Qnum Qden].
    change (Z.pos (Z.to_pos (2 ^ 32 - 1))) with (2 ^ 32 - 1).
    change (2 ^ 32) with 4294967296 in *. lia.
Qed.

(** C5 as stated fails: on the seed of the name [hiiccrzu] the first value
    is exactly 1, which is not below 1. *)
Lemma makeRng_reaches_one :
  (rngNth 0 (makeRng "key-sign:hiiccrzu:qwerty") == 1)%Q
  /\ ~ (0 <= rngNth 0 (makeRng "key-sign:hiiccrzu:qwerty")
        /\ rngNth 0 (makeRng "key-sign:hiiccrzu:qwerty") < 1)%Q.
Proof.
  split.
  - vm_compute. reflexivity.
  - intros [_ H]. vm_compute in H. discriminate.
Qed.

(* ================================================================= *)
(** ** Directions *)

Open Scope R_scope.

Lemma jsRound_IZR (k : Z) : jsRound (IZR k) = k.
Proof. unfold jsRound. apply Zfloor_eq. lra. Qed.

(** [Math.round] gives the nearest integer, a tie going up. *)
Lemma jsRound_nearest (v : R) :
  IZR (jsRound v) - / 2 <= v < IZR (jsRound v) + / 2.
Proof.
  unfold jsRound. pose proof (Zfloor_bound (v + / 2)). lra.
Qed.

Lemma atan2_range (y x : R) : - PI < atan2 y x <= PI.
Proof.
  pose proof PI_RGT_0 as Hpi. unfold atan2.
  destruct (Rlt_dec 0 x) as [Hx|Hx].
  - pose proof (atan_bound (y / x)). lra.
  - destruct (Rlt_dec x 0) as [Hx'|Hx'].
    + pose proof (atan_bound (y / x)) as Hb.
      destruct (Rle_dec 0 y) as [Hy|Hy].
      * assert (y / x <= 0).
        { unfold Rdiv. pose proof (Rinv_lt_0_compat x Hx'). nra. }
        assert (atan (y / x) <= 0).
        { destruct (Req_dec (y / x) 0) as [->|].
          - rewrite atan_0. lra.
          - rewrite <- atan_0. left. apply atan_increasing. lra. }
        lra.
      * assert (0 < y / x).
        { unfold Rdiv. pose proof (Rinv_lt_0_compat x Hx'). nra. }
        assert (0 < atan (y / x)).
        { rewrite <- atan_0. now apply atan_increasing. }
        lra.
    + destruct (Rlt_dec 0 y); [lra|].
      destruct (Rlt_dec y 0); lra.
Qed.

Lemma direction8_round (dx dy : R) :
  let r := jsRound (atan2 dy dx / (PI / 4)) in
  (-4 <= r <= 4)%Z /\ direction8 dx dy = (r mod 8)%Z.
Proof.
  intros r. pose proof PI_RGT_0 as Hpi.
  pose proof (atan2_range dy dx) as Ht.
  assert (Hq : -4 < atan2 dy dx / (PI / 4) <= 4).
  { set (q := atan2 dy dx / (PI / 4)).
    assert (Eq : atan2 dy dx = q * (PI / 4)) by (unfold q; field; lra).
    rewrite Eq in Ht. split.
    - apply Rmult_lt_reg_r with (PI / 4); lra.
    - apply Rmult_le_reg_r with (PI / 4); lra. }
  pose proof (jsRound_nearest (atan2 dy dx / (PI / 4))) as Hn. fold r in Hn.
  assert (Hr : (-4 <= r <= 4)%Z).
  { split.
    - apply le_IZR. 
      assert (IZR (-5) < IZR r) by lra.
      apply lt_IZR in H. apply IZR_le. lia.
    - assert (IZR r < IZR 5) by lra.
      apply lt_IZR in H. lia. }
  split; [exact Hr|].
  unfold direction8. fold r.
  rewrite Z.rem_mod_nonneg by lia.
  rewrite <- (Z.mod_add r 1 8) by lia. reflexivity.
Qed.

Lemma direction8_axes :
  (forall dx, 0 < dx -> direction8 dx 0 = 0%Z)
  /\ (forall dy, 0 < dy -> direction8 0 dy = 2%Z)
  /\ (forall dx, dx < 0 -> direction8 dx 0 = 4%Z)
  /\ (forall dy, dy < 0 -> direction8 0 dy = 6%Z).
Proof.
  pose proof PI_RGT_0 as Hpi.
  assert (E0 : 0 / (PI / 4) = IZR 0) by (field; lra).
  assert (E2 : PI / 2 / (PI / 4) = IZR 2) by (field; lra).
  assert (E4 : PI / (PI / 4) = IZR 4) by (field; lra).
  assert (E6 : - (PI / 2) / (PI / 4) = IZR (-2)) by (field; lra).
  repeat split; intros d Hd; unfold direction8, atan2.
  - destruct (Rlt_dec 0 d); [|lra].
    replace (0 / d) with 0 by (field; lra).
    rewrite atan_0, E0, jsRound_IZR. reflexivity.
  - destruct (Rlt_dec 0 0); [lra|].
    destruct (Rlt_dec 0 d); [|lra].
    rewrite E2, jsRound_IZR. reflexivity.
  - destruct (Rlt_dec 0 d); [lra|].
    destruct (Rlt_dec d 0); [|lra].
    destruct (Rle_dec 0 0); [|lra].
    replace (0 / d) with 0 by (field; lra).
    rewrite atan_0, Rplus_0_l, E4, jsRound_IZR. reflexivity.
  - destruct (Rlt_dec 0 0); [lra|].
    destruct (Rlt_dec 0 d); [lra|].
    destruct (Rlt_dec d 0); [|lra].
    rewrite E6, jsRound_IZR. reflexivity.
Qed.

Close Scope R_scope.

Open Scope R_scope.

(** Up the screen and slightly to the left, as from the key [A] to the
    key [Q]: the rounded angle is [-2] eighths of a turn, direction 6. *)
Lemma direction8_up_left : direction8 (-15) (-60) = 6%Z.
Proof.
  pose proof PI_RGT_0 as Hpi.
  assert (H4 : PI * 3 / 8 < atan 4 < PI / 2).
  { split; [|apply atan_bound].
    assert (E : atan 4 = PI / 2 - atan (/ 4)).
    { rewrite (atan_inv 4) by lra. lra. }
    pose proof Machin_2_3 as M.
    assert (atan (/ 4) < atan (/ 3)) by (apply atan_increasing; lra).
    assert (atan (/ 3) < atan (/ 2)) by (apply atan_increasing; lra).
    lra. }
  unfold direction8, atan2.
  destruct (Rlt_dec 0 (-15)); [lra|].
  destruct (Rlt_dec (-15) 0); [|lra].
  destruct (Rle_dec 0 (-60)); [lra|].
  replace (-60 / -15) with 4 by field.
  replace (jsRound ((atan 4 - PI) / (PI / 4))) with (-2)%Z; [reflexivity|].
  symmetry. unfold jsRound. apply Zfloor_eq.
  set (q := (atan 4 - PI) / (PI / 4)).
  assert (Eq : atan 4 - PI = q * (PI / 4)) by (unfold q; field; lra).
  split.
  - apply Rmult_le_reg_r with (PI / 4); lra.
  - apply Rmult_lt_reg_r with (PI / 4); lra.
Qed.

(* ================================================================= *)
(** ** Key centres of the qwerty layout *)

Lemma minOf_first a l : Forall (fun v => a <= v) l -> minOf (a :: l) = a.
Proof.
  unfold minOf. induction 1 as [|v l Hv _ IH]; simpl.
  - reflexivity.
  - rewrite Rmin_left by exact Hv. exact IH.
Qed.

Lemma SHIFT_X_qwerty : SHIFT_X qwerty = 0.
Proof.
  unfold SHIFT_X, minX.
  replace (minOf (map Key.x (allKeys qwerty))) with 0;
    [unfold KEY_SPACING; lra|].
  symmetry. apply minOf_first.
  repeat (apply Forall_cons; [cbn [Key.x snd]; lra|]). apply Forall_nil.
Qed.

Lemma SHIFT_Y_qwerty : SHIFT_Y qwerty = 60.
Proof.
  unfold SHIFT_Y, minY.
  replace (minOf (map Key.y (allKeys qwerty))) with (-1);
    [unfold KEY_SPACING; lra|].
  symmetry. apply minOf_first.
  repeat (apply Forall_cons; [cbn [Key.y snd]; lra|]). apply Forall_nil.
Qed.

Lemma resolve_aq : resolve qwerty "aq" = [ptA; ptQ].
Proof.
  change (resolve qwerty "aq")
    with [Pt.mk (0.75 * KEY_SPACING + SHIFT_X qwerty + PAD_X + KEY_W / 2)
                (1 * KEY_SPACING + SHIFT_Y qwerty + PAD_Y + KEY_H / 2) "a";
          Pt.mk (0.5 * KEY_SPACING + SHIFT_X qwerty + PAD_X + KEY_W / 2)
                (0 * KEY_SPACING + SHIFT_Y qwerty + PAD_Y + KEY_H / 2) "q"].
  rewrite SHIFT_X_qwerty, SHIFT_Y_qwerty.
  unfold ptA, ptQ, KEY_SPACING, PAD_X, PAD_Y, KEY_W, KEY_H.
  repeat f_equal; lra.
Qed.

Lemma resolve_qp : resolve qwerty "qp" = [ptQ; ptP].
Proof.
  change (resolve qwerty "qp")
    with [Pt.mk (0.5 * KEY_SPACING + SHIFT_X qwerty + PAD_X + KEY_W / 2)
                (0 * KEY_SPACING + SHIFT_Y qwerty + PAD_Y + KEY_H / 2) "q";
          Pt.mk (9.5 * KEY_SPACING + SHIFT_X qwerty + PAD_X + KEY_W / 2)
                (0 * KEY_SPACING + SHIFT_Y qwerty + PAD_Y + KEY_H / 2) "p"].
  rewrite SHIFT_X_qwerty, SHIFT_Y_qwerty.
  unfold ptP, ptQ, KEY_SPACING, PAD_X, PAD_Y, KEY_W, KEY_H.
  repeat f_equal; lra.
Qed.

Close Scope R_scope.

(* ================================================================= *)
(** ** Directions of segments *)

(** C4. The direction is the rounded eighth of a turn of [atan2(dy, dx)],
    taken modulo 8, hence between 0 and 7; a segment to the right has
    direction 0. A segment that goes up the screen ([dy < 0], the [y] axis
    of the key centres pointing down) has direction 6, not 2, and one that
    goes down has direction 2: so for [dx = 0, dy = -60], and so for the
    segment of the name [aq], from the key A up to the key Q. *)
Theorem direction8_buckets :
  (forall dx dy,
      let q := (atan2 dy dx / (PI / 4))%R in
      (IZR (jsRound q) - / 2 <= q < IZR (jsRound q) + / 2)%R
      /\ direction8 dx dy = jsRound q mod 8
      /\ 0 <= direction8 dx dy <= 7)
  /\ (forall dx, (0 < dx)%R -> direction8 dx 0 = 0)
  /\ (forall dy, (dy < 0)%R -> direction8 0 dy = 6)
  /\ (forall dy, (0 < dy)%R -> direction8 0 dy = 2)
  /\ direction8 0 (-60) = 6
  /\ direction8 0 (-60) <> 2
  /\ resolve qwerty "aq" = [ptA; ptQ]
  /\ (Pt.y ptQ - Pt.y ptA = -60)%R
  /\ (exists segs,
         segments qwerty "aq" true false = Ok segs
         /\ map (fun s => CodecSeg.dir (RenderSeg.feat s)) segs = [6]).
Proof.
  destruct direction8_axes as (He & Hs & Hw & Hn).
  assert (H6 : direction8 0 (-60) = 6) by (apply Hn; lra).
  split; [|split; [exact He|split; [exact Hn|split; [exact Hs|]]]].
  - intros dx dy q.
    destruct (direction8_round dx dy) as [Hr Hd]. fold q in Hr, Hd.
    split; [apply jsRound_nearest|]. split; [exact Hd|].
    rewrite Hd. pose proof (Z.mod_pos_bound (jsRound q) 8). lia.
  - split; [exact H6|]. split; [rewrite H6; discriminate|].
    split; [exact resolve_aq|]. split; [cbn [ptA ptQ Pt.y]; lra|].
    destruct (segmentsWith_feats colorForPair qwerty "aq" true false)
      as (segs & Hs' & Hf).
    exists segs. split; [exact Hs'|].
    rewrite resolve_aq in Hf.
    destruct segs as [|s [|s' segs]]; try discriminate Hf.
    cbn [map] in *. injection Hf as Hf.
    rewrite Hf. cbn [featAt CodecSeg.dir ptA ptQ Pt.x Pt.y].
    replace (76 - 91)%R with (-15)%R by lra.
    replace (102 - 162)%R with (-60)%R by lra.
    rewrite direction8_up_left. reflexivity.
Qed.

Lemma direction8_buckets_witness :
  direction8 120 0 = 0 /\ direction8 0 (-1) = 6 /\ direction8 0 1 = 2.
Proof.
  destruct direction8_buckets as (_ & He & Hn & Hs & _).
  repeat split.
  - apply He. lra.
  - apply Hn. lra.
  - apply Hs. lra.
Defined.

(* ================================================================= *)
(** ** Catmull-Rom controls *)

Open Scope R_scope.

Lemma pow_zero b : pow b 0 = 1.
Proof. unfold pow. destruct (Req_dec_T 0 0); [reflexivity|lra]. Qed.

Lemma orOne_nonzero v : v <> 0 -> orOne v = v.
Proof. intros H. unfold orOne. destruct (Req_dec_T v 0); [contradiction|reflexivity]. Qed.

Lemma orOne_zero : orOne 0 = 1.
Proof. unfold orOne. destruct (Req_dec_T 0 0); [reflexivity|lra]. Qed.

(** With the exponent 0 of the call, each weight [pow(d, 0)] is 1: the
    distances between the points do not enter the controls. *)
Lemma catmullRom_zero p0 p1 p2 p3 :
  catmullRomCubicForSegment p0 p1 p2 p3 (Some 0) = uniformControls p0 p1 p2 p3.
Proof.
  unfold catmullRomCubicForSegment, uniformControls.
  rewrite !pow_zero.
  rewrite (orOne_nonzero 1) by lra.
  rewrite (orOne_nonzero (1 + 1)) by lra.
  f_equal; field.
Qed.

Lemma hypot_0_0 : hypot 0 0 = 0.
Proof.
  unfold hypot. replace (0 * 0 + 0 * 0) with 0 by ring. apply sqrt_0.
Qed.

Lemma hypot_x_0 a : 0 <= a -> hypot a 0 = a.
Proof.
  intros Ha. unfold hypot.
  replace (a * a + 0 * 0) with (Rsqr a) by (unfold Rsqr; ring).
  now apply sqrt_Rsqr.
Qed.

Lemma Rpower_gt_1 b e : 1 < b -> 0 < e -> 1 < Rpower b e.
Proof.
  intros Hb He. unfold Rpower.
  rewrite <- exp_0. apply exp_increasing.
  apply Rmult_lt_0_compat; [exact He|].
  rewrite <- ln_1. apply ln_increasing; lra.
Qed.

(** On the one segment of the name [qp], a positive exponent would put the
    first control strictly to the left of where the exponent 0 puts it. *)
Lemma catmullRom_qp_positive alpha :
  0 < alpha ->
  Controls.c1x (catmullRomCubicForSegment ptQ ptQ ptP ptP (Some alpha)) < 166.
Proof.
  intros Ha.
  unfold catmullRomCubicForSegment. cbn [ptQ ptP Pt.x Pt.y Controls.c1x].
  replace (76 - 76) with 0 by lra.
  replace (102 - 102) with 0 by lra.
  replace (616 - 616) with 0 by lra.
  replace (616 - 76) with 540 by lra.
  rewrite hypot_0_0, (hypot_x_0 540) by lra.
  assert (P0 : pow 0 alpha = 0).
  { unfold pow. destruct (Req_dec_T alpha 0); [lra|].
    destruct (Rlt_dec 0 0); [lra|reflexivity]. }
  assert (P1 : pow 540 alpha = Rpower 540 alpha).
  { unfold pow. destruct (Req_dec_T alpha 0); [lra|].
    destruct (Rlt_dec 0 540); [reflexivity|lra]. }
  rewrite P0, P1, orOne_zero.
  pose proof (Rpower_gt_1 540 alpha ltac:(lra) Ha) as HD.
  set (D := Rpower 540 alpha) in *.
  rewrite (orOne_nonzero D) by lra.
  rewrite (orOne_nonzero (1 + D)) by lra.
  replace (76 + (540 / D - 0 / 1) * D / (1 + D) / 3)
    with (76 + 180 / (1 + D)) by (field; lra).
  assert (180 / (1 + D) < 90).
  { apply Rmult_lt_reg_r with (1 + D); [lra|].
    unfold Rdiv. rewrite Rmult_assoc, Rinv_l by lra. lra. }
  lra.
Qed.

Close Scope R_scope.

Lemma segmentBody_cubic colorOf pts uda i segs rng p1 p2 :
  nth_error pts i = Some p1 ->
  nth_error pts (i + 1) = Some p2 ->
  exists s,
    segmentBody colorOf pts uda true i (segs, rng)
    = Ok (push segs s, if uda then snd (rngNext rng) else rng)
    /\ Some (RenderSeg.d s) = cubicAt pts i.
Proof.
  intros H1 H2. unfold segmentBody, cubicAt.
  rewrite H1, H2. cbn [deref bind].
  assert (H0 : (if 0 <=? Z.of_nat i - 1 then nth_error pts (i - 1) else Some p1)
               = Some (fst (clampedNeighbours pts i p1 p2))).
  { unfold clampedNeighbours. cbn [fst]. destruct i as [|j].
    - reflexivity.
    - replace (0 <=? Z.of_nat (S j) - 1) with true
        by (symmetry; apply Z.leb_le; lia).
      replace (S j - 1)%nat with j by lia.
      apply nth_error_nth'.
      assert (nth_error pts (S j) <> None) by congruence.
      apply nth_error_Some in H. lia. }
  assert (H3 : (if (i + 2 <? List.length pts)%nat
                then nth_error pts (i + 2) else Some p2)
               = Some (snd (clampedNeighbours pts i p1 p2))).
  { unfold clampedNeighbours. cbn [snd].
    destruct (i + 2 <? List.length pts)%nat eqn:E.
    - apply Nat.ltb_lt in E. now apply nth_error_nth'.
    - apply Nat.ltb_ge in E. now rewrite nth_overflow. }
  rewrite H0, H3.
  unfold dashForPair. cbn [rngNext].
  destruct uda; cbn [negb deref bind fst snd]; eexists; split;
    reflexivity.
Qed.

Lemma forLoop_cubics colorOf pts uda n : forall i segs rng,
  (i + n + 1 <= List.length pts)%nat ->
  exists segs' rng',
    forLoop (segmentBody colorOf pts uda true) i n (segs, rng)
    = Ok (segs', rng')
    /\ map (fun s => Some (RenderSeg.d s)) segs'
       = (map (fun s => Some (RenderSeg.d s)) segs
            ++ map (cubicAt pts) (seq i n))%list.
Proof.
  induction n as [|n IH]; intros i segs rng Hlen.
  - exists segs, rng. split; [reflexivity|].
    simpl. now rewrite app_nil_r.
  - destruct (nth_error pts i) as [p1|] eqn:E1;
      [|apply nth_error_None in E1; lia].
    destruct (nth_error pts (i + 1)) as [p2|] eqn:E2;
      [|apply nth_error_None in E2; lia].
    destruct (segmentBody_cubic colorOf pts uda i segs rng p1 p2 E1 E2)
      as (s & Hs & Hd).
    cbn [forLoop]. rewrite Hs. cbn [bind].
    destruct (IH (S i) (push segs s) (if uda then snd (rngNext rng) else rng))
      as (segs' & rng' & Hloop & Hmap); [lia|].
    exists segs', rng'. split; [exact Hloop|].
    rewrite Hmap. unfold push. rewrite map_app. cbn [map seq].
    rewrite Hd. now rewrite <- app_assoc.
Qed.

Lemma segments_cubics l name uda :
  exists segs,
    segments l name uda true = Ok segs
    /\ map (fun s => Some (RenderSeg.d s)) segs
       = map (cubicAt (resolve l name))
             (seq 0 (List.length (resolve l name) - 1)).
Proof.
  unfold segments, segmentsWith.
  destruct name as [|c name].
  - exists []. split; reflexivity.
  - set (nm := String c name).
    set (pts := resolve l nm).
    destruct (List.length pts <? 2)%nat eqn:E.
    + exists []. split; [reflexivity|].
      apply Nat.ltb_lt in E.
      replace (List.length pts - 1)%nat with 0%nat by lia. reflexivity.
    + apply Nat.ltb_ge in E.
      destruct (forLoop_cubics colorForPair pts uda (List.length pts - 1) 0 []
                  (makeRng ("key-sign:" ++ nm ++ ":" ++ layoutId l)))
        as (segs & rng' & Hloop & Hmap); [lia|].
      rewrite Hloop. cbn [bind fst].
      exists segs. split; [reflexivity|exact Hmap].
Qed.

(** C8, as the code has it. In Catmull-Rom mode the two controls of each
    segment come from its neighbouring points, the missing neighbour of the
    first and of the last segment being the segment's own end point; but
    the call passes the exponent 0, so that every distance weight is 1 and
    the controls are those of a uniform parametrisation. On the name [qp]
    the first control is at 166, where any positive exponent, the default
    0.2 among them, would put it strictly before 166. *)
Theorem catmullRom_exponent_zero :
  (forall p0 p1 p2 p3,
      catmullRomCubicForSegment p0 p1 p2 p3 (Some 0%R)
      = uniformControls p0 p1 p2 p3)
  /\ (forall l name uda,
         exists segs,
           segments l name uda true = Ok segs
           /\ map (fun s => Some (RenderSeg.d s)) segs
              = map (cubicAt (resolve l name))
                    (seq 0 (List.length (resolve l name) - 1)))
  /\ (forall pts p1 p2 r,
         clampedNeighbours (p1 :: p2 :: r) 0 p1 p2
         = (p1, match r with [] => p2 | p3 :: _ => p3 end)
         /\ clampedNeighbours (pts ++ [p1; p2]) (List.length pts) p1 p2
            = (match rev pts with [] => p1 | p0 :: _ => p0 end, p2))
  /\ (exists s,
         segments qwerty "qp" true true = Ok [s]
         /\ RenderSeg.d s = MoveCubic 76 102 166 102 706 102 616 102)
  /\ (Controls.c1x (catmullRomCubicForSegment ptQ ptQ ptP ptP None) < 166)%R
  /\ (Controls.c1x (catmullRomCubicForSegment ptQ ptQ ptP ptP (Some 0.5%R))
      < 166)%R.
Proof.
  split; [exact catmullRom_zero|].
  split; [exact segments_cubics|].
  split; [|split; [|split]].
  - intros pts p1 p2 r. split.
    + unfold clampedNeighbours. destruct r; reflexivity.
    + unfold clampedNeighbours. f_equal.
      * destruct pts as [|a pts] using rev_ind; [reflexivity|].
        rewrite rev_app_distr. cbn [rev app].
        rewrite length_app. cbn [List.length].
        replace (List.length pts + 1)%nat with (S (List.length pts)) by lia.
        rewrite <- app_assoc.
        rewrite app_nth2 by lia. rewrite Nat.sub_diag. reflexivity.
      * apply nth_overflow. rewrite length_app. simpl. lia.
  - destruct (segments_cubics qwerty "qp" true) as (segs & Hs & Hd).
    rewrite resolve_qp in Hd.
    destruct segs as [|s [|s' segs]]; try discriminate Hd.
    exists s. split; [exact Hs|].
    cbn [map seq List.length Nat.sub] in Hd.
    unfold cubicAt in Hd. cbn [nth_error Nat.add] in Hd.
    injection Hd as Hd. rewrite Hd.
    rewrite !pow_zero.
    rewrite (orOne_nonzero 1) by lra.
    rewrite (orOne_nonzero (1 + 1)) by lra.
    f_equal; field.
  - apply catmullRom_qp_positive. unfold DEFAULT_ALPHA. lra.
  - apply catmullRom_qp_positive. lra.
Qed.

(* ================================================================= *)
(** ** escapeXml and its inverse *)

Lemma stripPrefix_app p s : stripPrefix p (p ++ s) = Some s.
Proof.
  induction p as [|a p IH]; simpl.
  - now destruct s.
  - now rewrite Ascii.eqb_refl.
Qed.

Lemma entity_decodes c e rest :
  entityOf c = Some e ->
  (0 < String.length e)%nat
  /\ decodeEntity entities (e ++ rest) = Some (c, rest)
  /\ noTag e = true.
Proof.
  destruct c as [[] [] [] [] [] [] [] []]; vm_compute; intros H;
    try discriminate H; injection H as <-;
    (split; [lia|split; reflexivity]).
Qed.

Lemma plain_decodes c rest :
  entityOf c = None ->
  decodeEntity entities (String c rest) = None
  /\ Ascii.eqb c "<" = false.
Proof.
  destruct c as [[] [] [] [] [] [] [] []]; vm_compute; intros H;
    try discriminate H; split; reflexivity.
Qed.

Lemma unescapeAux_escapeXml s : forall fuel,
  (String.length (escapeXml s) <= fuel)%nat ->
  unescapeAux fuel (escapeXml s) = s.
Proof.
  induction s as [|c s IH]; intros fuel Hf.
  - destruct fuel; reflexivity.
  - cbn [escapeXml] in *.
    destruct (entityOf c) as [e|] eqn:E.
    + destruct (entity_decodes c e (escapeXml s) E) as (Hl & Hd & _).
      rewrite append_length in Hf.
      destruct fuel as [|fuel]; [lia|].
      destruct e as [|a e]; [simpl in Hl; lia|].
      cbn [append unescapeAux]. cbn [append] in Hd. rewrite Hd.
      f_equal. apply IH. simpl in Hf. lia.
    + destruct (plain_decodes c (escapeXml s) E) as [Hd _].
      destruct fuel as [|fuel]; [simpl in *; lia|].
      cbn [unescapeAux]. rewrite Hd. f_equal. apply IH. simpl in *. lia.
Qed.

Lemma unescapeXml_escapeXml s : unescapeXml (escapeXml s) = s.
Proof. unfold unescapeXml. now apply unescapeAux_escapeXml. Qed.

Lemma textUntilTag_noTag u : forall v,
  noTag u = true ->
  textUntilTag (u ++ v)
  = (u ++ fst (textUntilTag v), snd (textUntilTag v)).
Proof.
  induction u as [|a u IH]; intros v Hu.
  - cbn [append]. now destruct (textUntilTag v).
  - cbn [noTag] in Hu. apply andb_prop in Hu. destruct Hu as [Ha Hu].
    apply negb_true_iff in Ha.
    cbn [append textUntilTag]. rewrite Ha, (IH v Hu). reflexivity.
Qed.

Lemma noTag_escapeXml s : noTag (escapeXml s) = true.
Proof.
  induction s as [|c s IH]; [reflexivity|].
  cbn [escapeXml].
  destruct (entityOf c) as [e|] eqn:E.
  - destruct (entity_decodes c e EmptyString E) as (_ & _ & He).
    clear E. induction e as [|a e IHe]; [exact IH|].
    cbn [noTag append] in *. apply andb_prop in He. destruct He as [-> He].
    now apply IHe.
  - destruct (plain_decodes c EmptyString E) as [_ Hc].
    cbn [noTag]. now rewrite Hc, IH.
Qed.

Lemma textUntilTag_escapeXml s rest :
  textUntilTag (escapeXml s ++ String "<"%char rest)
  = (escapeXml s, String "<"%char rest).
Proof.
  rewrite textUntilTag_noTag by apply noTag_escapeXml.
  cbn [textUntilTag]. replace (Ascii.eqb "<" "<") with true by reflexivity.
  cbn [fst snd]. now rewrite append_nil_r.
Qed.

Lemma metadataText_codecSvg json : metadataText (codecSvg json) = Some json.
Proof.
  unfold metadataText, codecSvg.
  rewrite stripPrefix_app. cbn [obind].
  rewrite stripPrefix_app. cbn [obind].
  change metadataClose
    with (String "<"%char ("/metadata>" ++ String newline "</svg>")).
  rewrite textUntilTag_escapeXml.
  change (String "<"%char ("/metadata>" ++ String newline "</svg>"))
    with (metadataClose ++ EmptyString).
  rewrite stripPrefix_app. cbn [obind].
  now rewrite unescapeXml_escapeXml.
Qed.

(* ================================================================= *)
(** ** The lexer on the texts of [JSON.stringify] *)

Lemma lex_skip a : forall rest,
  lex (String.length a) (a ++ rest) = lex 0 rest.
Proof.
  induction a as [|c a IH]; intros rest; [reflexivity|].
  cbn [String.length append lex]. apply IH.
Qed.

Lemma lex_token_step c body rest t :
  isWs c = false ->
  lexToken (String c (body ++ rest)) = Some (t, rest) ->
  lex 0 (String c (body ++ rest)) = option_map (app [t]) (lex 0 rest).
Proof.
  intros Hw Ht. cbn [lex]. rewrite Hw, Ht.
  rewrite append_length.
  replace (String.length body + String.length rest - String.length rest)%nat
    with (String.length body) by lia.
  rewrite lex_skip. now destruct (lex 0 rest).
Qed.

Lemma lex_ws w : forall rest,
  allWs w = true -> lex 0 (w ++ rest) = lex 0 rest.
Proof.
  induction w as [|c w IH]; intros rest Hw; [reflexivity|].
  cbn [allWs] in Hw. apply andb_prop in Hw. destruct Hw as [Hc Hw].
  cbn [append lex]. rewrite Hc. now apply IH.
Qed.

Lemma punct_not_ws c t : punct c = Some t -> isWs c = false.
Proof.
  destruct c as [[] [] [] [] [] [] [] []]; vm_compute; intros H;
    try discriminate H; reflexivity.
Qed.

Lemma lex_punct c t rest :
  punct c = Some t ->
  lex 0 (String c rest) = option_map (app [t]) (lex 0 rest).
Proof.
  intros H.
  apply (lex_token_step c EmptyString rest t (punct_not_ws c t H)).
  cbn [append lexToken]. now rewrite H.
Qed.

(** *** String literals *)

Lemma lexString_quoteChar c tail :
  lexString (quoteChar c ++ tail) = consFst c (lexString tail).
Proof.
  destruct c as [[] [] [] [] [] [] [] []];
    cbn -[lexString]; cbn [lexString]; cbn -[lexString]; reflexivity.
Qed.

Lemma lexString_quoteBody s rest :
  lexString (quoteBody s ++ String dquote rest) = Some (s, rest).
Proof.
  induction s as [|c s IH].
  - reflexivity.
  - cbn [quoteBody]. rewrite append_assoc, lexString_quoteChar, IH.
    reflexivity.
Qed.

Lemma LexV_string s : LexV (QuoteJSONString s) [TString s].
Proof.
  intros rest _. unfold QuoteJSONString.
  cbn [append].
  apply (lex_token_step dquote (quoteBody s ++ String dquote EmptyString)).
  - reflexivity.
  - rewrite append_assoc. cbn [append lexToken].
    replace (punct dquote) with (@None token) by reflexivity.
    replace (Ascii.eqb dquote dquote) with true by reflexivity.
    now rewrite lexString_quoteBody.
Qed.

(** *** Numerals *)

Lemma digitChar_isDigit d :
  0 <= d < 10 ->
  isDigit (digitChar d) = true /\ charCodeAt (digitChar d) - 48 = d.
Proof.
  intros Hd.
  rewrite <- (Z2Nat.id d) by lia.
  assert (Hn : (Z.to_nat d < 10)%nat) by lia.
  revert Hn. generalize (Z.to_nat d). clear.
  intros n Hn.
  do 10 (destruct n as [|n]; [split; reflexivity|]).
  lia.
Qed.

Lemma isDigit_class c :
  isDigit c = true ->
  punct c = None /\ Ascii.eqb c dquote = false /\ isWs c = false
  /\ Ascii.eqb c "-" = false.
Proof.
  destruct c as [[] [] [] [] [] [] [] []]; vm_compute; intros H;
    try discriminate H; repeat split.
Qed.

Lemma fixedDigits_head radix k : forall m acc,
  0 < radix ->
  fixedDigits radix (S k) m acc
  = String (digitChar ((m / radix ^ Z.of_nat k) mod radix))
           (fixedDigits radix k m acc).
Proof.
  induction k as [|k IH]; intros m acc Hr.
  - cbn [fixedDigits]. change (Z.of_nat 0) with 0.
    now rewrite Z.pow_0_r, Z.div_1_r.
  - change (fixedDigits radix (S (S k)) m acc)
      with (fixedDigits radix (S k) (m / radix)
                        (String (digitChar (m mod radix)) acc)).
    rewrite IH by exact Hr. cbn [fixedDigits].
    rewrite Nat2Z.inj_succ, Z.pow_succ_r by lia.
    rewrite Z.div_div by (try apply Z.pow_pos_nonneg; lia).
    reflexivity.
Qed.

Lemma lexDigits_fixedDigits k : forall m acc v,
  lexDigits (fixedDigits 10 k m acc) v
  = lexDigits acc (v * 10 ^ Z.of_nat k + m mod 10 ^ Z.of_nat k).
Proof.
  induction k as [|k IH]; intros m acc v.
  - simpl. rewrite Z.mod_1_r. f_equal. lia.
  - cbn [fixedDigits]. rewrite IH. cbn [lexDigits].
    assert (Hd : 0 <= m mod 10 < 10) by (apply Z.mod_pos_bound; lia).
    destruct (digitChar_isDigit _ Hd) as [-> ->].
    f_equal.
    rewrite Nat2Z.inj_succ, Z.pow_succ_r by lia.
    rewrite (Z.rem_mul_r m 10 (10 ^ Z.of_nat k)) by lia.
    ring.
Qed.

Lemma lexDigits_safe rest v : safe rest -> lexDigits rest v = (v, rest).
Proof.
  destruct rest as [|c r]; [reflexivity|].
  cbn [safe lexDigits]. now intros ->.
Qed.

Lemma numberToString_digits m :
  0 <= m ->
  exists k,
    digitsAux 10 (S (Z.to_nat (Z.log2 m))) m EmptyString
    = fixedDigits 10 (S k) m EmptyString
    /\ m < 10 ^ Z.of_nat (S k).
Proof.
  intros Hm.
  destruct (digitsAux_fixed 10 ltac:(lia) (Z.to_nat (Z.log2 m)) m EmptyString)
    as (k & _ & Heq & Hlt & _).
  - split; [exact Hm|]. apply log2_fuel; lia.
  - exists k. split; assumption.
Qed.

Lemma LexV_number n : LexV (toString10 n) [TNumber n].
Proof.
  intros rest Hsafe. unfold toString10, numberToString.
  destruct (numberToString_digits (Z.abs n) (Z.abs_nonneg n))
    as (k & -> & Hlt).
  set (m := Z.abs n) in *.
  assert (Hm : 0 <= m) by apply Z.abs_nonneg.
  assert (Hd0 : 0 <= (m / 10 ^ Z.of_nat k) mod 10 < 10)
    by (apply Z.mod_pos_bound; lia).
  destruct (digitChar_isDigit _ Hd0) as [Hdig _].
  destruct (isDigit_class _ Hdig) as (Hp & Hq & Hw & Hminus).
  assert (Hval : lexDigits (fixedDigits 10 (S k) m rest) 0 = (m, rest)).
  { rewrite lexDigits_fixedDigits, lexDigits_safe by exact Hsafe.
    rewrite Z.mod_small by lia. f_equal. }
  assert (Hsplit : fixedDigits 10 (S k) m rest
                   = String (digitChar ((m / 10 ^ Z.of_nat k) mod 10))
                            (fixedDigits 10 k m EmptyString ++ rest)).
  { rewrite fixedDigits_head by lia. f_equal. apply fixedDigits_app. }
  rewrite (fixedDigits_head 10 k m EmptyString) by lia.
  set (d0 := digitChar ((m / 10 ^ Z.of_nat k) mod 10)) in *.
  set (body := fixedDigits 10 k m EmptyString) in *.
  destruct (n <? 0) eqn:En.
  - apply Z.ltb_lt in En.
    cbn [append].
    apply (lex_token_step "-"%char (String d0 body)); [reflexivity|].
    cbn [append lexToken lexNumber].
    replace (punct "-") with (@None token) by reflexivity.
    replace (Ascii.eqb "-" dquote) with false by reflexivity.
    replace (Ascii.eqb "-" "-") with true by reflexivity.
    rewrite Hdig, <- Hsplit, Hval.
    do 3 f_equal. unfold m. lia.
  - apply Z.ltb_ge in En.
    cbn [append].
    apply (lex_token_step d0 body); [exact Hw|].
    cbn [lexToken lexNumber]. rewrite Hp, Hq, Hminus, Hdig.
    rewrite <- Hsplit, Hval.
    do 3 f_equal. unfold m. lia.
Qed.

(** *** Objects and arrays *)

Lemma option_map_app {A} (a b : list A) o :
  option_map (app a) (option_map (app b) o) = option_map (app (a ++ b)%list) o.
Proof. destruct o; simpl; [now rewrite app_assoc|reflexivity]. Qed.

Lemma option_map_nil {A} (o : option (list A)) : option_map (app []) o = o.
Proof. now destruct o. Qed.

Lemma safe_punct c t r : punct c = Some t -> safe (String c r).
Proof.
  destruct c as [[] [] [] [] [] [] [] []]; vm_compute; intros H;
    try discriminate H; reflexivity.
Qed.

Lemma safe_ws w r : allWs w = true -> safe r -> safe (w ++ r).
Proof.
  destruct w as [|c w]; [intros _ H; exact H|].
  cbn [allWs append safe]. intros H _.
  apply andb_prop in H. destruct H as [H _].
  destruct c as [[] [] [] [] [] [] [] []]; vm_compute in H |- *;
    try discriminate H; reflexivity.
Qed.

(** A separator: a comma, then white space. *)
Lemma lex_comma open rest :
  allWs open = true ->
  lex 0 (("," ++ open) ++ rest) = option_map (app [TComma]) (lex 0 rest).
Proof.
  intros Ho. cbn [append].
  rewrite (lex_punct ","%char TComma) by reflexivity.
  now rewrite lex_ws.
Qed.

Lemma lex_member k cw v tv rest :
  allWs cw = true -> LexV v tv -> safe rest ->
  lex 0 ((QuoteJSONString k ++ (":" ++ cw) ++ v) ++ rest)
  = option_map (app (TString k :: TColon :: tv)) (lex 0 rest).
Proof.
  intros Hc Hv Hs.
  rewrite !append_assoc. cbn [append].
  rewrite (LexV_string k) by (now apply (safe_punct ":"%char TColon)).
  rewrite (lex_punct ":"%char TColon) by reflexivity.
  rewrite lex_ws by exact Hc.
  rewrite (Hv rest Hs).
  now rewrite !option_map_app.
Qed.

Lemma lex_join_members open cw
      (ms : list (string * (string * list token))) :
  allWs open = true -> allWs cw = true ->
  Forall (fun m => LexV (fst (snd m)) (snd (snd m))) ms ->
  forall rest, safe rest ->
    lex 0 (join ("," ++ open)
                (map (fun m => QuoteJSONString (fst m) ++ (":" ++ cw)
                                               ++ fst (snd m)) ms)
             ++ rest)
    = option_map
        (app (memberTokens (map (fun m => (fst m, snd (snd m))) ms)))
        (lex 0 rest).
Proof.
  intros Ho Hc Hms. induction Hms as [|m ms Hm Hms IH]; intros rest Hs.
  - cbn [map join append memberTokens]. now rewrite option_map_nil.
  - destruct ms as [|m' ms'].
    + cbn [map join memberTokens fst snd].
      now apply lex_member.
    + change (join ("," ++ open)
                (map (fun m => QuoteJSONString (fst m) ++ (":" ++ cw)
                                               ++ fst (snd m))
                     (m :: m' :: ms')))
        with ((QuoteJSONString (fst m) ++ (":" ++ cw) ++ fst (snd m))
                ++ ("," ++ open)
                ++ join ("," ++ open)
                     (map (fun m => QuoteJSONString (fst m) ++ (":" ++ cw)
                                               ++ fst (snd m))
                          (m' :: ms'))).
      rewrite append_assoc.
      rewrite (lex_member (fst m) cw (fst (snd m)) (snd (snd m)));
        [|exact Hc|exact Hm|now apply (safe_punct ","%char TComma)].
      rewrite append_assoc, lex_comma by exact Ho.
      rewrite IH by exact Hs.
      rewrite !option_map_app.
      change (memberTokens (map (fun m => (fst m, snd (snd m)))
                                (m :: m' :: ms')))
        with ((TString (fst m) :: TColon :: snd (snd m))
                ++ TComma
                :: memberTokens (map (fun m => (fst m, snd (snd m)))
                                     (m' :: ms')))%list.
      f_equal. f_equal. now rewrite <- app_assoc.
Qed.

Lemma lex_join_items open (its : list (string * list token)) :
  allWs open = true ->
  Forall (fun i => LexV (fst i) (snd i)) its ->
  forall rest, safe rest ->
    lex 0 (join ("," ++ open) (map fst its) ++ rest)
    = option_map (app (itemTokens (map snd its))) (lex 0 rest).
Proof.
  intros Ho Hits. induction Hits as [|i its Hi Hits IH]; intros rest Hs.
  - cbn [map join append itemTokens]. now rewrite option_map_nil.
  - destruct its as [|i' its'].
    + cbn [map join itemTokens]. now apply Hi.
    + change (join ("," ++ open) (map fst (i :: i' :: its')))
        with (fst i ++ ("," ++ open)
                    ++ join ("," ++ open) (map fst (i' :: its'))).
      rewrite append_assoc.
      rewrite (Hi _) by (now apply (safe_punct ","%char TComma)).
      rewrite append_assoc, lex_comma by exact Ho.
      rewrite IH by exact Hs.
      rewrite !option_map_app.
      change (itemTokens (map snd (i :: i' :: its')))
        with (snd i ++ TComma :: itemTokens (map snd (i' :: its')))%list.
      f_equal. f_equal. now rewrite <- app_assoc.
Qed.

Lemma allWs_app a b : allWs a = true -> allWs b = true -> allWs (a ++ b) = true.
Proof.
  induction a as [|c a IH]; intros Ha Hb; [exact Hb|].
  cbn [allWs append] in *. apply andb_prop in Ha. destruct Ha as [-> Ha].
  now apply IH.
Qed.

Lemma LexV_object gap stepback (ms : list (string * (string * list token))) :
  allWs gap = true -> allWs stepback = true -> ms <> [] ->
  Forall (fun m => LexV (fst (snd m)) (snd (snd m))) ms ->
  LexV (SerializeJSONObject gap stepback
          (map (fun m => (fst m, fst (snd m))) ms))
       (TLBrace :: memberTokens (map (fun m => (fst m, snd (snd m))) ms)
                ++ [TRBrace]).
Proof.
  intros Hg Hb Hne Hms rest Hs.
  assert (Hshape : exists open cw close,
             allWs open = true /\ allWs cw = true /\ allWs close = true
             /\ SerializeJSONObject gap stepback
                  (map (fun m => (fst m, fst (snd m))) ms)
                = "{" ++ open
                      ++ join ("," ++ open)
                           (map (fun m => QuoteJSONString (fst m)
                                            ++ (":" ++ cw) ++ fst (snd m)) ms)
                      ++ close ++ "}").
  { unfold SerializeJSONObject.
    destruct ms as [|m ms]; [contradiction|].
    cbn [map].
    destruct gap as [|g gap].
    - exists EmptyString, EmptyString, EmptyString.
      split; [reflexivity|]. split; [reflexivity|]. split; [reflexivity|].
      rewrite map_map. reflexivity.
    - exists (String newline (stepback ++ String g gap)), " ",
        (String newline stepback).
      split; [|split; [reflexivity|split]].
      + cbn [allWs]. rewrite allWs_app by assumption. reflexivity.
      + cbn [allWs]. now rewrite Hb.
      + rewrite map_map. reflexivity. }
  destruct Hshape as (open & cw & close & Ho & Hc & Hcl & ->).
  set (J := join ("," ++ open)
              (map (fun m => QuoteJSONString (fst m) ++ (":" ++ cw)
                                             ++ fst (snd m)) ms)).
  change (("{" ++ open ++ J ++ close ++ "}") ++ rest)
    with (String "{"%char ((open ++ J ++ close ++ "}") ++ rest)).
  rewrite (lex_punct "{"%char TLBrace) by reflexivity.
  rewrite !append_assoc.
  rewrite lex_ws by exact Ho.
  unfold J. rewrite lex_join_members; try assumption.
  - rewrite lex_ws by exact Hcl.
    change ("}" ++ rest) with (String "}"%char rest).
    rewrite (lex_punct "}"%char TRBrace) by reflexivity.
    rewrite !option_map_app. f_equal.
  - apply safe_ws; [exact Hcl|]. now apply (safe_punct "}"%char TRBrace).
Qed.

Lemma LexV_array gap stepback (its : list (string * list token)) :
  allWs gap = true -> allWs stepback = true ->
  Forall (fun i => LexV (fst i) (snd i)) its ->
  LexV (SerializeJSONArray gap stepback (map fst its))
       (TLBracket :: itemTokens (map snd its) ++ [TRBracket]).
Proof.
  intros Hg Hb Hits rest Hs.
  destruct its as [|i its].
  - cbn [map SerializeJSONArray append itemTokens app].
    rewrite (lex_punct "["%char TLBracket) by reflexivity.
    rewrite (lex_punct "]"%char TRBracket) by reflexivity.
    now rewrite option_map_app.
  - assert (Hshape : exists open close,
               allWs open = true /\ allWs close = true
               /\ SerializeJSONArray gap stepback (map fst (i :: its))
                  = "[" ++ open
                        ++ join ("," ++ open) (map fst (i :: its))
                        ++ close ++ "]").
    { unfold SerializeJSONArray. cbn [map].
      destruct gap as [|g gap].
      - exists EmptyString, EmptyString. repeat split.
      - exists (String newline (stepback ++ String g gap)),
          (String newline stepback).
        split; [|split].
        + cbn [allWs]. rewrite allWs_app by assumption. reflexivity.
        + cbn [allWs]. now rewrite Hb.
        + reflexivity. }
    destruct Hshape as (open & close & Ho & Hcl & ->).
    set (J := join ("," ++ open) (map fst (i :: its))).
    change (("[" ++ open ++ J ++ close ++ "]") ++ rest)
      with (String "["%char ((open ++ J ++ close ++ "]") ++ rest)).
    rewrite (lex_punct "["%char TLBracket) by reflexivity.
    rewrite !append_assoc.
    rewrite lex_ws by exact Ho.
    unfold J. rewrite lex_join_items; try assumption.
    + rewrite lex_ws by exact Hcl.
      change ("]" ++ rest) with (String "]"%char rest).
      rewrite (lex_punct "]"%char TRBracket) by reflexivity.
      rewrite !option_map_app. f_equal.
    + apply safe_ws; [exact Hcl|]. now apply (safe_punct "]"%char TRBracket).
Qed.

(** *** The codec *)

Lemma LexV_seg gap stepback s :
  allWs gap = true -> allWs stepback = true ->
  LexV (stringifySeg gap stepback s) (segTokens s).
Proof.
  intros Hg Hb.
  apply (LexV_object gap stepback
           [ ("a", (QuoteJSONString (CodecSeg.a s), [TString (CodecSeg.a s)]));
             ("b", (QuoteJSONString (CodecSeg.b s), [TString (CodecSeg.b s)]));
             ("cls", (QuoteJSONString (classLabel (CodecSeg.cls s)),
                      [TString (classLabel (CodecSeg.cls s))]));
             ("dir", (toString10 (CodecSeg.dir s), [TNumber (CodecSeg.dir s)]));
             ("lb", (toString10 (CodecSeg.lb s), [TNumber (CodecSeg.lb s)])) ]
           Hg Hb).
  - discriminate.
  - repeat (apply Forall_cons; [cbn [fst snd];
                                first [apply LexV_string|apply LexV_number]|]).
    apply Forall_nil.
Qed.

Lemma itemTokens_segs segs : itemTokens (map segTokens segs) = segsTokens segs.
Proof.
  induction segs as [|s [|s' r] IH]; try reflexivity.
  change (itemTokens (map segTokens (s :: s' :: r)))
    with (segTokens s ++ TComma :: itemTokens (map segTokens (s' :: r)))%list.
  now rewrite IH.
Qed.

Lemma LexV_segs gap stepback segs :
  allWs gap = true -> allWs stepback = true ->
  LexV (SerializeJSONArray gap stepback
          (map (stringifySeg gap (stepback ++ gap)) segs))
       (TLBracket :: segsTokens segs ++ [TRBracket]).
Proof.
  intros Hg Hb.
  pose proof (LexV_array gap stepback
                (map (fun s => (stringifySeg gap (stepback ++ gap) s,
                                segTokens s)) segs) Hg Hb) as H.
  rewrite !map_map in H. cbn [fst snd] in H.
  rewrite <- (map_map segTokens (fun t => t)), map_id, itemTokens_segs in H.
  apply H.
  apply Forall_forall. intros i Hi.
  apply in_map_iff in Hi. destruct Hi as (s & <- & _).
  cbn [fst snd]. apply LexV_seg; [exact Hg|now apply allWs_app].
Qed.

Lemma LexV_codec gap c :
  allWs gap = true -> LexV (JSON_stringify gap c) (codecTokens c).
Proof.
  intros Hg.
  pose proof (LexV_object gap EmptyString
    [ ("v", (QuoteJSONString (versionLabel (Codec.v c)),
             [TString (versionLabel (Codec.v c))]));
      ("layout", (QuoteJSONString (layoutId (Codec.layout c)),
                  [TString (layoutId (Codec.layout c))]));
      ("dash", (QuoteJSONString (dashLabel (Codec.dash c)),
                [TString (dashLabel (Codec.dash c))]));
      ("color", (QuoteJSONString (colorLabel (Codec.color c)),
                 [TString (colorLabel (Codec.color c))]));
      ("len", (toString10 (Codec.len c), [TNumber (Codec.len c)]));
      ("hash", (QuoteJSONString (Codec.hash c), [TString (Codec.hash c)]));
      ("seg", (SerializeJSONArray gap gap
                 (map (stringifySeg gap (gap ++ gap)) (Codec.seg c)),
               (TLBracket :: segsTokens (Codec.seg c) ++ [TRBracket])%list)) ]
    Hg eq_refl ltac:(discriminate)) as H.
  cbn [map fst snd memberTokens] in H.
  unfold codecTokens, JSON_stringify.
  cbn [app] in *. rewrite <- !app_assoc in H. cbn [app] in H.
  apply H.
  repeat (apply Forall_cons;
          [cbn [fst snd];
           first [apply LexV_string|apply LexV_number
                  |apply LexV_segs; assumption]|]).
  apply Forall_nil.
Qed.

Lemma lex_JSON_stringify gap c :
  allWs gap = true -> lex 0 (JSON_stringify gap c) = Some (codecTokens c).
Proof.
  intros Hg.
  pose proof (LexV_codec gap c Hg EmptyString I) as H.
  rewrite append_nil_r in H. rewrite H. cbn [lex option_map].
  now rewrite app_nil_r.
Qed.

(** *** The parser on the tokens of a codec *)

Lemma parseClass_label k : parseClass (classLabel k) = Some k.
Proof. destruct k; reflexivity. Qed.

Lemma parseSeg_tokens s rest :
  parseSeg (segTokens s ++ rest)%list = Some (s, rest).
Proof.
  destruct s as [a b cls dir lb].
  unfold parseSeg, segTokens.
  cbn [app expect expectKey token_eqb String.eqb Ascii.eqb Bool.eqb
       obind getString getNumber fst snd
       CodecSeg.a CodecSeg.b CodecSeg.cls CodecSeg.dir CodecSeg.lb].
  rewrite parseClass_label. reflexivity.
Qed.

Lemma parseSegs_tokens segs : forall fuel first rest,
  (List.length segs < fuel)%nat ->
  (segs = [] -> first = true) ->
  parseSegs fuel first (segsTokens segs ++ TRBracket :: rest)%list
  = Some (segs, rest).
Proof.
  induction segs as [|s segs IH]; intros fuel first rest Hf Hfirst.
  - destruct fuel; [simpl in Hf; lia|].
    cbn [segsTokens app parseSegs]. now rewrite Hfirst.
  - destruct fuel as [|fuel]; [simpl in Hf; lia|].
    destruct segs as [|s' segs'].
    + pose proof (parseSeg_tokens s (TRBracket :: rest)) as Hp.
      cbn [segsTokens]. unfold segTokens in *. cbn [app] in *.
      cbn [parseSegs]. rewrite Hp. reflexivity.
    + pose proof (parseSeg_tokens s
                    (TComma :: segsTokens (s' :: segs') ++ TRBracket :: rest))
        as Hp.
      specialize (IH fuel false rest ltac:(simpl in *; lia)
                     ltac:(discriminate)).
      change (segsTokens (s :: s' :: segs'))
        with (segTokens s ++ TComma :: segsTokens (s' :: segs'))%list.
      rewrite <- app_assoc.
      change ((TComma :: segsTokens (s' :: segs')) ++ TRBracket :: rest)%list
        with (TComma :: segsTokens (s' :: segs') ++ TRBracket :: rest)%list.
      remember (segsTokens (s' :: segs') ++ TRBracket :: rest)%list as tl.
      unfold segTokens in *. cbn [app] in *.
      cbn [parseSegs]. rewrite Hp. cbn [obind fst snd].
      rewrite IH. reflexivity.
Qed.

Lemma segsTokens_length segs :
  (List.length segs <= List.length (segsTokens segs))%nat.
Proof.
  induction segs as [|s [|s' r] IH]; [simpl; lia|simpl; lia|].
  change (segsTokens (s :: s' :: r))
    with (segTokens s ++ TComma :: segsTokens (s' :: r))%list.
  rewrite length_app. cbn [List.length] in *. lia.
Qed.

Lemma parseCodec_tokens c : parseCodec (codecTokens c) = Some c.
Proof.
  destruct c as [v l d col len hash seg].
  destruct v, l, col;
    destruct d;
    unfold parseCodec, codecTokens;
    cbn [app expect expectKey token_eqb String.eqb Ascii.eqb Bool.eqb
         obind getString getNumber fst snd
         parseVersion parseLayout parseDash parseColor
         versionLabel layoutId dashLabel colorLabel
         Codec.v Codec.layout Codec.dash Codec.color Codec.len Codec.hash
         Codec.seg];
    (rewrite parseSegs_tokens;
     [reflexivity
     |pose proof (segsTokens_length seg); rewrite length_app; simpl; lia
     |reflexivity]).
Qed.

Lemma JSON_parse_stringify gap c :
  allWs gap = true -> JSON_parse (JSON_stringify gap c) = Some c.
Proof.
  intros Hg. unfold JSON_parse.
  rewrite lex_JSON_stringify by exact Hg.
  cbn [obind]. apply parseCodec_tokens.
Qed.

Lemma entityOf_table ch :
  entityOf ch
  = option_map fst (find (fun p => Ascii.eqb (snd p) ch) entities).
Proof. each_char ch. Qed.

(* ================================================================= *)
(** ** Round trips of the two forms *)

(** C9. The pretty text of [exportCODECtxt] and the metadata of the
    document of [exportCODECsvg] both read back as the codec they were
    made from. [escapeXml] replaces the five characters that have a
    predefined entity, each by that entity, and no other character; entity
    unescaping undoes it on every string, and the escaped text holds no
    tag character, so that the metadata element ends where it should. *)
Theorem codec_roundtrip (c : Codec.t) :
  JSON_parse (exportCODECtxt c) = Some c
  /\ obind (metadataText (exportCODECsvg c)) JSON_parse = Some c
  /\ metadataText (exportCODECsvg c) = Some (JSON_stringify EmptyString c)
  /\ (forall s, unescapeXml (escapeXml s) = s)
  /\ (forall s, noTag (escapeXml s) = true)
  /\ (forall ch s,
         escapeXml (String ch s)
         = match find (fun p => Ascii.eqb (snd p) ch) entities with
           | Some p => fst p ++ escapeXml s
           | None => String ch (escapeXml s)
           end)
  /\ map snd entities = (list_ascii_of_string "<>&'" ++ [dquote])%list.
Proof.
  assert (Hm : metadataText (exportCODECsvg c)
               = Some (JSON_stringify EmptyString c))
    by apply metadataText_codecSvg.
  split; [now apply JSON_parse_stringify|].
  split; [rewrite Hm; cbn [obind]; now apply JSON_parse_stringify|].
  split; [exact Hm|].
  split; [exact unescapeXml_escapeXml|].
  split; [exact noTag_escapeXml|].
  split; [|reflexivity].
  intros ch s. cbn [escapeXml]. rewrite entityOf_table.
  now destruct (find _ entities).
Qed.

(* ################################################################# *)
(** * Further properties of the component *)

(* ================================================================= *)
(** ** Legacy dashes and the dash alphabet *)

Lemma legacyDash_class (a b : string) :
  legacyDash a b
  = Some (match classifyPair a b with
          | NUM => [1; 8]
          | UU => []
          | _ => [8; 6]
          end).
Proof.
  unfold legacyDash, classifyPair.
  destruct (isNumOrUnd a || isNumOrUnd b); [reflexivity|].
  destruct (isUpper a && isUpper b); [reflexivity|].
  destruct (isLower a && isLower b); [reflexivity|].
  destruct (isUpper a && isLower b); reflexivity.
Qed.

(** The legacy dash of a pair is fixed by its class: the sparse dots for
    NUM, the solid line for UU, the one dash pattern for every other
    class; it is never [undefined]. The dots are the first choice of NUM
    in the dash alphabet, the solid line the only choice of UU, and the
    dash pattern the first choice of UL and of LU, but no choice of LL. *)
Theorem legacyDash_by_class (a b : string) :
  legacyDash a b
  = Some (match classifyPair a b with
          | NUM => [1; 8]
          | UU => []
          | _ => [8; 6]
          end)
  /\ (classifyPair a b <> LL ->
      legacyDash a b = nth_error (DASH_ALPHABET (classifyPair a b)) 0)
  /\ (classifyPair a b = LL ->
      forall d, legacyDash a b = Some d ->
                ~ In d (DASH_ALPHABET (classifyPair a b))).
Proof.
  rewrite legacyDash_class.
  split; [reflexivity|]. split.
  - intros H. destruct (classifyPair a b); try reflexivity. congruence.
  - intros -> d H. injection H as <-. simpl.
    intros [H|[H|[]]]; discriminate.
Qed.

Lemma legacyDash_by_class_witness :
  legacyDash "a" "B" = Some [8; 6]
  /\ ~ In [8; 6] (DASH_ALPHABET (classifyPair "a" "b")).
Proof.
  split.
  - destruct (legacyDash_by_class "a" "B") as (_ & H & _).
    rewrite H; [reflexivity|vm_compute; discriminate].
  - destruct (legacyDash_by_class "a" "b") as (_ & _ & H).
    apply H; reflexivity.
Defined.

(** With two choices, a draw below one half takes the first pattern, a
    draw from one half and below 1 the second, and a draw of exactly 1
    wraps to the first again; with one choice the index is always 0. *)
Theorem dashIndex_thresholds (draw : Q) :
  (0 <= draw)%Q -> (draw <= 1)%Q ->
  dashIndex draw 1 = 0
  /\ dashIndex draw 2
     = (if Qlt_le_dec draw (1 # 2) then 0
        else if Qlt_le_dec draw 1 then 1 else 0).
Proof.
  intros H0 H1. unfold dashIndex. split.
  - apply Z.rem_1_r.
  - assert (Hfl : forall k, (inject_Z k <= draw * inject_Z 2)%Q ->
                            (draw * inject_Z 2 < inject_Z (k + 1))%Q ->
                            Qfloor (draw * inject_Z 2) = k).
    { intros k Hlo Hhi.
      pose proof (Qfloor_le (draw * inject_Z 2)) as Hf1.
      pose proof (Qlt_floor (draw * inject_Z 2)) as Hf2.
      assert (A : (inject_Z k < inject_Z (Qfloor (draw * inject_Z 2) + 1))%Q)
        by (eapply Qle_lt_trans; eassumption).
      assert (B : (inject_Z (Qfloor (draw * inject_Z 2)) < inject_Z (k + 1))%Q)
        by (eapply Qle_lt_trans; eassumption).
      rewrite <- Zlt_Qlt in A, B. lia. }
    unfold Qlt, Qle in *. cbn [Qnum Qden inject_Z] in *.
    destruct draw as [n d]. cbn [Qnum Qden] in *.
    destruct (Qlt_le_dec (n # d) (1 # 2)) as [L|L];
      [|destruct (Qlt_le_dec (n # d) 1) as [L'|L']];
      unfold Qlt, Qle in L; try unfold Qlt, Qle in L';
      cbn [Qnum Qden] in *.
    + rewrite (Hfl 0); [reflexivity| |];
        unfold Qle, Qlt, Qmult; cbn [Qnum Qden inject_Z]; lia.
    + rewrite (Hfl 1); [reflexivity| |];
        unfold Qle, Qlt, Qmult; cbn [Qnum Qden inject_Z]; lia.
    + rewrite (Hfl 2); [reflexivity| |];
        unfold Qle, Qlt, Qmult; cbn [Qnum Qden inject_Z]; lia.
Qed.

Lemma dashIndex_thresholds_witness :
  dashIndex (3 # 4) 2 = 1 /\ dashIndex 1 2 = 0.
Proof.
  split.
  - destruct (dashIndex_thresholds (3 # 4)) as [_ H].
    + vm_compute. discriminate.
    + vm_compute. discriminate.
    + rewrite H. reflexivity.
  - destruct (dashIndex_thresholds 1) as [_ H].
    + vm_compute. discriminate.
    + vm_compute. discriminate.
    + rewrite H. reflexivity.
Defined.

(* ================================================================= *)
(** ** The segments in closed form *)

Lemma rngState_S n : forall x,
  rngState (S n) x = snd (rngNext (rngState n x)).
Proof.
  induction n as [|n IH]; intros x; [reflexivity|].
  change (rngState (S (S n)) x) with (rngState (S n) (snd (rngNext x))).
  rewrite IH. reflexivity.
Qed.

Lemma segmentBody_at colorOf pts uda ucr seed i segs p1 p2 :
  nth_error pts i = Some p1 ->
  nth_error pts (i + 1) = Some p2 ->
  exists s,
    segmentAt colorOf pts uda ucr seed i = Some s
    /\ segmentBody colorOf pts uda ucr i (segs, streamAt uda seed i)
       = Ok (push segs s, streamAt uda seed (S i)).
Proof.
  intros H1 H2. unfold segmentBody, segmentAt.
  rewrite H1, H2. cbn [deref bind].
  assert (H0 : (if 0 <=? Z.of_nat i - 1 then nth_error pts (i - 1) else Some p1)
               = Some (fst (clampedNeighbours pts i p1 p2))).
  { unfold clampedNeighbours. cbn [fst]. destruct i as [|j].
    - reflexivity.
    - replace (0 <=? Z.of_nat (S j) - 1) with true
        by (symmetry; apply Z.leb_le; lia).
      replace (S j - 1)%nat with j by lia.
      apply nth_error_nth'.
      assert (nth_error pts (S j) <> None) by congruence.
      apply nth_error_Some in H. lia. }
  assert (H3 : (if (i + 2 <? List.length pts)%nat
                then nth_error pts (i + 2) else Some p2)
               = Some (snd (clampedNeighbours pts i p1 p2))).
  { unfold clampedNeighbours. cbn [snd].
    destruct (i + 2 <? List.length pts)%nat eqn:E.
    - apply Nat.ltb_lt in E. now apply nth_error_nth'.
    - apply Nat.ltb_ge in E. now rewrite nth_overflow. }
  rewrite H0, H3.
  unfold dashForPair, dashAt, pathAt, streamAt.
  rewrite rngNth_rngState, rngState_S. cbn [rngNext fst snd].
  destruct uda, ucr; cbn [negb deref bind fst snd]; eexists; split;
    reflexivity.
Qed.

Lemma forLoop_at colorOf pts uda ucr seed n : forall i segs,
  (i + n + 1 <= List.length pts)%nat ->
  exists segs',
    forLoop (segmentBody colorOf pts uda ucr) i n (segs, streamAt uda seed i)
    = Ok (segs', streamAt uda seed (i + n))
    /\ map Some segs'
       = (map Some segs
            ++ map (segmentAt colorOf pts uda ucr seed) (seq i n))%list.
Proof.
  induction n as [|n IH]; intros i segs Hlen.
  - exists segs. rewrite Nat.add_0_r. split; [reflexivity|].
    simpl. now rewrite app_nil_r.
  - destruct (nth_error pts i) as [p1|] eqn:E1;
      [|apply nth_error_None in E1; lia].
    destruct (nth_error pts (i + 1)) as [p2|] eqn:E2;
      [|apply nth_error_None in E2; lia].
    destruct (segmentBody_at colorOf pts uda ucr seed i segs p1 p2 E1 E2)
      as (s & Hat & Hs).
    cbn [forLoop]. rewrite Hs. cbn [bind].
    destruct (IH (S i) (push segs s)) as (segs' & Hloop & Hmap); [lia|].
    exists segs'. split.
    + rewrite Hloop. do 3 f_equal. lia.
    + rewrite Hmap. unfold push. rewrite map_app. cbn [map seq].
      rewrite Hat. now rewrite <- app_assoc.
Qed.

(** [segments] returns the list of the segments at the indices
    [0 .. k-2] of the resolved points. *)
Lemma segmentsWith_at colorOf l name uda ucr :
  exists segs,
    segmentsWith colorOf l name uda ucr = Ok segs
    /\ map Some segs
       = map (segmentAt colorOf (resolve l name) uda ucr (seedOf l name))
             (seq 0 (List.length (resolve l name) - 1)).
Proof.
  unfold segmentsWith.
  destruct name as [|c name].
  - exists []. split; reflexivity.
  - set (nm := String c name).
    set (pts := resolve l nm).
    destruct (List.length pts <? 2)%nat eqn:E.
    + exists []. split; [reflexivity|].
      apply Nat.ltb_lt in E.
      replace (List.length pts - 1)%nat with 0%nat by lia. reflexivity.
    + apply Nat.ltb_ge in E.
      destruct (forLoop_at colorOf pts uda ucr (seedOf l nm)
                           (List.length pts - 1) 0 [])
        as (segs & Hloop & Hmap); [lia|].
      assert (E0 : streamAt uda (seedOf l nm) 0 = seedOf l nm)
        by (unfold streamAt; now destruct uda).
      rewrite E0 in Hloop. unfold seedOf in Hloop at 1.
      rewrite Hloop. cbn [bind fst].
      exists segs. split; [reflexivity|exact Hmap].
Qed.

Lemma map_Some_inj {A} (l1 l2 : list A) :
  map Some l1 = map Some l2 -> l1 = l2.
Proof.
  revert l2. induction l1 as [|a l1 IH]; intros [|b l2] H;
    try discriminate; [reflexivity|].
  cbn [map] in H. injection H as -> H. f_equal. now apply IH.
Qed.

(** A map over the indices of the consecutive pairs of a list is a map over
    the pairs themselves, each with its index. *)
Lemma seq_adjacent {A B} (g : nat -> A -> A -> B) (l : list A) : forall j,
  map (fun i => match nth_error l (i - j), nth_error l (i - j + 1) with
                | Some a, Some b => Some (g i a b)
                | _, _ => None
                end)
      (seq j (List.length l - 1))
  = map (fun p => Some (g (fst p) (fst (snd p)) (snd (snd p))))
        (combine (seq j (List.length l - 1)) (adjacent l)).
Proof.
  induction l as [|a [|b r] IH]; intros j; try reflexivity.
  replace (List.length (a :: b :: r) - 1)%nat
    with (S (List.length (b :: r) - 1)) by (simpl; lia).
  change (adjacent (a :: b :: r)) with ((a, b) :: adjacent (b :: r)).
  set (n := (List.length (b :: r) - 1)%nat) in *.
  change (seq j (S n)) with (j :: seq (S j) n).
  cbn [combine map fst snd].
  rewrite Nat.sub_diag. cbn [nth_error Nat.add]. f_equal.
  rewrite <- (IH (S j)).
  apply map_ext_in. intros i Hi. apply in_seq in Hi.
  replace (i - j)%nat with (S (i - S j)) by lia.
  cbn [nth_error Nat.add]. reflexivity.
Qed.

Lemma combine_seq_adjacent_length {A} (l : list A) j :
  List.length (combine (seq j (List.length l - 1)) (adjacent l))
  = (List.length l - 1)%nat.
Proof.
  rewrite length_combine, length_seq, adjacent_length. lia.
Qed.

Lemma map_snd_combine {A B} (l1 : list A) (l2 : list B) :
  List.length l1 = List.length l2 -> map snd (combine l1 l2) = l2.
Proof.
  revert l2. induction l1 as [|a l1 IH]; intros [|b l2] H;
    try discriminate; [reflexivity|].
  cbn [combine map snd]. f_equal. apply IH. simpl in H. lia.
Qed.

(** The segment of the pair [(p1, p2)] at index [i]. *)
Lemma segmentsWith_pairs colorOf l name uda ucr :
  exists segs,
    segmentsWith colorOf l name uda ucr = Ok segs
    /\ segs
       = map (fun q =>
                RenderSeg.mk
                  (pathAt ucr (resolve l name) (fst q)
                          (fst (snd q)) (snd (snd q)))
                  (dashAt uda (seedOf l name) (fst q)
                          (Pt.ch (fst (snd q))) (Pt.ch (snd (snd q))))
                  (colorOf (Pt.ch (fst (snd q))) (Pt.ch (snd (snd q)))
                           (hypot (Pt.x (snd (snd q)) - Pt.x (fst (snd q)))
                                  (Pt.y (snd (snd q)) - Pt.y (fst (snd q)))))
                  (featAt (fst (snd q)) (snd (snd q))))
             (combine (seq 0 (List.length (resolve l name) - 1))
                      (adjacent (resolve l name))).
Proof.
  destruct (segmentsWith_at colorOf l name uda ucr) as (segs & Hs & Hm).
  exists segs. split; [exact Hs|].
  apply map_Some_inj. rewrite Hm, map_map.
  unfold segmentAt.
  pose proof (seq_adjacent
                (fun i p1 p2 =>
                   RenderSeg.mk
                     (pathAt ucr (resolve l name) i p1 p2)
                     (dashAt uda (seedOf l name) i (Pt.ch p1) (Pt.ch p2))
                     (colorOf (Pt.ch p1) (Pt.ch p2)
                              (hypot (Pt.x p2 - Pt.x p1) (Pt.y p2 - Pt.y p1)))
                     (featAt p1 p2))
                (resolve l name) 0) as H.
  cbn beta in H. rewrite <- H.
  apply map_ext. intros i. now rewrite Nat.sub_0_r.
Qed.

Lemma rngNth_bounds n x :
  0 < x < 2 ^ 32 -> (0 <= rngNth n x)%Q /\ (rngNth n x <= 1)%Q.
Proof.
  intros Hx. rewrite rngNth_rngState.
  pose proof (rngState_range n x Hx) as Hs.
  pose proof (xorshift_nonzero _ Hs) as Hx'.
  unfold rngNext. cbn [fst]. rewrite u32_small by lia.
  unfold Qle. cbn [Qnum Qden].
  change (Z.pos (Z.to_pos MAX_U32)) with (2 ^ 32 - 1).
  change (2 ^ 32) with 4294967296 in *. lia.
Qed.

Lemma seedOf_range l name : 0 < seedOf l name < 2 ^ 32.
Proof. apply makeRng_range. Qed.

Lemma dashAt_defined uda seed i a b :
  0 < seed < 2 ^ 32 ->
  exists d,
    dashAt uda seed i a b = Some d
    /\ In d (if uda then DASH_ALPHABET (classifyPair a b)
             else [[1; 8]; []; [8; 6]]).
Proof.
  intros Hseed. unfold dashAt. destruct uda.
  - set (choices := DASH_ALPHABET (classifyPair a b)).
    set (n := Z.of_nat (List.length choices)).
    assert (Hn : 0 < n).
    { unfold n, choices.
      destruct (DASH_ALPHABET_size (classifyPair a b)) as [-> | ->]; lia. }
    destruct (rngNth_bounds i seed Hseed) as [H0 H1].
    pose proof (dashIndex_bounds (rngNth i seed) n Hn H0 H1) as Hb.
    destruct (nth_error choices (Z.to_nat (dashIndex (rngNth i seed) n)))
      as [d|] eqn:E.
    + exists d. split; [|eapply nth_error_In; exact E].
      unfold elemAt.
      replace (dashIndex (rngNth i seed) n <? 0) with false
        by (symmetry; apply Z.ltb_ge; lia).
      exact E.
    + apply nth_error_None in E. unfold n in *. lia.
  - rewrite legacyDash_class. eexists. split; [reflexivity|].
    destruct (classifyPair a b); simpl; auto.
Qed.

(* ================================================================= *)
(** ** Dashes, paths and colours of the segments *)

(** The dash of the segment of index [i] is chosen by the draw of index
    [i] of the stream seeded with the name and the layout: one draw for
    each segment, in the order of the segments, whatever the curve mode;
    in legacy mode it is the legacy dash of the pair and no draw is made.
    Every dash is defined, and in the alphabet of the class of its
    segment. *)
Theorem segments_dashes
        (l : KeyboardLayout) (name : string) (useDashAlphabet useCatmullRom : bool) :
  exists segs,
    segments l name useDashAlphabet useCatmullRom = Ok segs
    /\ map RenderSeg.dash segs
       = map (fun q => dashAt useDashAlphabet (seedOf l name) (fst q)
                              (Pt.ch (fst (snd q))) (Pt.ch (snd (snd q))))
             (combine (seq 0 (List.length (resolve l name) - 1))
                      (adjacent (resolve l name)))
    /\ Forall (fun s =>
                 exists d,
                   RenderSeg.dash s = Some d
                   /\ In d (if useDashAlphabet
                            then DASH_ALPHABET (CodecSeg.cls (RenderSeg.feat s))
                            else [[1; 8]; []; [8; 6]]))
              segs.
Proof.
  destruct (segmentsWith_pairs colorForPair l name useDashAlphabet useCatmullRom)
    as (segs & Hs & Hsegs).
  exists segs. split; [exact Hs|]. split.
  - rewrite Hsegs, map_map. reflexivity.
  - rewrite Hsegs. apply Forall_map. apply Forall_forall. intros q _.
    cbn [RenderSeg.dash RenderSeg.feat featAt CodecSeg.cls].
    apply dashAt_defined. apply seedOf_range.
Qed.

Lemma map_combine_snd {A B C} (h : B -> C) (l1 : list A) (l2 : list B) :
  List.length l1 = List.length l2 ->
  map (fun q => h (snd q)) (combine l1 l2) = map h l2.
Proof.
  intros H. rewrite <- (map_map snd h). now rewrite map_snd_combine.
Qed.

Lemma seq_adjacent_length {A} (l : list A) j :
  List.length (seq j (List.length l - 1)) = List.length (adjacent l).
Proof. now rewrite length_seq, adjacent_length. Qed.

(** Consecutive elements whose ends are those of the consecutive pairs of a
    list of points chain: each ends where the next starts. *)
Lemma adjacent_chain {S P E} (ends : S -> E * E) (f : P -> E) (pts : list P) :
  forall segs,
    map ends segs = map (fun p => (f (fst p), f (snd p))) (adjacent pts) ->
    Forall (fun q => snd (ends (fst q)) = fst (ends (snd q))) (adjacent segs).
Proof.
  induction pts as [|a [|b [|c r]] IH]; intros segs H.
  - destruct segs; [constructor|discriminate].
  - destruct segs; [constructor|discriminate].
  - destruct segs as [|s [|s' segs]]; try discriminate; constructor.
  - destruct segs as [|s [|s' segs]]; try discriminate.
    assert (Hhead : ends s = (f a, f b)) by (simpl in H; congruence).
    assert (Htail : map ends (s' :: segs)
                    = map (fun p => (f (fst p), f (snd p)))
                          (adjacent (b :: c :: r)))
      by (simpl in H |- *; congruence).
    assert (Hhead' : ends s' = (f b, f c)) by (simpl in Htail; congruence).
    change (adjacent (s :: s' :: segs)) with ((s, s') :: adjacent (s' :: segs)).
    constructor.
    + cbn [fst snd]. now rewrite Hhead, Hhead'.
    + apply IH. exact Htail.
Qed.

(** The path of each segment starts at the first and ends at the second of
    its two resolved points, in straight and in Catmull-Rom mode alike: the
    paths chain, each one ending where the next starts. In straight mode a
    path is the line between the two points. *)
Theorem segments_paths
        (l : KeyboardLayout) (name : string) (useDashAlphabet useCatmullRom : bool) :
  exists segs,
    segments l name useDashAlphabet useCatmullRom = Ok segs
    /\ map (fun s => (pathStart (RenderSeg.d s), pathEnd (RenderSeg.d s))) segs
       = map (fun p => ((Pt.x (fst p), Pt.y (fst p)),
                        (Pt.x (snd p), Pt.y (snd p))))
             (adjacent (resolve l name))
    /\ Forall (fun q => pathEnd (RenderSeg.d (fst q))
                        = pathStart (RenderSeg.d (snd q)))
              (adjacent segs)
    /\ (if useCatmullRom then True
        else map RenderSeg.d segs
             = map (fun p => MoveLine (Pt.x (fst p)) (Pt.y (fst p))
                                      (Pt.x (snd p)) (Pt.y (snd p)))
                   (adjacent (resolve l name))).
Proof.
  destruct (segmentsWith_pairs colorForPair l name useDashAlphabet useCatmullRom)
    as (segs & Hs & Hsegs).
  exists segs. split; [exact Hs|].
  assert (Hends :
    map (fun s => (pathStart (RenderSeg.d s), pathEnd (RenderSeg.d s))) segs
    = map (fun p => ((Pt.x (fst p), Pt.y (fst p)),
                     (Pt.x (snd p), Pt.y (snd p))))
          (adjacent (resolve l name))).
  { rewrite Hsegs, map_map. cbn [RenderSeg.d].
    rewrite <- (map_combine_snd
                  (fun p => ((Pt.x (fst p), Pt.y (fst p)),
                             (Pt.x (snd p), Pt.y (snd p))))
                  (seq 0 (List.length (resolve l name) - 1))
                  (adjacent (resolve l name)))
      by apply seq_adjacent_length.
    apply map_ext. intros q. unfold pathAt.
    destruct useCatmullRom; reflexivity. }
  split; [exact Hends|]. split.
  - apply (adjacent_chain
             (fun s => (pathStart (RenderSeg.d s), pathEnd (RenderSeg.d s)))
             (fun p => (Pt.x p, Pt.y p)) (resolve l name)).
    exact Hends.
  - destruct useCatmullRom; [exact I|].
    rewrite Hsegs, map_map. cbn [RenderSeg.d pathAt].
    apply map_combine_snd
      with (h := fun p => MoveLine (Pt.x (fst p)) (Pt.y (fst p))
                                   (Pt.x (snd p)) (Pt.y (snd p))).
    apply seq_adjacent_length.
Qed.

(* ================================================================= *)
(** ** Colours *)

Open Scope R_scope.

Lemma clamp_range v lo hi : lo <= hi -> lo <= clamp v lo hi <= hi.
Proof.
  intros H. unfold clamp. split.
  - apply Rmax_l.
  - apply Rmax_lub; [exact H|apply Rmin_l].
Qed.

Lemma jsRound_range v (a b : Z) :
  IZR a <= v <= IZR b -> (a <= jsRound v <= b)%Z.
Proof.
  intros [Ha Hb]. unfold jsRound.
  pose proof (Zfloor_bound (v + / 2)) as [Hl Hu].
  split.
  - apply Zfloor_lub. lra.
  - assert (IZR (Zfloor (v + / 2)) < IZR (b + 1)).
    { rewrite plus_IZR. lra. }
    apply lt_IZR in H. lia.
Qed.

Lemma jsRound_mono v w : v <= w -> (jsRound v <= jsRound w)%Z.
Proof. intros H. unfold jsRound. apply Zfloor_le. lra. Qed.

Close Scope R_scope.

(** The colour of a pair is [hsl(h deg s% l%)] with the hue [h] the hash of
    the two characters and the class label modulo 360, the saturation [s]
    that of the class, and the lightness [l] within 6 of that of the class:
    6 below it for a length of 0 or less, 6 above it from the length 120
    on, and never lower for a longer segment. The two clamps of the
    percentages, to 30..80 and to 20..80, never change a value. *)
Theorem colorForPair_range (prev curr : string) :
  let k := classifyPair prev curr in
  let s := fst (colorBase k) in
  let base := snd (colorBase k) in
  exists (hue : Z) (light : R -> Z),
    (forall pxLen,
        colorForPair prev curr pxLen
        = "hsl(" ++ toString10 hue ++ "deg " ++ toString10 s ++ "% "
                 ++ toString10 (light pxLen) ++ "%)")
    /\ hue = hash32 (prev ++ curr ++ "|" ++ classLabel k) mod 360
    /\ 0 <= hue < 360
    /\ 30 < s < 80
    /\ (forall pxLen, base - 6 <= light pxLen <= base + 6)
    /\ (forall pxLen, 20 < light pxLen < 80)
    /\ (forall pxLen, (pxLen <= 0)%R -> light pxLen = base - 6)
    /\ (forall pxLen, (120 <= pxLen)%R -> light pxLen = base + 6)
    /\ (forall shorter longer,
           (shorter <= longer)%R -> light shorter <= light longer).
Proof.
  intros k s base.
  set (delta := fun len => jsRound (clamp len 0 120 / 120 * 12) - 6).
  assert (Hd : forall len, -6 <= delta len <= 6).
  { intros len. unfold delta.
    pose proof (clamp_range len 0 120 ltac:(lra)) as Hc.
    pose proof (jsRound_range (clamp len 0 120 / 120 * 12) 0 12
                  ltac:(lra)). lia. }
  assert (Hl : forall len,
             clampZ (base + delta len) 20 80 = base + delta len).
  { intros len. specialize (Hd len). unfold clampZ, base.
    destruct k; cbn [colorBase snd] in *; lia. }
  assert (Hs : clampZ (fst (colorBase k)) 30 80 = s).
  { unfold s, clampZ. destruct k; reflexivity. }
  pose proof (hash32_range (prev ++ curr ++ "|" ++ classLabel k)) as Hh.
  exists (hash32 (prev ++ curr ++ "|" ++ classLabel k) mod 360),
    (fun len => base + delta len).
  split; [|split; [reflexivity|split; [apply Z.mod_pos_bound; lia|]]].
  - intros pxLen. unfold colorForPair. fold k. fold base. fold (delta pxLen).
    rewrite Hs, Hl. rewrite Z.rem_mod_nonneg by lia. reflexivity.
  - split; [unfold s; destruct k; cbn; lia|].
    split; [intros len; specialize (Hd len); lia|].
    split; [intros len; specialize (Hd len); unfold base;
            destruct k; cbn [colorBase snd]; lia|].
    split; [|split].
    + intros len Hle. unfold delta, clamp.
      rewrite (Rmin_right 120 len) by lra.
      rewrite Rmax_left by lra.
      replace (0 / 120 * 12)%R with (IZR 0) by lra.
      rewrite jsRound_IZR. lia.
    + intros len Hge. unfold delta, clamp.
      rewrite (Rmin_left 120 len) by lra.
      rewrite Rmax_right by lra.
      replace (120 / 120 * 12)%R with (IZR 12) by lra.
      rewrite jsRound_IZR. lia.
    + intros shorter longer Hle.
      apply Z.add_le_mono_l. apply Z.sub_le_mono_r.
      apply jsRound_mono.
      apply Rmult_le_compat_r; [lra|].
      apply Rmult_le_compat_r; [lra|].
      unfold clamp. apply Rle_max_compat_l.
      apply Rle_min_compat_l. exact Hle.
Qed.

Lemma colorForPair_range_witness :
  exists hue,
    colorForPair "a" "b" 200
    = "hsl(" ++ toString10 hue ++ "deg 55% 54%)"
    /\ 0 <= hue < 360.
Proof.
  destruct (colorForPair_range "a" "b")
    as (hue & light & Hc & _ & Hh & _ & _ & _ & _ & Hmax & _).
  exists hue. split; [|exact Hh].
  rewrite Hc. rewrite (Hmax 200%R) by lra. reflexivity.
Defined.

(* ================================================================= *)
(** ** What the hash tells apart *)










Lemma list_ascii_app s t :
  list_ascii_of_string (s ++ t)
  = (list_ascii_of_string s ++ list_ascii_of_string t)%list.
Proof. induction s as [|c s IH]; simpl; [reflexivity|now rewrite IH]. Qed.








(* ================================================================= *)
(** ** escapeXml *)

Lemma escapeXml_app s t : escapeXml (s ++ t) = escapeXml s ++ escapeXml t.
Proof.
  induction s as [|c s IH]; [reflexivity|].
  cbn [append escapeXml]. rewrite IH.
  destruct (entityOf c); [now rewrite append_assoc|reflexivity].
Qed.

Lemma occurs_app c s t : occurs c (s ++ t) = occurs c s || occurs c t.
Proof.
  induction s as [|a s IH]; [reflexivity|].
  cbn [append occurs]. now rewrite IH, orb_assoc.
Qed.

Lemma entity_chars c e :
  entityOf c = Some e ->
  occurs "<" e = false /\ occurs ">" e = false
  /\ occurs "'" e = false /\ occurs dquote e = false
  /\ (1 < String.length e)%nat.
Proof.
  destruct c as [[] [] [] [] [] [] [] []]; vm_compute; intros H;
    try discriminate H; injection H as <-; repeat split; lia.
Qed.

Lemma plain_chars c :
  entityOf c = None ->
  Ascii.eqb "<" c = false /\ Ascii.eqb ">" c = false
  /\ Ascii.eqb "'" c = false /\ Ascii.eqb dquote c = false
  /\ Ascii.eqb "&" c = false.
Proof.
  destruct c as [[] [] [] [] [] [] [] []]; vm_compute; intros H;
    try discriminate H; repeat split.
Qed.

Lemma escapeXml_length s :
  (String.length s <= String.length (escapeXml s))%nat
  /\ (anySpecial s = true ->
      (String.length s < String.length (escapeXml s))%nat).
Proof.
  induction s as [|c s [IH1 IH2]]; [split; [reflexivity|discriminate]|].
  cbn [escapeXml anySpecial]. unfold special.
  destruct (entityOf c) as [e|] eqn:E.
  - destruct (entity_chars c e E) as (_ & _ & _ & _ & He).
    rewrite append_length. cbn [String.length]. split; [lia|]. intros _; lia.
  - cbn [String.length orb]. split; [lia|]. intros H. apply IH2 in H. lia.
Qed.

Lemma escapeXml_plain s : anySpecial s = false -> escapeXml s = s.
Proof.
  induction s as [|c s IH]; [reflexivity|].
  cbn [anySpecial escapeXml]. unfold special.
  destruct (entityOf c); [discriminate|].
  cbn [orb]. intros H. now rewrite IH.
Qed.

Lemma escapeXml_amp s :
  anySpecial s = true -> occurs "&" (escapeXml s) = true.
Proof.
  induction s as [|c s IH]; [discriminate|].
  cbn [anySpecial escapeXml]. unfold special.
  destruct (entityOf c) as [e|] eqn:E.
  - intros _. rewrite occurs_app.
    replace (occurs "&" e) with true; [reflexivity|].
    revert E. destruct c as [[] [] [] [] [] [] [] []]; vm_compute;
      intros H; try discriminate H; now injection H as <-.
  - cbn [orb occurs]. intros H. rewrite IH by exact H. apply orb_true_r.
Qed.

Lemma anySpecial_amp s : occurs "&" s = true -> anySpecial s = true.
Proof.
  induction s as [|c s IH]; [discriminate|].
  cbn [occurs anySpecial]. intros H. apply orb_prop in H.
  destruct H as [H|H].
  - apply Ascii.eqb_eq in H. subst c. reflexivity.
  - rewrite IH by exact H. apply orb_true_r.
Qed.

(** Of the five characters, only the ampersand is left in an escaped text,
    so that the text can stand in an element and in an attribute with either
    quote. Escaping goes piece by piece, loses nothing (two texts with the
    same escaped form are equal), never shortens, and leaves a text as it is
    exactly when none of the five characters occurs in it; hence escaping
    twice is escaping once only for such a text. *)
Theorem escapeXml_output (s t : string) :
  escapeXml (s ++ t) = escapeXml s ++ escapeXml t
  /\ occurs "<" (escapeXml s) = false
  /\ occurs ">" (escapeXml s) = false
  /\ occurs "'" (escapeXml s) = false
  /\ occurs dquote (escapeXml s) = false
  /\ (escapeXml s = escapeXml t -> s = t)
  /\ (String.length s <= String.length (escapeXml s))%nat
  /\ (escapeXml s = s <-> anySpecial s = false)
  /\ (escapeXml (escapeXml s) = escapeXml s <-> anySpecial s = false).
Proof.
  split; [apply escapeXml_app|].
  assert (Hocc : occurs "<" (escapeXml s) = false
                 /\ occurs ">" (escapeXml s) = false
                 /\ occurs "'" (escapeXml s) = false
                 /\ occurs dquote (escapeXml s) = false).
  { induction s as [|c s IH]; [repeat split|].
    cbn [escapeXml]. destruct (entityOf c) as [e|] eqn:E.
    - destruct (entity_chars c e E) as (H1 & H2 & H3 & H4 & _).
      destruct IH as (I1 & I2 & I3 & I4).
      rewrite !occurs_app, H1, H2, H3, H4, I1, I2, I3, I4. repeat split.
    - destruct (plain_chars c E) as (H1 & H2 & H3 & H4 & _).
      destruct IH as (I1 & I2 & I3 & I4).
      cbn [occurs]. rewrite H1, H2, H3, H4, I1, I2, I3, I4. repeat split. }
  destruct Hocc as (H1 & H2 & H3 & H4).
  assert (Hfix : forall u, escapeXml u = u <-> anySpecial u = false).
  { intros u. split; [|apply escapeXml_plain].
    intros H. destruct (anySpecial u) eqn:E; [|reflexivity].
    apply escapeXml_length in E. rewrite H in E. lia. }
  repeat (split; [assumption|]).
  split.
  { intros H. rewrite <- (unescapeXml_escapeXml s), H.
    apply unescapeXml_escapeXml. }
  split; [apply escapeXml_length|].
  split; [apply Hfix|].
  rewrite Hfix. split.
  - intros H. destruct (anySpecial s) eqn:E; [|reflexivity].
    apply escapeXml_amp, anySpecial_amp in E. congruence.
  - intros H. now rewrite escapeXml_plain.
Qed.

(* ================================================================= *)
(** ** Keys on the canvas *)

Lemma keyboardLayouts_grid l :
  keyboardLayouts l = map (fun e => (fst e, gridKey (snd e))) (layoutGrid l).
Proof.
  destruct l. unfold keyboardLayouts, layoutGrid, gridKey.
  cbn [map fst snd].
  repeat (apply f_equal2;
          [apply f_equal2; [reflexivity|apply f_equal2; lra]|]).
  reflexivity.
Qed.

Lemma lookup_map {A B} (f : A -> B) key (tbl : list (string * A)) :
  lookup key (map (fun e => (fst e, f (snd e))) tbl)
  = option_map f (lookup key tbl).
Proof.
  induction tbl as [|[k v] r IH]; [reflexivity|].
  cbn [map lookup fst snd]. destruct (String.eqb k key); [reflexivity|exact IH].
Qed.

Lemma lookup_In {A} key (tbl : list (string * A)) v :
  lookup key tbl = Some v -> In (key, v) tbl.
Proof.
  induction tbl as [|[k w] r IH]; [discriminate|].
  cbn [lookup]. destruct (String.eqb k key) eqn:E.
  - apply String.eqb_eq in E. intros [= ->]. subst. now left.
  - intros H. right. now apply IH.
Qed.

Lemma getKeyCenter_keyOf l ch :
  getKeyCenter l ch
  = match ch with
    | EmptyString => None
    | _ => option_map (fun k => centreOf l k ch)
                      (lookup (keyOf ch) (keyboardLayouts l))
    end.
Proof.
  unfold getKeyCenter, keyOf, centreOf. destruct ch; [reflexivity|].
  destruct (lookup _ _); reflexivity.
Qed.

Lemma toUpperCase_length s : String.length (toUpperCase s) = String.length s.
Proof. induction s as [|c s IH]; simpl; [reflexivity|now rewrite IH]. Qed.

Lemma keyOf_length c : String.length (keyOf c) = String.length c.
Proof.
  unfold keyOf. destruct (existsb _ _); [apply toUpperCase_length|reflexivity].
Qed.

Lemma grid_keys_single l :
  Forall (fun e => String.length (fst e) = 1%nat) (layoutGrid l).
Proof. destruct l. repeat constructor. Qed.

(** A character that has a key centre is one character, and its key is in
    the grid. *)
Lemma getKeyCenter_grid l ch p :
  getKeyCenter l ch = Some p ->
  exists c g,
    ch = str1 c
    /\ lookup (keyOf ch) (layoutGrid l) = Some g
    /\ p = centreOf l (gridKey g) ch.
Proof.
  rewrite getKeyCenter_keyOf, keyboardLayouts_grid, lookup_map.
  destruct ch as [|c r]; [discriminate|].
  destruct (lookup _ (layoutGrid l)) as [g|] eqn:E; [|discriminate].
  intros [= <-].
  pose proof (lookup_In _ _ _ E) as Hin.
  pose proof (grid_keys_single l) as Hs.
  rewrite Forall_forall in Hs. specialize (Hs _ Hin). cbn [fst] in Hs.
  rewrite keyOf_length in Hs.
  destruct r; [|discriminate Hs].
  exists c, g. repeat split.
Qed.

Lemma fold_Rmin_le r : forall a,
  (fold_left Rmin r a <= a)%R
  /\ forall v, In v r -> (fold_left Rmin r a <= v)%R.
Proof.
  induction r as [|b r IH]; intros a; cbn [fold_left].
  - split; [lra|intros v []].
  - destruct (IH (Rmin a b)) as [H1 H2].
    pose proof (Rmin_l a b). pose proof (Rmin_r a b).
    split; [lra|]. intros v [<-|Hv]; [lra|now apply H2].
Qed.

Lemma fold_Rmax_ge r : forall a,
  (a <= fold_left Rmax r a)%R
  /\ forall v, In v r -> (v <= fold_left Rmax r a)%R.
Proof.
  induction r as [|b r IH]; intros a; cbn [fold_left].
  - split; [lra|intros v []].
  - destruct (IH (Rmax a b)) as [H1 H2].
    pose proof (Rmax_l a b). pose proof (Rmax_r a b).
    split; [lra|]. intros v [<-|Hv]; [lra|now apply H2].
Qed.

Lemma minOf_maxOf_bounds xs v : In v xs -> (minOf xs <= v <= maxOf xs)%R.
Proof.
  destruct xs as [|a r]; [intros []|].
  unfold minOf, maxOf.
  destruct (fold_Rmin_le r a) as [H1 H2].
  destruct (fold_Rmax_ge r a) as [H3 H4].
  intros [<-|Hv]; [lra|]. split; [now apply H2|now apply H4].
Qed.

Lemma keyOf_case l c g :
  lookup (keyOf (str1 c)) (layoutGrid l) = Some g ->
  keyOf (toLowerCase (str1 c)) = keyOf (str1 c)
  /\ keyOf (toUpperCase (str1 c)) = keyOf (str1 c).
Proof.
  destruct l. destruct c as [[] [] [] [] [] [] [] []]; vm_compute;
    intros H; try discriminate H; split; reflexivity.
Qed.

(** Every key centre lies on the canvas, half a key and the padding away
    from each border, so that the whole key is inside the padding; the
    point keeps the character as it was typed; and a letter has the same
    centre in both cases. *)
Theorem getKeyCenter_on_canvas (l : KeyboardLayout) (ch : string) (p : Pt.t)
        (H : getKeyCenter l ch = Some p) :
  Pt.ch p = ch
  /\ (PAD_X + KEY_W / 2 <= Pt.x p <= WIDTH l - PAD_X - KEY_W / 2)%R
  /\ (PAD_Y + KEY_H / 2 <= Pt.y p <= HEIGHT l - PAD_Y - KEY_H / 2)%R
  /\ getKeyCenter l (toLowerCase ch)
     = Some (Pt.mk (Pt.x p) (Pt.y p) (toLowerCase ch))
  /\ getKeyCenter l (toUpperCase ch)
     = Some (Pt.mk (Pt.x p) (Pt.y p) (toUpperCase ch)).
Proof.
  assert (Hk : exists c k g,
             ch = str1 c /\ lookup (keyOf ch) (keyboardLayouts l) = Some k
             /\ lookup (keyOf ch) (layoutGrid l) = Some g
             /\ p = centreOf l k ch).
  { rewrite getKeyCenter_keyOf in H. destruct ch as [|c r]; [discriminate|].
    destruct (getKeyCenter_grid l (String c r) p) as (c' & g & E & Hg & _).
    { now rewrite getKeyCenter_keyOf. }
    destruct (lookup _ (keyboardLayouts l)) as [k|]; [|discriminate].
    injection H as <-. exists c', k, g.
    split; [exact E|]. split; [reflexivity|]. split; [exact Hg|reflexivity]. }
  destruct Hk as (c & k & g & -> & Hl & Hg & ->).
  split; [reflexivity|].
  pose proof (lookup_In _ _ _ Hl) as Hin.
  assert (Hx : (minX l <= Key.x k <= maxX l)%R).
  { apply minOf_maxOf_bounds. unfold allKeys. rewrite map_map.
    apply (in_map (fun e => Key.x (snd e))) in Hin. exact Hin. }
  assert (Hy : (minY l <= Key.y k <= maxY l)%R).
  { apply minOf_maxOf_bounds. unfold allKeys. rewrite map_map.
    apply (in_map (fun e => Key.y (snd e))) in Hin. exact Hin. }
  unfold centreOf, WIDTH, HEIGHT, SHIFT_X, SHIFT_Y,
    KEY_SPACING, KEY_W, KEY_H, PAD_X, PAD_Y. cbn [Pt.x Pt.y].
  split; [lra|]. split; [lra|].
  destruct (keyOf_case l c g Hg) as [Elo Eup].
  rewrite !getKeyCenter_keyOf.
  split.
  - change (toLowerCase (str1 c)) with (str1 (lowerChar c)) in *.
    rewrite Elo, Hl. reflexivity.
  - change (toUpperCase (str1 c)) with (str1 (upperChar c)) in *.
    rewrite Eup, Hl. reflexivity.
Qed.

Lemma getKeyCenter_on_canvas_witness :
  getKeyCenter qwerty "a" = Some ptA
  /\ getKeyCenter qwerty "A" = Some (Pt.mk 91 162 "A").
Proof.
  assert (E : getKeyCenter qwerty "a" = Some ptA).
  { pose proof resolve_aq as H. unfold resolve in H.
    cbn [split list_ascii_of_string map] in H.
    destruct (getKeyCenter qwerty "a") as [p|]; [|].
    - destruct (getKeyCenter qwerty "q"); cbn [filterBoolean] in H;
        congruence.
    - destruct (getKeyCenter qwerty "q"); cbn [filterBoolean] in H;
        discriminate. }
  split; [exact E|].
  exact (proj2 (proj2 (proj2 (proj2
           (getKeyCenter_on_canvas qwerty "a" ptA E))))).
Defined.

(* ================================================================= *)
(** ** Two keys: repeated key, distance, reversal *)

Lemma hypot_ge (dx dy : R) :
  (Rabs dx <= hypot dx dy /\ Rabs dy <= hypot dx dy)%R.
Proof.
  unfold hypot.
  rewrite <- (sqrt_Rsqr_abs dx), <- (sqrt_Rsqr_abs dy).
  pose proof (Rle_0_sqr dx) as Hx. pose proof (Rle_0_sqr dy) as Hy.
  unfold Rsqr in *.
  split; apply sqrt_le_1_alt; lra.
Qed.

Lemma hypot_opp (dx dy : R) : hypot (- dx) (- dy) = hypot dx dy.
Proof. unfold hypot. f_equal. ring. Qed.

Lemma direction8_0_0 : direction8 0 0 = 0.
Proof.
  pose proof PI_RGT_0 as Hpi.
  unfold direction8, atan2.
  destruct (Rlt_dec 0 0) as [H|_]; [lra|].
  replace (0 / (PI / 4))%R with (IZR 0) by (field; lra).
  rewrite jsRound_IZR. reflexivity.
Qed.

Lemma grid_apart l :
  forallb (fun e1 => forallb (apart e1) (layoutGrid l)) (layoutGrid l) = true.
Proof. destruct l. vm_compute. reflexivity. Qed.

(** Two keys of the grid with different names are at least a key width
    apart in their row, or in different rows. *)
Lemma grid_lookup_apart l ka kb ga gb :
  lookup ka (layoutGrid l) = Some ga ->
  lookup kb (layoutGrid l) = Some gb ->
  ka <> kb ->
  4 <= Z.abs (fst gb - fst ga) \/ 1 <= Z.abs (snd gb - snd ga).
Proof.
  intros Ha Hb Hne.
  apply lookup_In in Ha, Hb.
  pose proof (grid_apart l) as H.
  rewrite forallb_forall in H. specialize (H _ Ha).
  rewrite forallb_forall in H. specialize (H _ Hb).
  unfold apart in H. cbn [fst snd] in H.
  apply orb_prop in H. destruct H as [H|H].
  - apply orb_prop in H. destruct H as [H|H].
    + apply String.eqb_eq in H. contradiction.
    + left. now apply Z.leb_le.
  - right. now apply Z.leb_le.
Qed.

Lemma Rabs_IZR_ge k n : n <= Z.abs k -> (IZR n <= Rabs (IZR k))%R.
Proof.
  intros H. rewrite <- abs_IZR. now apply IZR_le.
Qed.

(** The offsets between two key centres, on the grid. *)
Lemma centre_offsets l ga gb a b :
  (Pt.x (centreOf l (gridKey gb) b) - Pt.x (centreOf l (gridKey ga) a)
   = 15 * IZR (fst gb - fst ga))%R
  /\ (Pt.y (centreOf l (gridKey gb) b) - Pt.y (centreOf l (gridKey ga) a)
      = 60 * IZR (snd gb - snd ga))%R.
Proof.
  unfold centreOf, gridKey, KEY_SPACING. cbn [Pt.x Pt.y Key.x Key.y].
  rewrite !minus_IZR. split; field.
Qed.

Lemma key_pair_cases
        (l : KeyboardLayout) (a b : string) (pa pb : Pt.t)
        (Ha : getKeyCenter l a = Some pa)
        (Hb : getKeyCenter l b = Some pb) :
  let dx := (Pt.x pb - Pt.x pa)%R in
  let dy := (Pt.y pb - Pt.y pa)%R in
  (keyOf a = keyOf b ->
   dx = 0%R /\ dy = 0%R /\ hypot dx dy = 0%R
   /\ CodecSeg.dir (featAt pa pb) = 0 /\ CodecSeg.lb (featAt pa pb) = 0)
  /\ (keyOf a <> keyOf b ->
      (60 <= hypot dx dy)%R /\ 1 <= CodecSeg.lb (featAt pa pb)).
Proof.
  intros dx dy.
  destruct (getKeyCenter_grid l a pa Ha) as (ca & ga & Ea & Ga & Pa).
  destruct (getKeyCenter_grid l b pb Hb) as (cb & gb & Eb & Gb & Pb).
  destruct (centre_offsets l ga gb a b) as [Ex Ey].
  rewrite <- Pa, <- Pb in Ex, Ey. fold dx in Ex. fold dy in Ey.
  assert (Hsame : keyOf a = keyOf b ->
            dx = 0%R /\ dy = 0%R /\ hypot dx dy = 0%R
            /\ CodecSeg.dir (featAt pa pb) = 0
            /\ CodecSeg.lb (featAt pa pb) = 0).
  { intros E. rewrite E in Ga. rewrite Ga in Gb. injection Gb as <-.
    rewrite Z.sub_diag in Ex, Ey.
    assert (Dx : dx = 0%R) by lra. assert (Dy : dy = 0%R) by lra.
    unfold featAt. cbn [CodecSeg.dir CodecSeg.lb]. fold dx dy.
    rewrite Dx, Dy, hypot_0_0, direction8_0_0.
    repeat split. unfold lengthBin. destruct (Rlt_dec 0 40); [reflexivity|lra]. }
  assert (Hdiff : keyOf a <> keyOf b ->
            (60 <= hypot dx dy)%R /\ 1 <= CodecSeg.lb (featAt pa pb)).
  { intros Hne.
    assert (Hlen : (60 <= hypot dx dy)%R).
    { destruct (hypot_ge dx dy) as [Hx Hy].
      destruct (grid_lookup_apart l _ _ ga gb Ga Gb Hne) as [H|H];
        apply Rabs_IZR_ge in H.
      - assert (E : (Rabs dx = 15 * Rabs (IZR (fst gb - fst ga)))%R).
        { rewrite Ex, Rabs_mult, (Rabs_pos_eq 15) by lra. reflexivity. }
        lra.
      - assert (E : (Rabs dy = 60 * Rabs (IZR (snd gb - snd ga)))%R).
        { rewrite Ey, Rabs_mult, (Rabs_pos_eq 60) by lra. reflexivity. }
        lra. }
    split; [exact Hlen|].
    unfold featAt. cbn [CodecSeg.lb]. fold dx dy. unfold lengthBin.
    destruct (Rlt_dec _ 40); [lra|].
    destruct (Rlt_dec _ 80); [lia|].
    destruct (Rlt_dec _ 120); lia. }
  split; [exact Hsame|exact Hdiff].
Qed.

Lemma split_app s t : split (s ++ t) = (split s ++ split t)%list.
Proof.
  unfold split. rewrite list_ascii_app. now rewrite map_app.
Qed.

Lemma filterBoolean_app {A} (xs ys : list (option A)) :
  filterBoolean (xs ++ ys) = (filterBoolean xs ++ filterBoolean ys)%list.
Proof.
  induction xs as [|[a|] xs IH]; cbn [app filterBoolean];
    [reflexivity|now rewrite IH|exact IH].
Qed.

Lemma resolve_app l s t :
  resolve l (s ++ t) = (resolve l s ++ resolve l t)%list.
Proof.
  unfold resolve. now rewrite split_app, map_app, filterBoolean_app.
Qed.

Lemma resolve_key l a pa :
  getKeyCenter l a = Some pa -> resolve l a = [pa].
Proof.
  intros H. destruct (getKeyCenter_grid l a pa H) as (c & g & E & _ & _).
  subst a. unfold resolve, split, str1 in *.
  cbn [list_ascii_of_string map]. rewrite H. reflexivity.
Qed.

(** The name made of two characters that are on keys has one segment, with
    the features of the pair. *)
Lemma segments_two_keys colorOf l a b pa pb uda ucr :
  getKeyCenter l a = Some pa ->
  getKeyCenter l b = Some pb ->
  exists s,
    segmentsWith colorOf l (a ++ b) uda ucr = Ok [s]
    /\ RenderSeg.feat s = featAt pa pb.
Proof.
  intros Ha Hb.
  destruct (segmentsWith_feats colorOf l (a ++ b) uda ucr) as (segs & E & F).
  rewrite resolve_app, (resolve_key l a pa Ha), (resolve_key l b pb Hb) in F.
  change (featsOf ([pa] ++ [pb])) with [featAt pa pb] in F.
  destruct segs as [|s [|s' r]]; try discriminate F.
  exists s. split; [exact E|]. now injection F.
Qed.

(** A pair of characters on one key (a doubled letter, or a letter in its
    two cases) gives a segment of length 0, direction 0 and bin 0; any two
    different keys have their centres at least 60 pixels apart, so that
    the bin of the segment is at least 1. Bin 0 marks the repeated keys
    and nothing else. *)
Theorem repeated_key_segment
        (l : KeyboardLayout) (a b : string) (pa pb : Pt.t)
        (Ha : getKeyCenter l a = Some pa)
        (Hb : getKeyCenter l b = Some pb) :
  let dx := (Pt.x pb - Pt.x pa)%R in
  let dy := (Pt.y pb - Pt.y pa)%R in
  (keyOf a = keyOf b ->
   dx = 0%R /\ dy = 0%R /\ hypot dx dy = 0%R
   /\ CodecSeg.dir (featAt pa pb) = 0 /\ CodecSeg.lb (featAt pa pb) = 0)
  /\ (keyOf a <> keyOf b ->
      (60 <= hypot dx dy)%R /\ 1 <= CodecSeg.lb (featAt pa pb))
  /\ (CodecSeg.lb (featAt pa pb) = 0 <-> keyOf a = keyOf b)
  /\ (forall useDashAlphabet useCatmullRom,
         exists s,
           segments l (a ++ b) useDashAlphabet useCatmullRom = Ok [s]
           /\ RenderSeg.feat s = featAt pa pb).
Proof.
  intros dx dy.
  destruct (key_pair_cases l a b pa pb Ha Hb) as [Hsame Hdiff].
  fold dx dy in Hsame, Hdiff.
  split; [exact Hsame|]. split; [exact Hdiff|].
  split; [split|].
  - intros H0. destruct (string_dec (keyOf a) (keyOf b)) as [E|E]; [exact E|].
    apply Hdiff in E. lia.
  - intros E. now apply Hsame.
  - intros uda ucr. now apply segments_two_keys.
Qed.

Lemma centre_a : getKeyCenter qwerty "a" = Some ptA.
Proof.
  rewrite getKeyCenter_keyOf.
  change (lookup (keyOf "a") (keyboardLayouts qwerty))
    with (Some (Key.mk 0.75 1)).
  cbn [option_map]. unfold centreOf.
  rewrite SHIFT_X_qwerty, SHIFT_Y_qwerty.
  unfold ptA, KEY_SPACING, PAD_X, PAD_Y, KEY_W, KEY_H. cbn [Key.x Key.y].
  repeat f_equal; lra.
Qed.

Lemma centre_A : getKeyCenter qwerty "A" = Some (Pt.mk 91 162 "A").
Proof.
  rewrite getKeyCenter_keyOf.
  change (lookup (keyOf "A") (keyboardLayouts qwerty))
    with (Some (Key.mk 0.75 1)).
  cbn [option_map]. unfold centreOf.
  rewrite SHIFT_X_qwerty, SHIFT_Y_qwerty.
  unfold KEY_SPACING, PAD_X, PAD_Y, KEY_W, KEY_H. cbn [Key.x Key.y].
  repeat f_equal; lra.
Qed.

Lemma centre_q : getKeyCenter qwerty "q" = Some ptQ.
Proof.
  rewrite getKeyCenter_keyOf.
  change (lookup (keyOf "q") (keyboardLayouts qwerty))
    with (Some (Key.mk 0.5 0)).
  cbn [option_map]. unfold centreOf.
  rewrite SHIFT_X_qwerty, SHIFT_Y_qwerty.
  unfold ptQ, KEY_SPACING, PAD_X, PAD_Y, KEY_W, KEY_H. cbn [Key.x Key.y].
  repeat f_equal; lra.
Qed.

Lemma repeated_key_segment_witness :
  CodecSeg.lb (featAt ptA (Pt.mk 91 162 "A")) = 0
  /\ 1 <= CodecSeg.lb (featAt ptA ptQ).
Proof.
  split.
  - apply (repeated_key_segment qwerty "a" "A" _ _ centre_a centre_A).
    reflexivity.
  - apply (repeated_key_segment qwerty "a" "q" _ _ centre_a centre_q).
    vm_compute. discriminate.
Defined.

Lemma atan2_opp (y x : R) :
  (x <> 0 \/ y <> 0)%R ->
  (atan2 (- y) (- x) = atan2 y x + PI
   \/ atan2 (- y) (- x) = atan2 y x - PI)%R.
Proof.
  intros Hne. unfold atan2.
  destruct (Req_dec x 0) as [Ex|Ex].
  - subst x. assert (Hy : (y <> 0)%R) by (destruct Hne; [lra|assumption]).
    replace (- 0)%R with 0%R by ring.
    destruct (Rlt_dec 0 0) as [H|_]; [lra|].
    destruct (Rlt_dec 0 (- y)), (Rlt_dec (- y) 0),
      (Rlt_dec 0 y), (Rlt_dec y 0); try lra.
  - replace (- y / - x)%R with (y / x)%R by (field; exact Ex).
    destruct (Rlt_dec 0 (- x)), (Rlt_dec (- x) 0),
      (Rlt_dec 0 x), (Rlt_dec x 0); try lra;
      destruct (Rle_dec 0 (- y)), (Rle_dec 0 y); try lra.
Qed.

Lemma jsRound_shift (v : R) (k : Z) : jsRound (v + IZR k) = jsRound v + k.
Proof.
  unfold jsRound. apply Zfloor_eq.
  pose proof (Zfloor_bound (v + / 2)) as H. rewrite plus_IZR. lra.
Qed.

Lemma direction8_opp (dx dy : R) :
  (dx <> 0 \/ dy <> 0)%R ->
  direction8 (- dx) (- dy) = (direction8 dx dy + 4) mod 8.
Proof.
  intros Hne. pose proof PI_RGT_0 as Hpi.
  destruct (direction8_round dx dy) as [_ E1].
  destruct (direction8_round (- dx) (- dy)) as [_ E2].
  rewrite E1, E2. rewrite Zplus_mod_idemp_l.
  destruct (atan2_opp dy dx Hne) as [E|E]; rewrite E.
  - replace ((atan2 dy dx + PI) / (PI / 4))%R
      with (atan2 dy dx / (PI / 4) + IZR 4)%R by (field; lra).
    now rewrite jsRound_shift.
  - replace ((atan2 dy dx - PI) / (PI / 4))%R
      with (atan2 dy dx / (PI / 4) + IZR (-4))%R by (field; lra).
    rewrite jsRound_shift.
    replace (jsRound (atan2 dy dx / (PI / 4)) + -4)
      with (jsRound (atan2 dy dx / (PI / 4)) + 4 + (-1) * 8) by lia.
    now rewrite Z.mod_add by lia.
Qed.

Lemma key_char_kind l c g :
  lookup (keyOf (str1 c)) (layoutGrid l) = Some g ->
  isNumOrUnd (str1 c) || isUpper (str1 c) || isLower (str1 c) = true.
Proof.
  destruct l. destruct c as [[] [] [] [] [] [] [] []]; vm_compute;
    intros H; try discriminate H; reflexivity.
Qed.

Lemma classifyPair_mirror l ca cb ga gb :
  lookup (keyOf (str1 ca)) (layoutGrid l) = Some ga ->
  lookup (keyOf (str1 cb)) (layoutGrid l) = Some gb ->
  classifyPair (str1 cb) (str1 ca) = mirror (classifyPair (str1 ca) (str1 cb)).
Proof.
  intros Ha Hb.
  apply key_char_kind in Ha, Hb.
  pose proof (upper_lower_disjoint ca) as Da.
  pose proof (upper_lower_disjoint cb) as Db.
  unfold classifyPair.
  destruct (isNumOrUnd (str1 ca)), (isNumOrUnd (str1 cb)),
    (isUpper (str1 ca)), (isUpper (str1 cb)),
    (isLower (str1 ca)), (isLower (str1 cb));
    cbn in *; try reflexivity; discriminate.
Qed.

(** The segment between two keys, walked the other way: the same length
    bin, the class with the two cases exchanged (UL for LU and LU for UL),
    and, between two different keys, the opposite direction, four eighths
    of a turn away. *)
Theorem featAt_reversed
        (l : KeyboardLayout) (a b : string) (pa pb : Pt.t)
        (Ha : getKeyCenter l a = Some pa)
        (Hb : getKeyCenter l b = Some pb) :
  CodecSeg.a (featAt pb pa) = b
  /\ CodecSeg.b (featAt pb pa) = a
  /\ CodecSeg.lb (featAt pb pa) = CodecSeg.lb (featAt pa pb)
  /\ CodecSeg.cls (featAt pb pa) = mirror (CodecSeg.cls (featAt pa pb))
  /\ (keyOf a <> keyOf b ->
      CodecSeg.dir (featAt pb pa) = (CodecSeg.dir (featAt pa pb) + 4) mod 8)
  /\ (keyOf a = keyOf b ->
      CodecSeg.dir (featAt pb pa) = CodecSeg.dir (featAt pa pb))
  /\ (forall useDashAlphabet useCatmullRom,
         exists s t,
           segments l (a ++ b) useDashAlphabet useCatmullRom = Ok [s]
           /\ segments l (b ++ a) useDashAlphabet useCatmullRom = Ok [t]
           /\ RenderSeg.feat s = featAt pa pb
           /\ RenderSeg.feat t = featAt pb pa).
Proof.
  assert (Hsegs : forall uda ucr,
             exists s t,
               segments l (a ++ b) uda ucr = Ok [s]
               /\ segments l (b ++ a) uda ucr = Ok [t]
               /\ RenderSeg.feat s = featAt pa pb
               /\ RenderSeg.feat t = featAt pb pa).
  { intros uda ucr.
    destruct (segments_two_keys colorForPair l a b pa pb uda ucr Ha Hb)
      as (s & Es & Fs).
    destruct (segments_two_keys colorForPair l b a pb pa uda ucr Hb Ha)
      as (t & Et & Ft).
    exists s, t. repeat split; assumption. }
  enough (Hmain :
            CodecSeg.a (featAt pb pa) = b
            /\ CodecSeg.b (featAt pb pa) = a
            /\ CodecSeg.lb (featAt pb pa) = CodecSeg.lb (featAt pa pb)
            /\ CodecSeg.cls (featAt pb pa) = mirror (CodecSeg.cls (featAt pa pb))
            /\ (keyOf a <> keyOf b ->
                CodecSeg.dir (featAt pb pa)
                = (CodecSeg.dir (featAt pa pb) + 4) mod 8)
            /\ (keyOf a = keyOf b ->
                CodecSeg.dir (featAt pb pa) = CodecSeg.dir (featAt pa pb))).
  { destruct Hmain as (H1 & H2 & H3 & H4 & H5 & H6).
    repeat (split; [assumption|]). exact Hsegs. }
  clear Hsegs.
  destruct (getKeyCenter_grid l a pa Ha) as (ca & ga & Ea & Ga & Pa).
  destruct (getKeyCenter_grid l b pb Hb) as (cb & gb & Eb & Gb & Pb).
  assert (Ca : Pt.ch pa = a) by (rewrite Pa; reflexivity).
  assert (Cb : Pt.ch pb = b) by (rewrite Pb; reflexivity).
  unfold featAt.
  cbn [CodecSeg.a CodecSeg.b CodecSeg.lb CodecSeg.cls CodecSeg.dir].
  rewrite Ca, Cb.
  set (dx := (Pt.x pb - Pt.x pa)%R). set (dy := (Pt.y pb - Pt.y pa)%R).
  replace (Pt.x pa - Pt.x pb)%R with (- dx)%R by (unfold dx; ring).
  replace (Pt.y pa - Pt.y pb)%R with (- dy)%R by (unfold dy; ring).
  split; [reflexivity|]. split; [reflexivity|].
  split; [now rewrite hypot_opp|].
  split.
  { subst a b. now apply (classifyPair_mirror l ca cb ga gb). }
  split.
  { intros Hne. apply direction8_opp.
    destruct (key_pair_cases l a b pa pb Ha Hb) as (_ & Hd).
    destruct (Hd Hne) as [Hlen _]. fold dx dy in Hlen.
    destruct (Req_dec dx 0) as [Ex|Ex]; [|now left].
    destruct (Req_dec dy 0) as [Ey|Ey]; [|now right].
    rewrite Ex, Ey, hypot_0_0 in Hlen. lra. }
  intros E.
  destruct (key_pair_cases l a b pa pb Ha Hb) as (Hs & _).
  destruct (Hs E) as (Ex & Ey & _). fold dx dy in Ex, Ey.
  rewrite Ex, Ey. now replace (- 0)%R with 0%R by ring.
Qed.

Lemma featAt_reversed_witness :
  CodecSeg.dir (featAt ptQ ptA) = (CodecSeg.dir (featAt ptA ptQ) + 4) mod 8
  /\ CodecSeg.cls (featAt (Pt.mk 91 162 "A") ptQ)
     = mirror (CodecSeg.cls (featAt ptQ (Pt.mk 91 162 "A"))).
Proof.
  split.
  - apply (featAt_reversed qwerty "a" "q" _ _ centre_a centre_q).
    vm_compute. discriminate.
  - apply (featAt_reversed qwerty "q" "A" _ _ centre_q centre_A).
Defined.

(* ================================================================= *)
(** ** Active keys and key clicks *)

Lemma newSet_In y xs : In y (newSet xs) <-> In y xs.
Proof.
  induction xs as [|x r IH]; [reflexivity|].
  cbn [newSet In]. rewrite filter_In, IH.
  destruct (string_dec x y) as [E|E].
  - tauto.
  - apply String.eqb_neq in E. rewrite E. cbn [negb]. tauto.
Qed.


Lemma inLayout_lookup l k :
  inLayout l k = true <-> exists v, lookup k (keyboardLayouts l) = Some v.
Proof.
  unfold inLayout. destruct (lookup k _) as [v|].
  - split; [intros _; now exists v|reflexivity].
  - split; [discriminate|intros [v H]; discriminate].
Qed.

Lemma resolves_inLayout l c :
  resolves l (str1 c) = inLayout l (keyOf (str1 c)).
Proof.
  unfold resolves, inLayout. rewrite getKeyCenter_keyOf. unfold str1.
  destruct (lookup _ _); reflexivity.
Qed.



Lemma grid_clickable l : forallb (clickable l) (layoutGrid l) = true.
Proof. destruct l. vm_compute. reflexivity. Qed.

Lemma layout_entry l char pos :
  In (char, pos) (keyboardLayouts l) ->
  lookup char (keyboardLayouts l) = Some pos
  /\ forall capsOn,
       let typed := clickCharToAppend capsOn char in
       keyOf typed = char
       /\ String.length typed = 1%nat
       /\ typed = (if capsOn then char else toLowerCase char).
Proof.
  rewrite keyboardLayouts_grid at 1. rewrite in_map_iff.
  intros ([k g] & E & Hin). cbn [fst snd] in E. injection E as -> <-.
  pose proof (grid_clickable l) as H. rewrite forallb_forall in H.
  specialize (H _ Hin). unfold clickable in H. cbn [fst snd forallb] in H.
  apply andb_prop in H. destruct H as [Hl Hc].
  split.
  - rewrite keyboardLayouts_grid, lookup_map.
    destruct (lookup char (layoutGrid l)) as [[gx gy]|]; [|discriminate].
    cbn [fst snd] in Hl. apply andb_prop in Hl. destruct Hl as [Hx Hy].
    apply Z.eqb_eq in Hx, Hy. destruct g as [x y]. cbn [fst snd] in *.
    now subst.
  - apply andb_prop in Hc. destruct Hc as [Ht Hf].
    rewrite andb_true_r in Hf.
    assert (Hb : forall capsOn,
               String.eqb (keyOf (clickCharToAppend capsOn char)) char
               && (String.length (clickCharToAppend capsOn char) =? 1)%nat
               && String.eqb (clickCharToAppend capsOn char)
                    (if capsOn then char else toLowerCase char) = true)
      by (intros [|]; assumption).
    intros capsOn typed. specialize (Hb capsOn). fold typed in Hb.
    apply andb_prop in Hb. destruct Hb as [Hb H3].
    apply andb_prop in Hb. destruct Hb as [H1 H2].
    apply String.eqb_eq in H1, H3. apply Nat.eqb_eq in H2.
    repeat split; assumption.
Qed.

(** A click on a key of the layout types one character: the label that the
    key shows, that is the key's own character with Caps on and its lower
    case with Caps off. The character resolves to the centre of the key
    that was clicked, so that the click adds that one point at the end of
    the points of the name, whatever the name holds, and the key becomes
    one of the highlighted keys. *)
Theorem click_key_appends
        (l : KeyboardLayout) (char : string) (pos : Key.t)
        (capsOn : bool) (name : string)
        (Hin : In (char, pos) (keyboardLayouts l)) :
  let typed := clickCharToAppend capsOn char in
  renderKeyLabel capsOn char = typed
  /\ typed = (if capsOn then char else toLowerCase char)
  /\ keyOf typed = char
  /\ getKeyCenter l typed = Some (centreOf l pos typed)
  /\ resolve l (clickKey capsOn char name)
     = (resolve l name ++ [centreOf l pos typed])%list
  /\ In char (activeKeys l (clickKey capsOn char name)).
Proof.
  intros typed.
  destruct (layout_entry l char pos Hin) as [Hl Hc].
  destruct (Hc capsOn) as (Hk & Hlen & Ht). fold typed in Hk, Hlen, Ht.
  assert (Hg : getKeyCenter l typed = Some (centreOf l pos typed)).
  { rewrite getKeyCenter_keyOf, Hk, Hl.
    destruct typed; [discriminate Hlen|reflexivity]. }
  assert (Hr : resolve l typed = [centreOf l pos typed]).
  { unfold resolve, split.
    destruct typed as [|c [|c' r]]; try discriminate Hlen.
    cbn [list_ascii_of_string map]. rewrite Hg. reflexivity. }
  split; [reflexivity|]. split; [exact Ht|]. split; [exact Hk|].
  split; [exact Hg|].
  split; [unfold clickKey; fold typed; now rewrite resolve_app, Hr|].
  unfold activeKeys, clickKey. fold typed.
  rewrite newSet_In, split_app, map_app, filter_app, in_app_iff. right.
  unfold split.
  destruct typed as [|c [|c' r]]; try discriminate Hlen.
  cbn [list_ascii_of_string map filter]. rewrite Hk.
  replace (inLayout l char) with true; [now left|].
  symmetry. apply inLayout_lookup. now exists pos.
Qed.

Lemma click_key_appends_witness :
  resolve qwerty (clickKey false "A" "q")
  = (resolve qwerty "q"
       ++ [centreOf qwerty (Key.mk 0.75 1) (clickCharToAppend false "A")])%list.
Proof.
  apply (click_key_appends qwerty "A" (Key.mk 0.75 1) false "q").
  unfold keyboardLayouts. do 21 right. left. reflexivity.
Defined.

(* ================================================================= *)
(** ** The shape of a codec *)

Lemma adjacent_In {A} (l : list A) p q :
  In (p, q) (adjacent l) -> In p l /\ In q l.
Proof.
  induction l as [|a [|b r] IH]; [intros []|intros []|].
  change (adjacent (a :: b :: r)) with ((a, b) :: adjacent (b :: r)).
  intros [E|H].
  - injection E as <- <-. split; [now left|right; now left].
  - destruct (IH H) as [Hp Hq]. split; right; assumption.
Qed.

Lemma resolve_In l name p :
  In p (resolve l name) ->
  In (Pt.ch p) (split name) /\ getKeyCenter l (Pt.ch p) = Some p.
Proof.
  unfold resolve. induction (split name) as [|ch r IH]; [intros []|].
  cbn [map filterBoolean].
  destruct (getKeyCenter l ch) as [p'|] eqn:E.
  - intros [<-|H].
    + assert (Ec : Pt.ch p' = ch).
      { destruct (getKeyCenter_grid l ch p' E) as (c0 & g0 & _ & _ & ->).
        reflexivity. }
      rewrite Ec. split; [now left|exact E].
    + destruct (IH H) as [H1 H2]. split; [now right|exact H2].
  - intros H. destruct (IH H) as [H1 H2]. split; [now right|exact H2].
Qed.

Lemma direction8_range dx dy : 0 <= direction8 dx dy <= 7.
Proof.
  destruct (direction8_round dx dy) as [_ ->].
  pose proof (Z.mod_pos_bound (jsRound (atan2 dy dx / (PI / 4))) 8). lia.
Qed.

Lemma lengthBin_range len : 0 <= lengthBin len <= 3.
Proof.
  unfold lengthBin.
  destruct (Rlt_dec len 40); [lia|].
  destruct (Rlt_dec len 80); [lia|].
  destruct (Rlt_dec len 120); lia.
Qed.

Lemma split_length s : List.length (split s) = String.length s.
Proof.
  unfold split. rewrite length_map.
  induction s as [|c s IH]; simpl; [reflexivity|now rewrite IH].
Qed.

Lemma classifyPair_LU l ca cb ga gb :
  lookup (keyOf (str1 ca)) (layoutGrid l) = Some ga ->
  lookup (keyOf (str1 cb)) (layoutGrid l) = Some gb ->
  classifyPair (str1 ca) (str1 cb) = LU ->
  isLower (str1 ca) = true /\ isUpper (str1 cb) = true.
Proof.
  intros Ha Hb.
  apply key_char_kind in Ha, Hb.
  pose proof (upper_lower_disjoint ca) as Da.
  pose proof (upper_lower_disjoint cb) as Db.
  unfold classifyPair.
  destruct (isNumOrUnd (str1 ca)), (isNumOrUnd (str1 cb)),
    (isUpper (str1 ca)), (isUpper (str1 cb)),
    (isLower (str1 ca)), (isLower (str1 cb));
    cbn in *; intros H; try discriminate; split; reflexivity.
Qed.

(** When the pipeline gives a codec: at least two characters of the name
    resolve; the codec has one segment less than resolved characters,
    at least one and fewer than [len]; each segment joins two characters
    that resolve to keys, with a direction from 0 to 7, a bin from 0 to 3
    that is 0 exactly on a repeated key, and the class of its two
    characters, which is LU only for a small letter followed by a capital;
    and the segments chain, each starting at the character where the one
    before ends. *)
Theorem codec_wellformed
        (l : KeyboardLayout) (name : string)
        (useDashAlphabet useCatmullRom : bool) (c : Codec.t)
        (H : codec l name useDashAlphabet useCatmullRom = Ok (Some c)) :
  (2 <= List.length (resolve l name))%nat
  /\ List.length (Codec.seg c) = (List.length (resolve l name) - 1)%nat
  /\ 1 <= Z.of_nat (List.length (Codec.seg c)) < Codec.len c
  /\ Forall (fun f =>
               resolves l (CodecSeg.a f) = true
               /\ resolves l (CodecSeg.b f) = true
               /\ CodecSeg.cls f = classifyPair (CodecSeg.a f) (CodecSeg.b f)
               /\ (CodecSeg.cls f = LU ->
                   isLower (CodecSeg.a f) = true
                   /\ isUpper (CodecSeg.b f) = true)
               /\ 0 <= CodecSeg.dir f <= 7
               /\ 0 <= CodecSeg.lb f <= 3
               /\ (CodecSeg.lb f = 0
                   <-> keyOf (CodecSeg.a f) = keyOf (CodecSeg.b f)))
            (Codec.seg c)
  /\ Forall (fun q => CodecSeg.b (fst q) = CodecSeg.a (snd q))
            (adjacent (Codec.seg c)).
Proof.
  unfold codec in H. rewrite codecWith_closed in H.
  destruct ((String.length name =? 0)%nat
            || (List.length (featsOf (resolve l name)) =? 0)%nat) eqn:E;
    [discriminate|].
  injection H as <-.
  apply orb_false_elim in E. destruct E as [_ E].
  apply Nat.eqb_neq in E. rewrite featsOf_length in E.
  unfold buildCodec. cbn [Codec.seg Codec.len].
  split; [lia|]. split; [apply featsOf_length|].
  split.
  { rewrite featsOf_length, resolve_length.
    pose proof (filter_length_le (resolves l) (split name)) as Hf.
    rewrite split_length in Hf. rewrite resolve_length in E. lia. }
  split.
  - unfold featsOf. rewrite Forall_map, Forall_forall.
    intros [p q] Hpq. cbn [fst snd].
    destruct (adjacent_In _ _ _ Hpq) as [Hp Hq].
    destruct (resolve_In _ _ _ Hp) as [_ Gp].
    destruct (resolve_In _ _ _ Hq) as [_ Gq].
    destruct (getKeyCenter_grid l _ p Gp) as (ca & ga & Ea & Ga & _).
    destruct (getKeyCenter_grid l _ q Gq) as (cb & gb & Eb & Gb & _).
    destruct (key_pair_cases l _ _ p q Gp Gq) as [Hs Hd].
    change (CodecSeg.a (featAt p q)) with (Pt.ch p).
    change (CodecSeg.b (featAt p q)) with (Pt.ch q).
    change (CodecSeg.cls (featAt p q))
      with (classifyPair (Pt.ch p) (Pt.ch q)).
    split; [unfold resolves; now rewrite Gp|].
    split; [unfold resolves; now rewrite Gq|].
    split; [reflexivity|].
    split.
    { rewrite Ea, Eb in *. now apply (classifyPair_LU l ca cb ga gb). }
    split; [apply direction8_range|].
    split; [apply lengthBin_range|].
    split.
    + intros H0.
      destruct (string_dec (keyOf (Pt.ch p)) (keyOf (Pt.ch q))) as [K|K];
        [exact K|].
      apply Hd in K. lia.
    + intros K. apply Hs in K. tauto.
  - apply (adjacent_chain (fun f => (CodecSeg.a f, CodecSeg.b f)) Pt.ch
                          (resolve l name)).
    unfold featsOf. rewrite map_map. reflexivity.
Qed.

Lemma codec_wellformed_witness :
  exists c,
    codec qwerty "aq" true false = Ok (Some c)
    /\ List.length (Codec.seg c) = 1%nat.
Proof.
  assert (E : codec qwerty "aq" true false
              = Ok (Some (buildCodec "aq" qwerty true
                                     (featsOf (resolve qwerty "aq"))))).
  { unfold codec. rewrite codecWith_closed, featsOf_length, resolve_aq.
    reflexivity. }
  exists (buildCodec "aq" qwerty true (featsOf (resolve qwerty "aq"))).
  split; [exact E|].
  destruct (codec_wellformed qwerty "aq" true false _ E) as (_ & -> & _).
  rewrite resolve_aq. reflexivity.
Defined.

(* ================================================================= *)
(** ** What the two toggles change, and what a pair of keys fixes *)

(** The curve toggle changes the paths only, and keeps their end points;
    the dash toggle changes the dash patterns only. Colours and features
    depend on neither. *)
Theorem toggles_independent
        (l : KeyboardLayout) (name : string) (dashA dashB curveA curveB : bool) :
  exists segsA segsB,
    segments l name dashA curveA = Ok segsA
    /\ segments l name dashB curveB = Ok segsB
    /\ List.length segsA = List.length segsB
    /\ map RenderSeg.color segsA = map RenderSeg.color segsB
    /\ map RenderSeg.feat segsA = map RenderSeg.feat segsB
    /\ map (fun s => (pathStart (RenderSeg.d s), pathEnd (RenderSeg.d s))) segsA
       = map (fun s => (pathStart (RenderSeg.d s), pathEnd (RenderSeg.d s)))
             segsB
    /\ (dashA = dashB -> map RenderSeg.dash segsA = map RenderSeg.dash segsB)
    /\ (curveA = curveB -> map RenderSeg.d segsA = map RenderSeg.d segsB).
Proof.
  destruct (segmentsWith_pairs colorForPair l name dashA curveA)
    as (sA & HA & EA).
  destruct (segmentsWith_pairs colorForPair l name dashB curveB)
    as (sB & HB & EB).
  exists sA, sB. unfold segments.
  split; [exact HA|]. split; [exact HB|].
  rewrite EA, EB. rewrite !map_map, !length_map. cbn [RenderSeg.color
    RenderSeg.feat RenderSeg.dash RenderSeg.d].
  split; [reflexivity|]. split; [reflexivity|]. split; [reflexivity|].
  split.
  { apply map_ext. intros [i [p q]]. cbn [fst snd].
    unfold pathAt. destruct curveA, curveB; reflexivity. }
  split; intros ->; reflexivity.
Qed.

(** A pair of characters is drawn alike wherever it stands: two segments,
    of one name or of two, in whatever modes, that join the same two
    characters have the same features and the same colour, and in straight
    mode the same path. Only the dash pattern of a segment depends on the
    name and on the place of the segment in it. *)
Theorem bigram_styling
        (l : KeyboardLayout) (nameA nameB : string)
        (dashA dashB curveA curveB : bool) :
  exists segsA segsB,
    segments l nameA dashA curveA = Ok segsA
    /\ segments l nameB dashB curveB = Ok segsB
    /\ forall s t,
         In s segsA -> In t segsB ->
         CodecSeg.a (RenderSeg.feat s) = CodecSeg.a (RenderSeg.feat t) ->
         CodecSeg.b (RenderSeg.feat s) = CodecSeg.b (RenderSeg.feat t) ->
         RenderSeg.feat s = RenderSeg.feat t
         /\ RenderSeg.color s = RenderSeg.color t
         /\ RenderSeg.color s
            = colorForPair (CodecSeg.a (RenderSeg.feat s))
                           (CodecSeg.b (RenderSeg.feat s))
                           (hypot (fst (pathEnd (RenderSeg.d s))
                                   - fst (pathStart (RenderSeg.d s)))
                                  (snd (pathEnd (RenderSeg.d s))
                                   - snd (pathStart (RenderSeg.d s))))
         /\ (curveA = false -> curveB = false -> RenderSeg.d s = RenderSeg.d t).
Proof.
  destruct (segmentsWith_pairs colorForPair l nameA dashA curveA)
    as (sA & HA & EA).
  destruct (segmentsWith_pairs colorForPair l nameB dashB curveB)
    as (sB & HB & EB).
  exists sA, sB. unfold segments.
  split; [exact HA|]. split; [exact HB|].
  intros s t Hs Ht.
  rewrite EA in Hs. rewrite EB in Ht.
  rewrite in_map_iff in Hs, Ht.
  destruct Hs as ([i [p1 p2]] & <- & Hs).
  destruct Ht as ([j [q1 q2]] & <- & Ht).
  apply in_combine_r in Hs, Ht.
  destruct (adjacent_In _ _ _ Hs) as [Hp1 Hp2].
  destruct (adjacent_In _ _ _ Ht) as [Hq1 Hq2].
  apply resolve_In in Hp1, Hp2, Hq1, Hq2.
  destruct Hp1 as [_ Gp1]. destruct Hp2 as [_ Gp2].
  destruct Hq1 as [_ Gq1]. destruct Hq2 as [_ Gq2].
  cbn [fst snd RenderSeg.feat RenderSeg.color RenderSeg.d].
  change (CodecSeg.a (featAt p1 p2)) with (Pt.ch p1).
  change (CodecSeg.b (featAt p1 p2)) with (Pt.ch p2).
  change (CodecSeg.a (featAt q1 q2)) with (Pt.ch q1).
  change (CodecSeg.b (featAt q1 q2)) with (Pt.ch q2).
  intros E1 E2.
  rewrite E1 in Gp1. rewrite E2 in Gp2.
  assert (P1 : p1 = q1) by congruence.
  assert (P2 : p2 = q2) by congruence.
  subst q1 q2.
  split; [reflexivity|]. split; [reflexivity|].
  split.
  - unfold pathAt. destruct curveA; reflexivity.
  - intros -> ->. reflexivity.
Qed.

(* ================================================================= *)
(** ** The case of the name and the geometry *)









(* ================================================================= *)
(** ** Catmull-Rom controls under any exponent *)


(* ================================================================= *)
(** ** The stream never merges *)

Lemma bits_high x n : 0 <= x < 2 ^ 32 -> 32 <= n -> Z.testbit x n = false.
Proof.
  intros Hx Hn. rewrite <- (Z.mod_small x (2 ^ 32)) by exact Hx.
  apply Z.mod_pow2_bits_high. lia.
Qed.

Lemma shl_xor_bits x k n :
  0 <= n < 32 -> 0 < k ->
  Z.testbit (Z.lxor x (u32 (Z.shiftl x k))) n
  = xorb (Z.testbit x n) (Z.testbit x (n - k)).
Proof.
  intros Hn Hk. unfold u32.
  rewrite Z.lxor_spec, Z.mod_pow2_bits_low by lia.
  now rewrite Z.shiftl_spec by lia.
Qed.

Lemma shl_xor_inj k x y :
  0 < k -> 0 <= x < 2 ^ 32 -> 0 <= y < 2 ^ 32 ->
  Z.lxor x (u32 (Z.shiftl x k)) = Z.lxor y (u32 (Z.shiftl y k)) -> x = y.
Proof.
  intros Hk Hx Hy H. apply Z.bits_inj'. intros n Hn.
  assert (Hall : forall (m : nat) n, 0 <= n < Z.of_nat m ->
                   Z.testbit x n = Z.testbit y n).
  { induction m as [|m IH]; intros i Hi; [lia|].
    destruct (Z.lt_ge_cases i 32) as [Hlt|Hge].
    - assert (E : Z.testbit (Z.lxor x (u32 (Z.shiftl x k))) i
                  = Z.testbit (Z.lxor y (u32 (Z.shiftl y k))) i)
        by now rewrite H.
      rewrite !shl_xor_bits in E by lia.
      assert (Ek : Z.testbit x (i - k) = Z.testbit y (i - k)).
      { destruct (Z.lt_ge_cases (i - k) 0) as [Hneg|Hpos].
        - now rewrite !Z.testbit_neg_r by exact Hneg.
        - apply IH; lia. }
      rewrite Ek in E.
      destruct (Z.testbit x i), (Z.testbit y i), (Z.testbit y (i - k));
        cbn in E; congruence.
    - now rewrite !bits_high by assumption. }
  apply (Hall (Z.to_nat (n + 1))). lia.
Qed.

Lemma shr_xor_inj k x y :
  0 < k -> 0 <= x < 2 ^ 32 -> 0 <= y < 2 ^ 32 ->
  Z.lxor x (Z.shiftr x k) = Z.lxor y (Z.shiftr y k) -> x = y.
Proof.
  intros Hk Hx Hy H. apply Z.bits_inj'. intros n Hn.
  assert (Hall : forall (m : nat) n, 0 <= n -> 32 - Z.of_nat m <= n ->
                   Z.testbit x n = Z.testbit y n).
  { induction m as [|m IH]; intros i H0 Hi.
    - now rewrite !bits_high by (assumption || lia).
    - assert (E : Z.testbit (Z.lxor x (Z.shiftr x k)) i
                  = Z.testbit (Z.lxor y (Z.shiftr y k)) i)
        by now rewrite H.
      rewrite !Z.lxor_spec, !Z.shiftr_spec in E by lia.
      assert (Ek : Z.testbit x (i + k) = Z.testbit y (i + k))
        by (apply IH; lia).
      rewrite Ek in E.
      destruct (Z.testbit x i), (Z.testbit y i), (Z.testbit y (i + k));
        cbn in E; congruence. }
  apply (Hall 32%nat); lia.
Qed.

Lemma xorshift_inj x y :
  0 <= x < 2 ^ 32 -> 0 <= y < 2 ^ 32 -> xorshift x = xorshift y -> x = y.
Proof.
  intros Hx Hy H. unfold xorshift in H.
  set (x1 := Z.lxor x (u32 (Z.shiftl x 13))) in *.
  set (y1 := Z.lxor y (u32 (Z.shiftl y 13))) in *.
  assert (Hx1 : 0 <= x1 < 2 ^ 32)
    by (apply lxor_range; [exact Hx|apply u32_range]).
  assert (Hy1 : 0 <= y1 < 2 ^ 32)
    by (apply lxor_range; [exact Hy|apply u32_range]).
  set (x2 := Z.lxor x1 (Z.shiftr x1 17)) in *.
  set (y2 := Z.lxor y1 (Z.shiftr y1 17)) in *.
  assert (Hx2 : 0 <= x2 < 2 ^ 32)
    by (apply lxor_range; [exact Hx1|apply shiftr_range; [exact Hx1|lia]]).
  assert (Hy2 : 0 <= y2 < 2 ^ 32)
    by (apply lxor_range; [exact Hy1|apply shiftr_range; [exact Hy1|lia]]).
  apply shl_xor_inj in H; [|lia|exact Hx2|exact Hy2].
  apply shr_xor_inj in H; [|lia|exact Hx1|exact Hy1].
  apply shl_xor_inj in H; [exact H|lia|exact Hx|exact Hy].
Qed.

Lemma rngState_inj n : forall x y,
  0 < x < 2 ^ 32 -> 0 < y < 2 ^ 32 ->
  rngState n x = rngState n y -> x = y.
Proof.
  induction n as [|n IH]; intros x y Hx Hy H; [exact H|].
  cbn [rngState rngNext snd] in H.
  apply IH in H; try (apply xorshift_nonzero; assumption).
  apply xorshift_inj in H; [exact H|lia|lia].
Qed.

(** Two streams that start from different states never meet: after any
    number of calls their states differ, and so do the values that the
    next call returns. A stream is thus determined by any one of its
    values and the position of that value. *)
Theorem makeRng_streams_apart (seedA seedB : string) (n : nat)
        (H : makeRng seedA <> makeRng seedB) :
  rngState n (makeRng seedA) <> rngState n (makeRng seedB)
  /\ ~ (rngNth n (makeRng seedA) == rngNth n (makeRng seedB))%Q.
Proof.
  pose proof (makeRng_range seedA) as Ha.
  pose proof (makeRng_range seedB) as Hb.
  split.
  - intros E. apply rngState_inj in E; [contradiction|exact Ha|exact Hb].
  - rewrite !rngNth_rngState. unfold rngNext. cbn [fst].
    pose proof (rngState_range n _ Ha) as Sa.
    pose proof (rngState_range n _ Hb) as Sb.
    pose proof (xorshift_nonzero _ Sa) as Xa.
    pose proof (xorshift_nonzero _ Sb) as Xb.
    rewrite !u32_small by lia.
    unfold Qeq. cbn [Qnum Qden]. intros E.
    apply Z.mul_reg_r in E; [|discriminate].
    apply xorshift_inj in E; [|lia|lia].
    apply rngState_inj in E; [contradiction|exact Ha|exact Hb].
Qed.

Lemma makeRng_streams_apart_witness :
  rngState 5 (makeRng "key-sign:ab:qwerty")
  <> rngState 5 (makeRng "key-sign:ba:qwerty").
Proof.
  apply (makeRng_streams_apart "key-sign:ab:qwerty" "key-sign:ba:qwerty" 5).
  vm_compute. discriminate.
Defined.

(* ================================================================= *)
(** ** Characters that are on no key *)

Lemma resolve_filter l name :
  resolve l name
  = filterBoolean (map (getKeyCenter l) (filter (resolves l) (split name))).
Proof.
  unfold resolve. induction (split name) as [|ch r IH]; [reflexivity|].
  cbn [map filter filterBoolean]. unfold resolves at 1.
  destruct (getKeyCenter l ch) as [p|] eqn:E.
  - cbn [map filterBoolean]. rewrite E. now rewrite IH.
  - exact IH.
Qed.

(** The characters of a name that are on no key (a space, a hyphen, an
    accented letter) leave the drawing as it is: two names with the same
    resolved characters have the same paths, colours and features, and in
    legacy dash mode the same segments altogether. In dash-alphabet mode
    the dashes are drawn from a stream seeded with the whole name, and
    are the same when the names are the same. *)
Theorem unresolved_chars_ignored
        (l : KeyboardLayout) (nameA nameB : string)
        (useDashAlphabet useCatmullRom : bool)
        (H : filter (resolves l) (split nameA)
             = filter (resolves l) (split nameB)) :
  resolve l nameA = resolve l nameB
  /\ exists segsA segsB,
       segments l nameA useDashAlphabet useCatmullRom = Ok segsA
       /\ segments l nameB useDashAlphabet useCatmullRom = Ok segsB
       /\ map RenderSeg.d segsA = map RenderSeg.d segsB
       /\ map RenderSeg.color segsA = map RenderSeg.color segsB
       /\ map RenderSeg.feat segsA = map RenderSeg.feat segsB
       /\ (useDashAlphabet = false -> segsA = segsB)
       /\ (seedOf l nameA = seedOf l nameB -> segsA = segsB).
Proof.
  assert (E : resolve l nameA = resolve l nameB)
    by (rewrite (resolve_filter l nameA), (resolve_filter l nameB), H;
        reflexivity).
  split; [exact E|].
  destruct (segmentsWith_pairs colorForPair l nameA useDashAlphabet
                               useCatmullRom) as (sA & HA & EA).
  destruct (segmentsWith_pairs colorForPair l nameB useDashAlphabet
                               useCatmullRom) as (sB & HB & EB).
  exists sA, sB. unfold segments.
  split; [exact HA|]. split; [exact HB|].
  rewrite EA, EB, E. rewrite !map_map.
  cbn [RenderSeg.d RenderSeg.color RenderSeg.feat].
  split; [reflexivity|]. split; [reflexivity|]. split; [reflexivity|].
  split.
  - intros ->. reflexivity.
  - intros ->. reflexivity.
Qed.

Lemma unresolved_chars_ignored_witness :
  resolve qwerty "a-q" = resolve qwerty "aq".
Proof.
  apply (unresolved_chars_ignored qwerty "a-q" "aq" true false).
  rewrite <- !resolve_chars.
  replace (resolve qwerty "a-q") with (resolve qwerty "aq"); [reflexivity|].
  unfold resolve. cbn [split list_ascii_of_string map].
  rewrite centre_a, centre_q.
  replace (getKeyCenter qwerty "-") with (@None Pt.t); [reflexivity|].
  rewrite getKeyCenter_keyOf. reflexivity.
Defined.

(* ================================================================= *)
(** ** The characters that draw *)

Lemma grid_lookup_chars c :
  match lookup (keyOf (str1 c)) (layoutGrid qwerty) with
  | Some _ => true
  | None => false
  end = inb c keyboardChars.
Proof. each_char c. Qed.

(** On the qwerty layout the characters that resolve to a key are the 26
    letters in either case, the ten digits and the underscore, 63 in all,
    and nothing else: a space, a hyphen, a punctuation mark or an accented
    letter is skipped. A resolved point counts for one character of the
    name each, so that a name has as many points as characters of that
    kind. *)
Theorem resolves_keyboardChars (c : ascii) (name : string) :
  (resolves qwerty (str1 c) = true
   <-> In c (list_ascii_of_string keyboardChars))
  /\ (digitOrUnderscore c \/ upperCase c \/ lowerCase c
      <-> In c (list_ascii_of_string keyboardChars))
  /\ String.length keyboardChars = 63%nat
  /\ List.length (resolve qwerty name)
     = List.length (filter (fun a => inb a keyboardChars)
                           (list_ascii_of_string name)).
Proof.
  assert (Hres : forall a, resolves qwerty (str1 a) = inb a keyboardChars).
  { intros a. rewrite resolves_inLayout. unfold inLayout.
    rewrite keyboardLayouts_grid, lookup_map, <- grid_lookup_chars.
    destruct (lookup _ (layoutGrid qwerty)); reflexivity. }
  split; [rewrite Hres; apply inb_In|].
  split.
  - rewrite <- inb_In, <- isNumOrUnd_spec, <- isUpper_spec, <- isLower_spec.
    replace (inb c keyboardChars)
      with (isNumOrUnd (str1 c) || isUpper (str1 c) || isLower (str1 c))
      by each_char c.
    destruct (isNumOrUnd (str1 c)), (isUpper (str1 c)), (isLower (str1 c));
      cbn; intuition discriminate.
  - split; [reflexivity|].
    rewrite resolve_length. unfold split.
    induction (list_ascii_of_string name) as [|a r IH]; [reflexivity|].
    cbn [map filter]. fold (str1 a). rewrite Hres.
    destruct (inb a keyboardChars); cbn [List.length]; now rewrite IH.
Qed.

(* ================================================================= *)
(** ** The boxes of the keys and the current key *)

Lemma lastChar_app s c : lastChar (s ++ str1 c) = str1 c.
Proof.
  induction s as [|a s IH]; [reflexivity|].
  cbn [append lastChar]. rewrite IH.
  destruct s; reflexivity.
Qed.

Lemma lastChar_In name :
  name <> EmptyString ->
  exists c, lastChar name = str1 c /\ In (str1 c) (split name).
Proof.
  induction name as [|a s IH]; [congruence|]. intros _.
  destruct s as [|b s'].
  - exists a. split; [reflexivity|now left].
  - destruct IH as (c & E & Hin); [discriminate|].
    exists c. split; [exact E|]. right. exact Hin.
Qed.

Lemma isActive_In l name char :
  isActive l name char = true <-> In char (activeKeys l name).
Proof.
  unfold isActive. rewrite existsb_exists. split.
  - intros (k & Hk & E). apply String.eqb_eq in E. now subst.
  - intros H. exists char. split; [exact H|apply String.eqb_refl].
Qed.

(** The box of each key of the layout lies inside the padding of the
    canvas, and the point that the key's character resolves to is the
    middle of the box. The key marked as current is the key of the last
    character of the name: at most one key is current, a current key is
    also an active key, no key is current for the empty name, and the
    key that was just clicked is current. *)
Theorem key_boxes
        (l : KeyboardLayout) (char : string) (pos : Key.t) (name : string)
        (Hin : In (char, pos) (keyboardLayouts l)) :
  (PAD_X <= keyLeft l pos /\ keyLeft l pos + KEY_W <= WIDTH l - PAD_X)%R
  /\ (PAD_Y <= keyTop l pos /\ keyTop l pos + KEY_H <= HEIGHT l - PAD_Y)%R
  /\ getKeyCenter l char
     = Some (Pt.mk (keyLeft l pos + KEY_W / 2) (keyTop l pos + KEY_H / 2) char)
  /\ (isCurrentKey name char = true -> isActive l name char = true)
  /\ (forall other,
         isCurrentKey name char = true -> isCurrentKey name other = true ->
         other = char)
  /\ isCurrentKey EmptyString char = false
  /\ (forall capsOn, isCurrentKey (clickKey capsOn char name) char = true).
Proof.
  destruct (layout_entry l char pos Hin) as [Hl Hc].
  assert (Hx : (minX l <= Key.x pos <= maxX l)%R).
  { apply minOf_maxOf_bounds. unfold allKeys. rewrite map_map.
    apply (in_map (fun e => Key.x (snd e))) in Hin. exact Hin. }
  assert (Hy : (minY l <= Key.y pos <= maxY l)%R).
  { apply minOf_maxOf_bounds. unfold allKeys. rewrite map_map.
    apply (in_map (fun e => Key.y (snd e))) in Hin. exact Hin. }
  split.
  { unfold keyLeft, WIDTH, SHIFT_X, KEY_SPACING, KEY_W, PAD_X. lra. }
  split.
  { unfold keyTop, HEIGHT, SHIFT_Y, KEY_SPACING, KEY_H, PAD_Y. lra. }
  split.
  { destruct (Hc true) as (Hk & Hlen & Ht). cbv zeta in Hk, Hlen, Ht.
    rewrite Ht in Hk, Hlen.
    rewrite getKeyCenter_keyOf, Hk, Hl.
    destruct char; [discriminate Hlen|reflexivity]. }
  split.
  { unfold isCurrentKey. intros H. apply isActive_In.
    destruct name as [|a s]; [discriminate H|].
    destruct (lastChar_In (String a s)) as (c & E & Hc'); [discriminate|].
    rewrite E in H. unfold str1 in H. apply String.eqb_eq in H.
    unfold activeKeys. rewrite newSet_In, filter_In. split.
    - rewrite in_map_iff. exists (str1 c). split; [exact H|exact Hc'].
    - apply inLayout_lookup. now exists pos. }
  split.
  { unfold isCurrentKey. intros other H1 H2.
    destruct (lastChar name); [discriminate|].
    apply String.eqb_eq in H1, H2. congruence. }
  split; [reflexivity|].
  intros capsOn. destruct (Hc capsOn) as (Hk & Hlen & _).
  cbv zeta in Hk, Hlen. unfold isCurrentKey, clickKey.
  destruct (clickCharToAppend capsOn char) as [|c [|c' r]] eqn:E;
    try discriminate Hlen.
  change (String c EmptyString) with (str1 c).
  rewrite lastChar_app. unfold str1. rewrite Hk. apply String.eqb_refl.
Qed.

Lemma key_boxes_witness :
  isCurrentKey (clickKey false "A" "q") "A" = true.
Proof.
  apply (key_boxes qwerty "A" (Key.mk 0.75 1) "q").
  unfold keyboardLayouts. do 21 right. left. reflexivity.
Defined.

(* ================================================================= *)
(** ** Legacy dashes and the earlier line styles *)

Lemma legacyDash_classifyStyle l ca cb ga gb :
  lookup (keyOf (str1 ca)) (layoutGrid l) = Some ga ->
  lookup (keyOf (str1 cb)) (layoutGrid l) = Some gb ->
  legacyDash (str1 ca) (str1 cb)
  = Some (lineDash (classifyStyle (str1 ca) (str1 cb))).
Proof.
  intros Ha Hb. apply key_char_kind in Ha, Hb.
  unfold legacyDash, classifyStyle, isLetter.
  destruct (isNumOrUnd (str1 ca)), (isNumOrUnd (str1 cb)),
    (isUpper (str1 ca)), (isUpper (str1 cb)),
    (isLower (str1 ca)), (isLower (str1 cb));
    cbn in *; try reflexivity; discriminate.
Qed.

(** The legacy dash mode draws each segment with the dash of the earlier
    component's line style for its pair of characters: dotted with a digit
    or an underscore, solid between two capitals, dashed between two
    letters otherwise. The two functions agree on every pair of
    characters that are on keys, which are the only ones that segments
    join; off the keyboard they differ: for a pair without digit or
    underscore that is not a pair of letters, the style is solid and the
    legacy dash is the dash pattern. *)
Theorem legacy_is_earlier_style
        (l : KeyboardLayout) (name : string) (useCatmullRom : bool) :
  (exists segs,
      segments l name false useCatmullRom = Ok segs
      /\ Forall (fun s =>
                   RenderSeg.dash s
                   = Some (lineDash
                             (classifyStyle (CodecSeg.a (RenderSeg.feat s))
                                            (CodecSeg.b (RenderSeg.feat s)))))
                segs)
  /\ (forall a b : string,
         resolves l a = true -> resolves l b = true ->
         legacyDash a b = Some (lineDash (classifyStyle a b)))
  /\ (forall a b : string,
         isNumOrUnd a || isNumOrUnd b = false ->
         isLetter a && isLetter b = false ->
         classifyStyle a b = solid /\ legacyDash a b = Some [8; 6]).
Proof.
  assert (Hres : forall a b : string,
             resolves l a = true -> resolves l b = true ->
             legacyDash a b = Some (lineDash (classifyStyle a b))).
  { intros a b Ha Hb. unfold resolves in Ha, Hb.
    destruct (getKeyCenter l a) as [pa|] eqn:Ea; [|discriminate].
    destruct (getKeyCenter l b) as [pb|] eqn:Eb; [|discriminate].
    destruct (getKeyCenter_grid l a pa Ea) as (ca & ga & -> & Ga & _).
    destruct (getKeyCenter_grid l b pb Eb) as (cb & gb & -> & Gb & _).
    now apply (legacyDash_classifyStyle l ca cb ga gb). }
  split; [|split; [exact Hres|]].
  - destruct (segmentsWith_pairs colorForPair l name false useCatmullRom)
      as (segs & Hs & Es).
    exists segs. split; [exact Hs|].
    rewrite Es, Forall_map, Forall_forall.
    intros [i [p q]] Hq. cbn [fst snd RenderSeg.dash RenderSeg.feat].
    apply in_combine_r in Hq.
    destruct (adjacent_In _ _ _ Hq) as [Hp1 Hp2].
    apply resolve_In in Hp1, Hp2.
    destruct Hp1 as [_ G1]. destruct Hp2 as [_ G2].
    change (CodecSeg.a (featAt p q)) with (Pt.ch p).
    change (CodecSeg.b (featAt p q)) with (Pt.ch q).
    unfold dashAt. apply Hres; unfold resolves; [now rewrite G1|now rewrite G2].
  - intros a b Hn Hl. unfold classifyStyle, legacyDash.
    rewrite Hn, Hl. split; [reflexivity|].
    unfold isLetter in Hl.
    destruct (isUpper a), (isUpper b); cbn in *; try reflexivity.
    discriminate.
Qed.

(* ================================================================= *)
(** ** The curved strokes of the earlier component *)





